(** * Safe reachable / returnable sets of an MDP graph

    A shallow embedding of [safemdp/SafeMDP_class.py] and
    [safemdp/utilities.py], followed by the properties of the traversals
    ([reachable_set], [returnable_set]), of [SafeMDP.compute_S_hat], of
    [link_graph_and_safe_set] and of [DifferenceKernel].

    Conventions of the embedding.
    - A Python call that can raise is a function into [res]; a call that
      mutates an object is a state transformer [M St A], and the state
      survives a raise, as the mutated object does in Python.
    - numpy boolean arrays are flat, row-major lists with an explicit shape.
    - Nodes and actions are natural numbers, so numpy's wrap-around for
      negative indices never arises. *)

From Stdlib Require Import Lia.
From stdpp Require Import base decidable option list.

(** ** Exceptions, outcomes and the state-and-exception monad *)

Inductive exn : Type :=
  | AttributeError   (* raised by the traversals on an empty seed list *)
  | IndexError       (* numpy index out of bounds *)
  | ValueError       (* [max] of an empty sequence, shape mismatch *)
  | TypeError        (* subscripting [None] *)
  | NetworkXError.   (* [graph.edges(n)] for [n] not in the graph *)

(** [Diverge] is the outcome of a loop that exhausts its iteration budget;
    [while_stack_terminates] below shows the traversals never produce it. *)
Inductive res (A : Type) : Type :=
  | Ret (a : A)
  | Raise (e : exn)
  | Diverge.
Arguments Ret {A} a.
Arguments Raise {A} e.
Arguments Diverge {A}.

Definition M (St A : Type) : Type := St → St * res A.

Definition raise {St A} (e : exn) : M St A := λ s, (s, Raise e).
Definition lift {St A} (r : res A) : M St A := λ s, (s, r).
Definition get {St} : M St St := λ s, (s, Ret s).
Definition modify {St} (f : St → St) : M St unit := λ s, (f s, Ret tt).

#[global] Instance M_ret {St} : MRet (M St) := λ A a s, (s, Ret a).
#[global] Instance M_bind {St} : MBind (M St) := λ A B k m s,
  match m s with
  | (s', Ret a) => k a s'
  | (s', Raise e) => (s', Raise e)
  | (s', Diverge) => (s', Diverge)
  end.

(** [for x in l: body x] *)
Fixpoint for_each {St X} (l : list X) (body : X → M St unit) : M St unit :=
  match l with
  | [] => mret tt
  | x :: l' => body x;; for_each l' body
  end.

(** ** numpy boolean arrays *)

Module Np.

(** A two-dimensional array in C order: cell [(i, j)] is [data !! (i * ncols + j)]. *)
Record ndarray : Type := mk { nrows : nat; ncols : nat; data : list bool }.

Definition valid (m : ndarray) : Prop := length (data m) = nrows m * ncols m.

Definition same_shape (a b : ndarray) : Prop :=
  nrows a = nrows b ∧ ncols a = ncols b.

(** [m[i, j]]; [None] stands for numpy's IndexError. *)
Definition getitem (m : ndarray) (i j : nat) : option bool :=
  if decide (i < nrows m ∧ j < ncols m) then data m !! (i * ncols m + j) else None.

(** [m[i, j] = b], in place; [None] stands for numpy's IndexError. *)
Definition setitem (m : ndarray) (i j : nat) (b : bool) : option ndarray :=
  match getitem m i j with
  | Some _ => Some (mk (nrows m) (ncols m) (<[i * ncols m + j := b]> (data m)))
  | None => None
  end.

(** [m[:] = b] *)
Definition fill (b : bool) (m : ndarray) : ndarray :=
  mk (nrows m) (ncols m) (replicate (length (data m)) b).

(** [np.zeros((r, c), dtype=np.bool)] *)
Definition zeros (r c : nat) : ndarray := mk r c (replicate (r * c) false).

(** [np.empty((r, c), dtype=np.bool)]: the cells are whatever the
    allocated memory [mem] holds. *)
Definition empty (r c : nat) (mem : nat → bool) : ndarray :=
  mk r c (mem <$> seq 0 (r * c)).

(** [m.copy()]: a value, since arrays are values here. *)
Definition copy (m : ndarray) : ndarray := m.

(** [m[:, 0].nonzero()[0].tolist()] *)
Definition column0_nonzero (m : ndarray) : option (list nat) :=
  if decide (0 < ncols m)
  then Some (filter (λ i, getitem m i 0 = Some true) (seq 0 (nrows m)))
  else None.

(** [a &= b] for arrays of one shape.  (numpy would also broadcast a
    one-row or one-column [b]; [SafeMDP] never relies on it.) *)
Definition iand (a b : ndarray) : option ndarray :=
  if decide (same_shape a b)
  then Some (mk (nrows a) (ncols a) (zip_with andb (data a) (data b)))
  else None.

(** [a ⊆ b] cell by cell. *)
Definition subset (a b : ndarray) : Prop :=
  ∀ i j, getitem a i j = Some true → getitem b i j = Some true.

End Np.

(** ** networkx directed graphs with [action] and [safe] edge attributes *)

(** The value of an edge's ['safe'] attribute: a Python boolean, or the
    one-element numpy view [safe_set[row:row+1, col]] that
    [link_graph_and_safe_set] installs.  A view holds no value of its own:
    it is read through the array it aliases. *)
Inductive SafeAttr : Type :=
  | SafeBool (b : bool)
  | SafeView (row col : nat).

Record Edge : Type := mkEdge { src : nat; dst : nat; action : nat; safe : SafeAttr }.

(** A [networkx.DiGraph] on the nodes [0 .. number_of_nodes - 1];
    [edges] is the sequence [graph.edges(data=True)] iterates over. *)
Record DiGraph : Type := mkGraph { number_of_nodes : nat; edges : list Edge }.

(** Truth value of [data['safe']], read against the current contents [env]
    of the linked array.  The view of a row beyond the array is empty, and
    an empty array is false. *)
Definition truth (env : Np.ndarray) (a : SafeAttr) : bool :=
  match a with
  | SafeBool b => b
  | SafeView row col => default false (Np.getitem env row col)
  end.

(** [graph.edges(node, data=True)] *)
Definition edges_from (graph : DiGraph) (node : nat) : res (list Edge) :=
  if decide (node < number_of_nodes graph)
  then Ret (filter (λ e, src e = node) (edges graph))
  else Raise NetworkXError.

(** [graph.get_edge_data(u, v)], [None] when there is no such edge. *)
Definition get_edge_data (graph : DiGraph) (u v : nat) : option Edge :=
  head (filter (λ e, src e = u ∧ dst e = v) (edges graph)).

(** [graph.reverse()]: every edge flipped, attributes deep-copied.  The
    deep copy of a view is a detached array holding the value read at the
    time of the copy. *)
Definition reverse_edge (env : Np.ndarray) (e : Edge) : Edge :=
  mkEdge (dst e) (src e) (action e) (SafeBool (truth env (safe e))).

Definition DiGraph_reverse (env : Np.ndarray) (graph : DiGraph) : DiGraph :=
  mkGraph (number_of_nodes graph) (reverse_edge env <$> edges graph).

Definition out_degree (graph : DiGraph) (node : nat) : nat :=
  length (filter (λ e, src e = node) (edges graph)).

(** [utilities.max_out_degree]: Python's [max] raises ValueError on an
    empty sequence. *)
Definition max_out_degree (graph : DiGraph) : res nat :=
  match out_degree graph <$> seq 0 (number_of_nodes graph) with
  | [] => Raise ValueError
  | d :: ds => Ret (foldr Nat.max d ds)
  end.

(** ** The traversals of [SafeMDP_class.py] *)

(** What a traversal does to its two mutable objects, newest first:
    [Mark i j] for an assignment [visited[i, j] = True], [Push n] for a node
    entering the queue (initially or by [stack.append]).  The trace is
    ghost state: nothing reads it. *)
Inductive event : Type :=
  | Mark (row col : nat)
  | Push (node : nat).

Record bfs : Type := mkBfs { visited : Np.ndarray; stack : list nat; trace : list event }.

(** [visited[i, j]] *)
Definition read (i j : nat) : M bfs bool := λ s,
  match Np.getitem (visited s) i j with
  | Some b => (s, Ret b)
  | None => (s, Raise IndexError)
  end.

(** [visited[i, j] = True] *)
Definition mark (i j : nat) : M bfs unit := λ s,
  match Np.setitem (visited s) i j true with
  | Some v => (mkBfs v (stack s) (Mark i j :: trace s), Ret tt)
  | None => (s, Raise IndexError)
  end.

(** [visited[rows, j] = True]: numpy checks every index before it writes. *)
Definition mark_rows (rows : list nat) (j : nat) : M bfs unit := λ s,
  if decide (Forall (λ i, is_Some (Np.getitem (visited s) i j)) rows)
  then for_each rows (λ i, mark i j) s
  else (s, Raise IndexError).

(** [stack = list(initial_nodes)] *)
Definition init_stack (l : list nat) : M bfs unit := λ s,
  (mkBfs (visited s) l ((Push <$> reverse l) ++ trace s), Ret tt).

(** [stack.append(n)] *)
Definition append (n : nat) : M bfs unit := λ s,
  (mkBfs (visited s) (stack s ++ [n]) (Push n :: trace s), Ret tt).

(** [while stack: node = stack.pop(0); body node], with an iteration
    budget [fuel]. *)
Fixpoint while_stack (fuel : nat) (body : nat → M bfs unit) (s : bfs) : bfs * res unit :=
  match stack s with
  | [] => (s, Ret tt)
  | node :: rest =>
    match fuel with
    | 0 => (s, Diverge)
    | S fuel' =>
      match body node (mkBfs (visited s) rest (trace s)) with
      | (s', Ret _) => while_stack fuel' body s'
      | (s', r) => (s', r)
      end
    end
  end.

(** The budget the traversals run with: every iteration pops one node, and
    a node is appended only when its column-0 cell flips to true. *)
Definition budget (s : bfs) : nat := length (stack s) + Np.nrows (visited s).

Definition run_queue (body : nat → M bfs unit) : M bfs unit := λ s,
  while_stack (budget s) body s.

(** Body of the [for] loop of [reachable_set] (lines 144-150). *)
Definition visit_successor (env : Np.ndarray) (node : nat) (e : Edge) : M bfs unit :=
  let next_node := dst e in
  let action := action e in
  seen ← read node action;
  if negb seen && truth env (safe e) then
    mark node action;;
    seen_next ← read next_node 0;
    if negb seen_next then append next_node;; mark next_node 0 else mret tt
  else mret tt.

Definition reachable_step (env : Np.ndarray) (graph : DiGraph) (node : nat) : M bfs unit :=
  es ← lift (edges_from graph node);
  for_each es (visit_successor env node).

(** Lines 136-150, on the array [visited] of the state. *)
Definition reachable_body (env : Np.ndarray) (graph : DiGraph)
    (initial_nodes : list nat) : M bfs unit :=
  mark_rows initial_nodes 0;;
  init_stack initial_nodes;;
  run_queue (reachable_step env graph).

(** [reachable_set(graph, initial_nodes, out=out)]: the final state holds
    the contents of [out] when the call ends, normally or not. *)
Definition reachable_set (env : Np.ndarray) (graph : DiGraph)
    (initial_nodes : list nat) (out : Np.ndarray) : bfs * res unit :=
  match initial_nodes with
  | [] => (mkBfs out [] [], Raise AttributeError)
  | _ => reachable_body env graph initial_nodes (mkBfs out [] [])
  end.

(** [reachable_set(graph, initial_nodes)], the branch [out is None]. *)
Definition reachable_set_new (env : Np.ndarray) (graph : DiGraph)
    (initial_nodes : list nat) : res Np.ndarray :=
  match initial_nodes with
  | [] => Raise AttributeError
  | _ =>
    match max_out_degree graph with
    | Ret d =>
      match reachable_body env graph initial_nodes
              (mkBfs (Np.zeros (number_of_nodes graph) (d + 1)) [] []) with
      | (s, Ret _) => Ret (visited s)
      | (_, Raise e) => Raise e
      | (_, Diverge) => Diverge
      end
    | Raise e => Raise e
    | Diverge => Diverge
    end
  end.

(** Body of the [for] loop of [returnable_set] (lines 202-208): the edge
    attributes are those of the forward edge [prev_node → node]. *)
Definition visit_predecessor (env : Np.ndarray) (graph : DiGraph)
    (node prev_node : nat) : M bfs unit :=
  match get_edge_data graph prev_node node with
  | None => raise TypeError
  | Some data =>
    seen ← read prev_node (action data);
    if negb seen && truth env (safe data) then
      mark prev_node (action data);;
      seen_prev ← read prev_node 0;
      if negb seen_prev then append prev_node;; mark prev_node 0 else mret tt
    else mret tt
  end.

Definition returnable_step (env : Np.ndarray) (graph reverse_graph : DiGraph)
    (node : nat) : M bfs unit :=
  es ← lift (edges_from reverse_graph node);
  for_each (dst <$> es) (visit_predecessor env graph node).

Definition returnable_body (env : Np.ndarray) (graph reverse_graph : DiGraph)
    (initial_nodes : list nat) : M bfs unit :=
  mark_rows initial_nodes 0;;
  init_stack initial_nodes;;
  run_queue (returnable_step env graph reverse_graph).

(** [returnable_set(graph, reverse_graph, initial_nodes, out=out)] *)
Definition returnable_set (env : Np.ndarray) (graph reverse_graph : DiGraph)
    (initial_nodes : list nat) (out : Np.ndarray) : bfs * res unit :=
  match initial_nodes with
  | [] => (mkBfs out [] [], Raise AttributeError)
  | _ => returnable_body env graph reverse_graph initial_nodes (mkBfs out [] [])
  end.

(** [returnable_set(graph, reverse_graph, initial_nodes)], the branch
    [out is None]. *)
Definition returnable_set_new (env : Np.ndarray) (graph reverse_graph : DiGraph)
    (initial_nodes : list nat) : res Np.ndarray :=
  match initial_nodes with
  | [] => Raise AttributeError
  | _ =>
    match max_out_degree graph with
    | Ret d =>
      match returnable_body env graph reverse_graph initial_nodes
              (mkBfs (Np.zeros (number_of_nodes graph) (d + 1)) [] []) with
      | (s, Ret _) => Ret (visited s)
      | (_, Raise e) => Raise e
      | (_, Diverge) => Diverge
      end
    | Raise e => Raise e
    | Diverge => Diverge
    end
  end.

(** [link_graph_and_safe_set(graph, safe_set)]: rebinds ['safe'] of every
    edge, in the order of [graph.edges()], to a view of [safe_set].  The
    column index is checked when the view is taken; the row slice is not. *)
Fixpoint link_edges (safe_set : Np.ndarray) (es : list Edge) : list Edge * res unit :=
  match es with
  | [] => ([], Ret tt)
  | e :: rest =>
    if decide (action e < Np.ncols safe_set) then
      let '(rest', r) := link_edges safe_set rest in
      (mkEdge (src e) (dst e) (action e) (SafeView (src e) (action e)) :: rest', r)
    else (e :: rest, Raise IndexError)
  end.

Definition link_graph_and_safe_set (safe_set : Np.ndarray) : M DiGraph unit := λ graph,
  let '(es, r) := link_edges safe_set (edges graph) in
  (mkGraph (number_of_nodes graph) es, r).

(** ** The class [SafeMDP] *)

(** A two-dimensional array of floats, of shape [(length mat_rows,
    mat_cols)]: an array keeps its number of columns when it has no row. *)
Record matrix (F : Type) : Type := mkMatrix { mat_cols : nat; mat_rows : list (list F) }.
Arguments mkMatrix {F} _ _.
Arguments mat_cols {F} _.
Arguments mat_rows {F} _.

(** Modelled from the spec: the regression model (GPy) is an external
    collaborator; of it the class uses the observation arrays [X], [Y] and
    [set_XY], which replaces them. *)
Record GPRegression (F : Type) : Type := mkGP { gp_X : matrix F; gp_Y : matrix F }.
Arguments mkGP {F} _ _.
Arguments gp_X {F} _.
Arguments gp_Y {F} _.

(** [np.vstack((a, b))] on two-dimensional arrays: the rows of [b] after
    those of [a]; numpy raises ValueError when the numbers of columns
    differ, also when one of the arrays has no row. *)
Definition vstack {F} (a b : matrix F) : res (matrix F) :=
  if decide (mat_cols a = mat_cols b)
  then Ret (mkMatrix (mat_cols a) (mat_rows a ++ mat_rows b))
  else Raise ValueError.

Module SafeMDP.

(** The attributes [__init__] sets; [F] is the type of floats. *)
Record self (F : Type) : Type := mk {
  beta : F;
  h : F;
  L : F;
  gp : GPRegression F;
  graph : DiGraph;
  graph_reverse : DiGraph;
  reach : Np.ndarray;
  G : Np.ndarray;
  S_hat : Np.ndarray;
  S_hat0 : Np.ndarray;
  initial_nodes : list nat
}.
Arguments mk {F}.
Arguments beta {F}. Arguments h {F}. Arguments L {F}. Arguments gp {F}.
Arguments graph {F}. Arguments graph_reverse {F}. Arguments reach {F}.
Arguments G {F}. Arguments S_hat {F}. Arguments S_hat0 {F}.
Arguments initial_nodes {F}.

Definition set_reach {F} (a : Np.ndarray) (s : self F) : self F :=
  mk (beta s) (h s) (L s) (gp s) (graph s) (graph_reverse s)
     a (G s) (S_hat s) (S_hat0 s) (initial_nodes s).

Definition set_S_hat {F} (a : Np.ndarray) (s : self F) : self F :=
  mk (beta s) (h s) (L s) (gp s) (graph s) (graph_reverse s)
     (reach s) (G s) a (S_hat0 s) (initial_nodes s).

Definition set_gp {F} (g : GPRegression F) (s : self F) : self F :=
  mk (beta s) (h s) (L s) g (graph s) (graph_reverse s)
     (reach s) (G s) (S_hat s) (S_hat0 s) (initial_nodes s).

(** [SafeMDP(graph, gp, S_hat0, h, L, beta)].  [mem_reach] and [mem_G]
    are the contents of the memory [np.empty] hands out; [env] is the
    array the edges' views alias, read by [graph.reverse()]. *)
Definition __init__ {F} (env : Np.ndarray) (mem_reach mem_G : nat → bool)
    (graph : DiGraph) (gp : GPRegression F) (S_hat0 : Np.ndarray)
    (h L beta : F) : res (self F) :=
  let graph_reverse := DiGraph_reverse env graph in
  let num_nodes := number_of_nodes graph in
  match max_out_degree graph with
  | Ret num_edges =>
    let reach := Np.empty num_nodes (num_edges + 1) mem_reach in
    let G := Np.empty num_nodes (num_edges + 1) mem_G in
    let S_hat := Np.copy S_hat0 in
    let S_hat0' := Np.copy S_hat in
    match Np.column0_nonzero S_hat0' with
    | Some initial_nodes =>
      Ret (mk beta h L gp graph graph_reverse reach G S_hat S_hat0' initial_nodes)
    | None => Raise IndexError
    end
  | Raise e => Raise e
  | Diverge => Diverge
  end.

(** Run a traversal with [self.reach] (resp. [self.S_hat]) as its [out]. *)
Definition on_reach {F} (f : Np.ndarray → bfs * res unit) : M (self F) unit := λ s,
  let '(b, r) := f (reach s) in (set_reach (visited b) s, r).

Definition on_S_hat {F} (f : Np.ndarray → bfs * res unit) : M (self F) unit := λ s,
  let '(b, r) := f (S_hat s) in (set_S_hat (visited b) s, r).

(** [self.S_hat &= self.reach] *)
Definition iand_S_hat_reach {F} : M (self F) unit := λ s,
  match Np.iand (S_hat s) (reach s) with
  | Some a => (set_S_hat a s, Ret tt)
  | None => (s, Raise ValueError)
  end.

(** [compute_S_hat(self)], lines 67-74. *)
Definition compute_S_hat {F} (env : Np.ndarray) : M (self F) unit :=
  modify (λ s, set_reach (Np.fill false (reach s)) s);;
  s ← get;
  on_reach (reachable_set env (graph s) (initial_nodes s));;
  modify (λ s, set_S_hat (Np.fill false (S_hat s)) s);;
  s ← get;
  on_S_hat (returnable_set env (graph s) (graph_reverse s) (initial_nodes s));;
  iand_S_hat_reach.

(** [add_gp_observations(self, x_new, y_new)] *)
Definition add_gp_observations {F} (x_new y_new : matrix F) : M (self F) unit :=
  s ← get;
  X ← lift (vstack (gp_X (gp s)) x_new);
  Y ← lift (vstack (gp_Y (gp s)) y_new);
  modify (set_gp (mkGP X Y)).

End SafeMDP.

(** ** [utilities.DifferenceKernel] *)

Module DifferenceKernel.
Section Kernel.

(** The numbers of the arrays and their arithmetic are parameters: no law
    of arithmetic is used, so the results hold of floats as they do of
    reals. *)
Context {F : Type} (add sub mul : F → F → F) (two : F).

(** Modelled from the spec: the base kernel [self.kern] (GPy) is an
    external collaborator, given by its covariance function [k] on
    points and its [input_dim]; [kern.K(X, X2)[i, j] = k(X[i], X2[j])],
    [kern.K(X) = kern.K(X, X)] and [kern.Kdiag(X)[i] = k(X[i], X[i])]. *)
Context (input_dim : nat) (k : list F → list F → F).

Definition kern_K (X : list (list F)) (X2 : option (list (list F))) : list (list F) :=
  (λ x, k x <$> default X X2) <$> X.

Definition kern_Kdiag (X : list (list F)) : list F := (λ x, k x x) <$> X.

(** [np.diag] of a matrix. *)
Definition np_diag (A : list (list F)) : list F :=
  omap id (imap (λ i row, row !! i) A).

(** [x[:, :dim]] and [x[:, dim:]] *)
Definition cols_to (dim : nat) (x : list (list F)) : list (list F) := take dim <$> x.
Definition cols_from (dim : nat) (x : list (list F)) : list (list F) := drop dim <$> x.

Definition madd (A B : list (list F)) : list (list F) := zip_with (zip_with add) A B.
Definition msub (A B : list (list F)) : list (list F) := zip_with (zip_with sub) A B.

(** [DifferenceKernel.K(self, x1, x2=None)] *)
Definition K (x1 : list (list F)) (x2 : option (list (list F))) : list (list F) :=
  let dim := input_dim in
  match x2 with
  | None =>
    let x10 := cols_to dim x1 in
    let x11 := cols_from dim x1 in
    msub (msub (madd (kern_K x10 None) (kern_K x11 None))
               (kern_K x10 (Some x11)))
         (kern_K x11 (Some x10))
  | Some x2 =>
    let x20 := cols_to dim x2 in
    let x21 := cols_from dim x2 in
    msub (kern_K x1 (Some x20)) (kern_K x1 (Some x21))
  end.

(** [DifferenceKernel.Kdiag(self, x)] *)
Definition Kdiag (x : list (list F)) : list F :=
  let dim := input_dim in
  let x0 := cols_to dim x in
  let x1 := cols_from dim x in
  zip_with sub (zip_with add (kern_Kdiag x0) (kern_Kdiag x1))
           (mul two <$> np_diag (kern_K x0 (Some x1))).

(** A query holding the pair [(a1, a2)] in each row. *)
Definition hstack (pairs : list (list F * list F)) : list (list F) :=
  (λ p, p.1 ++ p.2) <$> pairs.

End Kernel.
End DifferenceKernel.

(** * Notions used to state and prove the properties *)

(** ** One worklist algorithm behind both traversals

    The two [for] bodies differ only in which cell an edge marks and which
    node it enqueues.  An [arc] carries exactly that: the cell
    [(row, col)], the truth value of the edge's ['safe'] and the node to
    enqueue.  [BadArc] is a predecessor with no forward edge, on which
    [returnable_set] raises. *)

Variant arc : Type :=
  | BadArc
  | Arc (row col : nat) (sf : bool) (target : nat).

(** The common body of the two [for] loops, on an arc. *)
Definition touch (a : arc) : M bfs unit :=
  match a with
  | BadArc => raise TypeError
  | Arc row col sf target =>
    seen ← read row col;
    if negb seen && sf then
      mark row col;;
      seen_target ← read target 0;
      if negb seen_target then append target;; mark target 0 else mret tt
    else mret tt
  end.

(** The common body of the two [while] loops: the arcs of the popped node,
    each touched in turn. *)
Definition sweep (arcs : nat → res (list arc)) (node : nat) : M bfs unit :=
  l ← lift (arcs node);
  for_each l touch.

(** The arcs of [reachable_set]: an outgoing edge marks [(node, action)]
    and enqueues its head. *)
Definition succ_arc (env : Np.ndarray) (e : Edge) : arc :=
  Arc (src e) (action e) (truth env (safe e)) (dst e).

Definition succ_list (env : Np.ndarray) (graph : DiGraph) (node : nat) : list arc :=
  succ_arc env <$> filter (λ e, src e = node) (edges graph).

Definition succ_arcs (env : Np.ndarray) (graph : DiGraph) (node : nat) : res (list arc) :=
  if decide (node < number_of_nodes graph)
  then Ret (succ_list env graph node) else Raise NetworkXError.

(** The arcs of [returnable_set]: an edge [e'] of the reverse graph out of
    [node] stands for the forward edge [dst e' → node], which marks
    [(dst e', action)] and enqueues its tail [dst e']. *)
Definition pred_arc (env : Np.ndarray) (graph : DiGraph) (node : nat) (e' : Edge) : arc :=
  match get_edge_data graph (dst e') node with
  | None => BadArc
  | Some data => Arc (dst e') (action data) (truth env (safe data)) (dst e')
  end.

Definition pred_list (env : Np.ndarray) (graph reverse_graph : DiGraph)
    (node : nat) : list arc :=
  pred_arc env graph node <$> filter (λ e, src e = node) (edges reverse_graph).

Definition pred_arcs (env : Np.ndarray) (graph reverse_graph : DiGraph)
    (node : nat) : res (list arc) :=
  if decide (node < number_of_nodes reverse_graph)
  then Ret (pred_list env graph reverse_graph node) else Raise NetworkXError.

(** The outcomes of one [touch], path by path. *)
Inductive touch_spec (s : bfs) : arc → bfs * res unit → Prop :=
  | touch_bad :
      touch_spec s BadArc (s, Raise TypeError)
  | touch_read_fail r c sf t :
      Np.getitem (visited s) r c = None →
      touch_spec s (Arc r c sf t) (s, Raise IndexError)
  | touch_seen r c sf t :
      Np.getitem (visited s) r c = Some true →
      touch_spec s (Arc r c sf t) (s, Ret tt)
  | touch_unsafe r c t :
      Np.getitem (visited s) r c = Some false →
      touch_spec s (Arc r c false t) (s, Ret tt)
  | touch_target_fail r c t v1 :
      Np.getitem (visited s) r c = Some false →
      Np.setitem (visited s) r c true = Some v1 →
      Np.getitem v1 t 0 = None →
      touch_spec s (Arc r c true t)
        (mkBfs v1 (stack s) (Mark r c :: trace s), Raise IndexError)
  | touch_old r c t v1 :
      Np.getitem (visited s) r c = Some false →
      Np.setitem (visited s) r c true = Some v1 →
      Np.getitem v1 t 0 = Some true →
      touch_spec s (Arc r c true t)
        (mkBfs v1 (stack s) (Mark r c :: trace s), Ret tt)
  | touch_new r c t v1 v2 :
      Np.getitem (visited s) r c = Some false →
      Np.setitem (visited s) r c true = Some v1 →
      Np.getitem v1 t 0 = Some false →
      Np.setitem v1 t 0 true = Some v2 →
      touch_spec s (Arc r c true t)
        (mkBfs v2 (stack s ++ [t]) (Mark t 0 :: Push t :: Mark r c :: trace s), Ret tt).

(** Rows whose column-0 cell is still false. *)
Definition unmarked (v : Np.ndarray) : nat :=
  length (filter (λ i, Np.getitem v i 0 = Some false) (seq 0 (Np.nrows v))).

(** What bounds the iterations still to come. *)
Definition measure (s : bfs) : nat := length (stack s) + unmarked (visited s).

(** The cells written and the nodes enqueued, as the trace records them. *)
Definition marks (t : list event) : list (nat * nat) :=
  omap (λ e, match e with Mark i j => Some (i, j) | Push _ => None end) t.

Definition pushes (t : list event) : list nat :=
  omap (λ e, match e with Push n => Some n | Mark _ _ => None end) t.

(** The trace repeats no write and no push; what it wrote is true and what
    it pushed is marked in column 0. *)
Record once (s : bfs) : Prop := mkOnce {
  once_marks : NoDup (marks (trace s));
  once_pushes : NoDup (pushes (trace s));
  once_marked : ∀ i j, (i, j) ∈ marks (trace s) → Np.getitem (visited s) i j = Some true;
  once_pushed : ∀ n, n ∈ pushes (trace s) → Np.getitem (visited s) n 0 = Some true
}.

(** Lines 136-150 and 194-208 over arcs. *)
Definition traverse (arcs : nat → res (list arc)) (rows : list nat) : M bfs unit :=
  mark_rows rows 0;;
  init_stack rows;;
  run_queue (sweep arcs).

(** The arcs of a graph on [N] nodes: [edges(n)] raises off the graph. *)
Definition guarded (N : nat) (arcl : nat → list arc) (n : nat) : res (list arc) :=
  if decide (n < N) then Ret (arcl n) else Raise NetworkXError.

(** [closure arcl seeds] is the least set of cells that holds column 0 of
    every seed and, with column 0 of a node, the cell and the target of
    each of the node's safe arcs. *)
Inductive closure (arcl : nat → list arc) (seeds : list nat) : nat → nat → Prop :=
  | closure_seed n :
      n ∈ seeds → closure arcl seeds n 0
  | closure_cell n r c t :
      closure arcl seeds n 0 → Arc r c true t ∈ arcl n → closure arcl seeds r c
  | closure_target n r c t :
      closure arcl seeds n 0 → Arc r c true t ∈ arcl n → closure arcl seeds t 0.

(** An arc that stays inside an [R × C] array on [N] nodes, and off column 0. *)
Definition arc_ok (N R C : nat) (a : arc) : Prop :=
  match a with
  | BadArc => False
  | Arc r c _ t => r < R ∧ 1 ≤ c < C ∧ t < R ∧ t < N
  end.

(** Two safe arcs that mark one cell enqueue one node. *)
Definition functional (N : nat) (arcl : nat → list arc) : Prop :=
  ∀ n n' r c t t', n < N → n' < N →
    Arc r c true t ∈ arcl n → Arc r c true t' ∈ arcl n' → t = t'.

(** An array with no true cell, as [compute_S_hat] hands to the traversals. *)
Definition blank (m : Np.ndarray) : Prop :=
  ∀ i j, Np.getitem m i j ≠ Some true.

(** ** Loop invariants, for arcs [arcl] on [N] nodes and an [R × C] array *)

Section Invariants.

Variables (arcl : nat → list arc) (N R C : nat) (seeds : list nat).

Definition shaped (s : bfs) : Prop :=
  Np.valid (visited s) ∧ Np.nrows (visited s) = R ∧ Np.ncols (visited s) = C.

(** The cell of every safe arc of [l] is marked. *)
Definition served (v : Np.ndarray) (l : list arc) : Prop :=
  ∀ r c t, Arc r c true t ∈ l → Np.getitem v r c = Some true.

(** The target of every safe arc whose cell is marked is marked. *)
Definition linked (v : Np.ndarray) : Prop :=
  ∀ n r c t, n < N → Arc r c true t ∈ arcl n →
    Np.getitem v r c = Some true → Np.getitem v t 0 = Some true.

(** The invariant inside the [for] loop of node [cur], after the arcs
    [done] of [cur]. *)
Record inner (cur : nat) (done : list arc) (s : bfs) : Prop := mkInner {
  inner_shaped : shaped s;
  inner_queued : Forall (λ n, n < N) (stack s);
  inner_sound : ∀ i j, Np.getitem (visited s) i j = Some true → closure arcl seeds i j;
  inner_stack : ∀ n, n ∈ stack s → closure arcl seeds n 0;
  inner_linked : functional N arcl → linked (visited s);
  inner_settled : functional N arcl → ∀ n, Np.getitem (visited s) n 0 = Some true →
    n ∈ stack s ∨ served (visited s) (arcl n) ∨ (n = cur ∧ served (visited s) done);
  inner_seeded : ∀ n, n ∈ seeds → Np.getitem (visited s) n 0 = Some true
}.

(** The invariant of the [while] loop. *)
Record outer (s : bfs) : Prop := mkOuter {
  outer_shaped : shaped s;
  outer_queued : Forall (λ n, n < N) (stack s);
  outer_sound : ∀ i j, Np.getitem (visited s) i j = Some true → closure arcl seeds i j;
  outer_stack : ∀ n, n ∈ stack s → closure arcl seeds n 0;
  outer_linked : functional N arcl → linked (visited s);
  outer_settled : functional N arcl → ∀ n, Np.getitem (visited s) n 0 = Some true →
    n ∈ stack s ∨ served (visited s) (arcl n);
  outer_seeded : ∀ n, n ∈ seeds → Np.getitem (visited s) n 0 = Some true
}.

(** The array keeps its shape and the queue holds nodes of the graph. *)
Definition fits (s : bfs) : Prop :=
  shaped s ∧ Forall (λ n, n < N) (stack s).

End Invariants.

(** ** The data model of graphs and objects *)

(** A graph whose edges join its own nodes, carry an action in
    [1 .. C - 1] and are one per ordered pair of nodes (a [DiGraph] keeps
    one attribute dictionary per pair). *)
Record graph_ok (C : nat) (graph : DiGraph) : Prop := mkGraphOk {
  ok_endpoints : ∀ e, e ∈ edges graph →
    src e < number_of_nodes graph ∧ dst e < number_of_nodes graph;
  ok_actions : ∀ e, e ∈ edges graph → 1 ≤ action e < C;
  ok_simple : ∀ e1 e2, e1 ∈ edges graph → e2 ∈ edges graph →
    src e1 = src e2 → dst e1 = dst e2 → e1 = e2
}.

(** "Exactly one edge per (node, action) pair." *)
Definition one_edge_per_action (graph : DiGraph) : Prop :=
  ∀ e1 e2, e1 ∈ edges graph → e2 ∈ edges graph →
    src e1 = src e2 → action e1 = action e2 → e1 = e2.

(** [reverse_graph] has the nodes of [graph] and its edges, flipped. *)
Definition mirrors (reverse_graph graph : DiGraph) : Prop :=
  number_of_nodes reverse_graph = number_of_nodes graph ∧
  ∀ u v, (∃ e', e' ∈ edges reverse_graph ∧ src e' = u ∧ dst e' = v) ↔
         (∃ e, e ∈ edges graph ∧ src e = v ∧ dst e = u).

(** The cells safely reachable from the seeds, and those from which a
    seed is safely reachable. *)
Definition reach_cells (env : Np.ndarray) (graph : DiGraph) (seeds : list nat) :
    nat → nat → Prop :=
  closure (succ_list env graph) seeds.

Definition return_cells (env : Np.ndarray) (graph reverse_graph : DiGraph)
    (seeds : list nat) : nat → nat → Prop :=
  closure (pred_list env graph reverse_graph) seeds.

Definition seeds_in (N : nat) (seeds : list nat) : Prop := Forall (λ n, n < N) seeds.

(** The state of an object between calls: the arrays have the shape
    [(num_nodes, C)], the graph fits them, the reverse graph mirrors the
    graph, and there is a seed. *)
Record mdp_ok {F} (s : SafeMDP.self F) : Prop := mkMdpOk {
  mdp_graph : graph_ok (Np.ncols (SafeMDP.reach s)) (SafeMDP.graph s);
  mdp_reverse : mirrors (SafeMDP.graph_reverse s) (SafeMDP.graph s);
  mdp_columns : 0 < Np.ncols (SafeMDP.reach s);
  mdp_reach_valid : Np.valid (SafeMDP.reach s);
  mdp_reach_rows : Np.nrows (SafeMDP.reach s) = number_of_nodes (SafeMDP.graph s);
  mdp_S_hat_valid : Np.valid (SafeMDP.S_hat s);
  mdp_S_hat_shape : Np.same_shape (SafeMDP.S_hat s) (SafeMDP.reach s);
  mdp_seeds : seeds_in (number_of_nodes (SafeMDP.graph s)) (SafeMDP.initial_nodes s);
  mdp_seeded : SafeMDP.initial_nodes s ≠ []
}.

(** An outcome other than the empty-seed error. *)
Definition quiet (r : res unit) : Prop := r ≠ Raise AttributeError.

(** ** Relabelling an edge *)

Definition set_safe (u v : nat) (b : SafeAttr) (e : Edge) : Edge :=
  if decide (src e = u ∧ dst e = v) then mkEdge (src e) (dst e) (action e) b else e.

(** Modelled from the spec: relabelling an edge ([set_edge_safety] of
    §4.1) is done by the caller, who assigns [graph[u][v]['safe']]; the
    source has no function for it.  Only the label of the edge [u → v]
    changes. *)
Definition set_edge_safe (u v : nat) (b : SafeAttr) (graph : DiGraph) : DiGraph :=
  mkGraph (number_of_nodes graph) (set_safe u v b <$> edges graph).

Definition set_graph {F} (g : DiGraph) (s : SafeMDP.self F) : SafeMDP.self F :=
  SafeMDP.mk (SafeMDP.beta s) (SafeMDP.h s) (SafeMDP.L s) (SafeMDP.gp s) g
    (SafeMDP.graph_reverse s) (SafeMDP.reach s) (SafeMDP.G s) (SafeMDP.S_hat s)
    (SafeMDP.S_hat0 s) (SafeMDP.initial_nodes s).

(** [self.graph[u][v]['safe'] = b] *)
Definition relabel {F} (u v : nat) (b : SafeAttr) (s : SafeMDP.self F) : SafeMDP.self F :=
  set_graph (set_edge_safe u v b (SafeMDP.graph s)) s.

(** Nodes connected to a seed by safe arcs. *)
Inductive conn (arcl : nat → list arc) (seeds : list nat) : nat → Prop :=
  | conn_seed n : n ∈ seeds → conn arcl seeds n
  | conn_step n r c t :
      conn arcl seeds n → Arc r c true t ∈ arcl n → conn arcl seeds t.

(** ** The graphs of the scenarios *)

(** The line graph [0 → 1 → 2], action 1 on each edge, both edges safe. *)
Definition line_graph : DiGraph :=
  mkGraph 3 [mkEdge 0 1 1 (SafeBool true); mkEdge 1 2 1 (SafeBool true)].

(** A [3 × 2] safe set whose column 0 is the seed set [{0}]; the action
    column is arbitrary. *)
Definition seed0 (b0 b1 b2 : bool) : Np.ndarray :=
  Np.mk 3 2 [true; b0; false; b1; false; b2].

(** No array is linked to the graph of the scenarios. *)
Definition no_env : Np.ndarray := Np.zeros 0 0.

(** The object of scenario A, as [__init__] builds it from memory that
    happens to hold ones. *)
Definition scenario_mdp : SafeMDP.self nat :=
  SafeMDP.mk 2 0 0 (mkGP (mkMatrix 0 []) (mkMatrix 0 [])) line_graph (DiGraph_reverse no_env line_graph)
    (Np.empty 3 2 (λ _, true)) (Np.empty 3 2 (λ _, true))
    (seed0 false false false) (seed0 false false false) [0].

(** The graph with the two edges [1 → 0] and [2 → 0], both safe, both
    under action 1. *)
Definition fan_in : DiGraph :=
  mkGraph 3 [mkEdge 1 0 1 (SafeBool true); mkEdge 2 0 1 (SafeBool true)].

Ltac each_edge :=
  repeat match goal with
         | H : _ ∈ [] |- _ => by apply elem_of_nil in H
         | H : _ ∈ _ :: _ |- _ => apply elem_of_cons in H as [->|H]
         end.

(** ** Notions for the further properties *)

(** [v'] has the shape of [v] and every true cell of [v]. *)
Definition grows (v v' : Np.ndarray) : Prop :=
  Np.nrows v' = Np.nrows v ∧ Np.ncols v' = Np.ncols v ∧
  length (Np.data v') = length (Np.data v) ∧
  ∀ i j, Np.getitem v i j = Some true → Np.getitem v' i j = Some true.

(** [safe_path env graph u w]: there is a path [u → ... → w] in [graph],
    possibly empty, all of whose edges have a true ['safe']. *)
Inductive safe_path (env : Np.ndarray) (graph : DiGraph) : nat → nat → Prop :=
  | safe_path_here n : safe_path env graph n n
  | safe_path_edge u e :
      safe_path env graph u (src e) → e ∈ edges graph →
      truth env (safe e) = true → safe_path env graph u (dst e).

(** Some seed has a safe path to [n]; [n] has a safe path to some seed. *)
Definition from_seed (env : Np.ndarray) (graph : DiGraph) (seeds : list nat) (n : nat) : Prop :=
  ∃ s, s ∈ seeds ∧ safe_path env graph s n.

Definition to_seed (env : Np.ndarray) (graph : DiGraph) (seeds : list nat) (n : nat) : Prop :=
  ∃ s, s ∈ seeds ∧ safe_path env graph n s.

(** The edge [e] once linked: its ['safe'] is the view of the linked array
    at [(src e, action e)]. *)
Definition linked_edge (e : Edge) : Edge :=
  mkEdge (src e) (dst e) (action e) (SafeView (src e) (action e)).

(** ** Further graphs and objects *)

(** The object [__init__] builds on a graph of three nodes from the seed
    set [{0}], on memory that happens to hold ones. *)
Definition mdp_on (graph : DiGraph) : SafeMDP.self nat :=
  SafeMDP.mk 2 0 0 (mkGP (mkMatrix 0 []) (mkMatrix 0 [])) graph
    (DiGraph_reverse no_env graph)
    (Np.empty 3 2 (λ _, true)) (Np.empty 3 2 (λ _, true))
    (seed0 false false false) (seed0 false false false) [0].

(** The line graph [0 → 1 → 2] with its first edge unsafe. *)
Definition blocked_line : DiGraph :=
  mkGraph 3 [mkEdge 0 1 1 (SafeBool false); mkEdge 1 2 1 (SafeBool true)].

(** Node 0 has two edges under action 1, to node 1 (unsafe) and to node 2
    (safe); node 2 has a safe edge back to node 0. *)
Definition twin_action : DiGraph :=
  mkGraph 3 [mkEdge 0 1 1 (SafeBool false); mkEdge 0 2 1 (SafeBool true);
             mkEdge 2 0 1 (SafeBool true)].

(** The line graph after [link_graph_and_safe_set]. *)
Definition linked_line : DiGraph :=
  mkGraph 3 [mkEdge 0 1 1 (SafeView 0 1); mkEdge 1 2 1 (SafeView 1 1)].

(** * Properties *)

(** ** Array facts *)

Lemma offset_inj (c i j i' j' : nat) :
  j < c → j' < c → i * c + j = i' * c + j' → i = i' ∧ j = j'.
Proof.
  intros Hj Hj' Heq.
  assert (i = i') as ->; [|lia].
  destruct (Nat.lt_trichotomy i i') as [Hlt|[?|Hlt]]; [|done|]; exfalso.
  - assert ((i + 1) * c ≤ i' * c) by (apply Nat.mul_le_mono_r; lia). nia.
  - assert ((i' + 1) * c ≤ i * c) by (apply Nat.mul_le_mono_r; lia). nia.
Qed.

Lemma getitem_Some_range m i j b :
  Np.getitem m i j = Some b → i < Np.nrows m ∧ j < Np.ncols m.
Proof. unfold Np.getitem. case_decide; [done | discriminate]. Qed.

Lemma getitem_valid m i j :
  Np.valid m → i < Np.nrows m → j < Np.ncols m → is_Some (Np.getitem m i j).
Proof.
  unfold Np.valid, Np.getitem. intros Hv Hi Hj.
  destruct (decide (i < Np.nrows m ∧ j < Np.ncols m)) as [_|?]; [|tauto].
  apply lookup_lt_is_Some. nia.
Qed.

Lemma setitem_Some_inv m i j b m' :
  Np.setitem m i j b = Some m' →
  is_Some (Np.getitem m i j) ∧
  m' = Np.mk (Np.nrows m) (Np.ncols m) (<[i * Np.ncols m + j := b]> (Np.data m)).
Proof.
  unfold Np.setitem. destruct (Np.getitem m i j) eqn:E; [|discriminate].
  intros [= <-]. eauto.
Qed.

Lemma setitem_is_Some m i j b :
  is_Some (Np.getitem m i j) → is_Some (Np.setitem m i j b).
Proof. unfold Np.setitem. intros [x ->]. eauto. Qed.

Lemma setitem_shape m i j b m' :
  Np.setitem m i j b = Some m' → Np.nrows m' = Np.nrows m ∧ Np.ncols m' = Np.ncols m.
Proof. intros [_ ->]%setitem_Some_inv. done. Qed.

Lemma setitem_valid m i j b m' :
  Np.setitem m i j b = Some m' → Np.valid m → Np.valid m'.
Proof.
  intros [_ ->]%setitem_Some_inv. unfold Np.valid. simpl.
  by rewrite length_insert.
Qed.

Lemma getitem_setitem m i j b m' i' j' :
  Np.setitem m i j b = Some m' →
  Np.getitem m' i' j' =
    if decide (i' = i ∧ j' = j) then Some b else Np.getitem m i' j'.
Proof.
  intros [[x Hx] ->]%setitem_Some_inv.
  pose proof (getitem_Some_range _ _ _ _ Hx) as [Hi Hj].
  unfold Np.getitem in Hx.
  destruct (decide (i < Np.nrows m ∧ j < Np.ncols m)) as [_|?]; [|tauto].
  unfold Np.getitem. simpl.
  destruct (decide (i' = i ∧ j' = j)) as [[-> ->]|Hij].
  - destruct (decide (i < Np.nrows m ∧ j < Np.ncols m)) as [_|?]; [|tauto].
    apply list_lookup_insert_eq. by eapply lookup_lt_Some.
  - destruct (decide (i' < Np.nrows m ∧ j' < Np.ncols m)) as [[? ?]|?]; [|done].
    apply list_lookup_insert_ne. intros Heq.
    destruct (offset_inj (Np.ncols m) i j i' j'); [lia..|]. subst. tauto.
Qed.

Lemma getitem_setitem_eq m i j b m' :
  Np.setitem m i j b = Some m' → Np.getitem m' i j = Some b.
Proof.
  intros H. rewrite (getitem_setitem _ _ _ _ _ _ _ H).
  by destruct (decide (i = i ∧ j = j)) as [_|[]].
Qed.

Lemma getitem_setitem_mono m i j m' i' j' :
  Np.setitem m i j true = Some m' →
  Np.getitem m i' j' = Some true → Np.getitem m' i' j' = Some true.
Proof.
  intros H Hg. rewrite (getitem_setitem _ _ _ _ _ _ _ H). by case_decide.
Qed.

Lemma getitem_fill b m i j :
  Np.valid m → i < Np.nrows m → j < Np.ncols m →
  Np.getitem (Np.fill b m) i j = Some b.
Proof.
  unfold Np.valid, Np.getitem, Np.fill. simpl. intros Hv Hi Hj.
  destruct (decide (i < Np.nrows m ∧ j < Np.ncols m)) as [_|?]; [|tauto].
  apply lookup_replicate_2. nia.
Qed.

Lemma getitem_fill_inv b m i j x :
  Np.getitem (Np.fill b m) i j = Some x → x = b.
Proof.
  unfold Np.getitem, Np.fill. simpl. case_decide; [|done].
  by intros [-> _]%lookup_replicate.
Qed.

Lemma fill_valid b m : Np.valid m → Np.valid (Np.fill b m).
Proof. unfold Np.valid, Np.fill. simpl. by rewrite length_replicate. Qed.

Lemma zeros_valid r c : Np.valid (Np.zeros r c).
Proof. unfold Np.valid, Np.zeros. simpl. by rewrite length_replicate. Qed.

Lemma getitem_zeros_inv r c i j x : Np.getitem (Np.zeros r c) i j = Some x → x = false.
Proof.
  unfold Np.getitem, Np.zeros. simpl. case_decide; [|done].
  by intros [-> _]%lookup_replicate.
Qed.

Lemma empty_valid r c mem : Np.valid (Np.empty r c mem).
Proof. unfold Np.valid, Np.empty. simpl. by rewrite length_fmap, length_seq. Qed.

Lemma getitem_iand a b m i j :
  Np.iand a b = Some m →
  Np.getitem m i j = Some true →
  Np.getitem a i j = Some true ∧ Np.getitem b i j = Some true.
Proof.
  unfold Np.iand. case_decide as Hs; [|done]. intros [= <-].
  destruct Hs as [Hr Hc]. unfold Np.getitem. simpl.
  rewrite <- Hr, <- Hc. case_decide; [|done].
  rewrite lookup_zip_with.
  destruct (Np.data a !! _) as [[]|], (Np.data b !! _) as [[]|]; simpl; by intros.
Qed.

Lemma setitem_commute v i j i' j' v1 v2 :
  (i, j) ≠ (i', j') →
  Np.setitem v i j true = Some v1 →
  Np.setitem v1 i' j' true = Some v2 →
  ∃ va, Np.setitem v i' j' true = Some va ∧ Np.setitem va i j true = Some v2.
Proof.
  intros Hne H1 H2.
  pose proof (setitem_Some_inv _ _ _ _ _ H1) as [[x Hx] E1].
  pose proof (setitem_Some_inv _ _ _ _ _ H2) as [[y Hy] E2].
  assert (Np.getitem v i' j' = Some y) as Hy'.
  { rewrite (getitem_setitem _ _ _ _ _ i' j' H1) in Hy.
    destruct (decide (i' = i ∧ j' = j)) as [[-> ->]|]; [done|]. done. }
  destruct (setitem_is_Some v i' j' true) as [va Hva]; [by rewrite Hy'|].
  exists va. split; [done|].
  pose proof (setitem_Some_inv _ _ _ _ _ Hva) as [_ Ea].
  assert (Np.getitem va i j = Some x) as Hxa.
  { rewrite (getitem_setitem _ _ _ _ _ i j Hva).
    destruct (decide (i = i' ∧ j = j')) as [[-> ->]|]; [done|]. done. }
  unfold Np.setitem. rewrite Hxa. f_equal.
  rewrite E2, E1, Ea. simpl. f_equal.
  apply list_insert_insert_ne. intros Heq.
  apply getitem_Some_range in Hx as [? ?].
  apply getitem_Some_range in Hy' as [? ?].
  destruct (offset_inj (Np.ncols v) i' j' i j); [lia..|]. by subst.
Qed.

(** ** The two loop bodies are sweeps over arcs *)

Lemma for_each_ext {St X} (l : list X) (f g : X → M St unit) s :
  (∀ x s, x ∈ l → f x s = g x s) → for_each l f s = for_each l g s.
Proof.
  revert s. induction l as [|x l IH]; intros s Hfg; [done|].
  simpl. unfold mbind, M_bind. rewrite Hfg by left.
  destruct (g x s) as [s' [[]| |]]; [|done..].
  apply IH. intros. apply Hfg. by right.
Qed.

Lemma for_each_fmap {St X Y} (f : X → Y) (l : list X) (body : Y → M St unit) s :
  for_each (f <$> l) body s = for_each l (λ x, body (f x)) s.
Proof.
  revert s. induction l as [|x l IH]; intros s; [done|].
  simpl. unfold mbind, M_bind.
  destruct (body (f x) s) as [s' [[]| |]]; [|done..]. apply IH.
Qed.

Lemma while_stack_ext fuel (f g : nat → M bfs unit) s :
  (∀ n s, f n s = g n s) → while_stack fuel f s = while_stack fuel g s.
Proof.
  intros Hfg. revert s. induction fuel as [|fuel IH]; intros s; simpl.
  - done.
  - destruct (stack s) as [|node rest]; [done|].
    rewrite Hfg. destruct (g node _) as [s' [[]| |]]; [|done..]. apply IH.
Qed.

Lemma reachable_step_sweep env graph node s :
  reachable_step env graph node s = sweep (succ_arcs env graph) node s.
Proof.
  unfold reachable_step, sweep, succ_arcs, succ_list, edges_from, lift, mbind, M_bind.
  case_decide; [|done]. rewrite for_each_fmap.
  apply for_each_ext. intros e s' [<- _]%list_elem_of_filter. done.
Qed.

Lemma returnable_step_sweep env graph reverse_graph node s :
  returnable_step env graph reverse_graph node s
  = sweep (pred_arcs env graph reverse_graph) node s.
Proof.
  unfold returnable_step, sweep, pred_arcs, pred_list, edges_from, lift, mbind, M_bind.
  case_decide; [|done]. rewrite !for_each_fmap.
  apply for_each_ext. intros e' s' _.
  unfold visit_predecessor, pred_arc.
  by destruct (get_edge_data graph (dst e') node).
Qed.

Lemma touch_cases a s : touch_spec s a (touch a s).
Proof.
  destruct a as [|r c sf t]; [constructor|].
  unfold touch, read, mark, append, mbind, M_bind, mret, M_ret. simpl.
  destruct (Np.getitem (visited s) r c) as [[]|] eqn:Hrc; simpl;
    [by constructor| |by constructor].
  destruct sf; simpl; [|by constructor].
  destruct (setitem_is_Some (visited s) r c true) as [v1 Hv1]; [by rewrite Hrc|].
  rewrite Hv1. simpl.
  destruct (Np.getitem v1 t 0) as [[]|] eqn:Ht; simpl;
    [by econstructor| |by econstructor].
  destruct (setitem_is_Some v1 t 0 true) as [v2 Hv2]; [by rewrite Ht|].
  rewrite Hv2. by econstructor.
Qed.

(** ** Proof rules for the two loops *)

Lemma for_each_rule {St X} (I : list X → St → Prop) (Q : St * res unit → Prop)
    (body : X → M St unit) (l : list X) :
  (∀ done x todo s, l = done ++ x :: todo → I done s →
     match body x s with
     | (s', Ret _) => I (done ++ [x]) s'
     | sr => Q sr
     end) →
  (∀ s, I l s → Q (s, Ret tt)) →
  ∀ s, I [] s → Q (for_each l body s).
Proof.
  intros Hstep Hend.
  assert (∀ todo done s, l = done ++ todo → I done s → Q (for_each todo body s))
    as Hgen; [|intros s Hs; by apply (Hgen l [])].
  induction todo as [|x todo IH]; intros done s Hl HI.
  - rewrite app_nil_r in Hl. subst. by apply Hend.
  - simpl. unfold mbind, M_bind.
    specialize (Hstep done x todo s Hl HI).
    destruct (body x s) as [s' [[]| |]]; [|done..].
    apply (IH (done ++ [x])); [|done]. by rewrite <- app_assoc.
Qed.

Lemma while_stack_rule (I : bfs → Prop) (Q : bfs * res unit → Prop)
    (body : nat → M bfs unit) :
  (∀ s node rest, I s → stack s = node :: rest →
     match body node (mkBfs (visited s) rest (trace s)) with
     | (s', Ret _) => I s'
     | sr => Q sr
     end) →
  (∀ s, I s → stack s = [] → Q (s, Ret tt)) →
  (∀ s, I s → Q (s, Diverge)) →
  ∀ fuel s, I s → Q (while_stack fuel body s).
Proof.
  intros Hstep Hend Hdiv.
  induction fuel as [|fuel IH]; intros s HI; simpl.
  - destruct (stack s) eqn:E; [by apply Hend | by apply Hdiv].
  - destruct (stack s) as [|node rest] eqn:E; [by apply Hend|].
    specialize (Hstep s node rest HI E).
    destruct (body node _) as [s' [[]| |]]; [by apply IH|done..].
Qed.

(** ** Termination *)

Lemma filter_length_le {A} (P Q : A → Prop) `{!∀ x, Decision (P x)}
    `{!∀ x, Decision (Q x)} (l : list A) :
  (∀ x, x ∈ l → Q x → P x) → length (filter Q l) ≤ length (filter P l).
Proof.
  induction l as [|a l IH]; intros Himp; [done|].
  rewrite !filter_cons.
  assert (length (filter Q l) ≤ length (filter P l))
    by (apply IH; intros; apply Himp; [by right|done]).
  destruct (decide (Q a)) as [Hq|], (decide (P a)) as [|Hp]; simpl; try lia.
  destruct Hp. apply Himp; [by left|done].
Qed.

Lemma filter_length_lt {A} (P Q : A → Prop) `{!∀ x, Decision (P x)}
    `{!∀ x, Decision (Q x)} (l : list A) (x : A) :
  x ∈ l → P x → ¬ Q x → (∀ y, y ∈ l → Q y → P y) →
  length (filter Q l) < length (filter P l).
Proof.
  induction l as [|a l IH]; intros Hin HP HQ Himp; [by apply elem_of_nil in Hin|].
  rewrite !filter_cons.
  assert (length (filter Q l) ≤ length (filter P l))
    by (apply filter_length_le; intros; apply Himp; [by right|done]).
  apply elem_of_cons in Hin as [<-|Hin].
  - rewrite decide_False, decide_True by done. simpl. lia.
  - assert (length (filter Q l) < length (filter P l))
      by (apply IH; [done..|]; intros; apply Himp; [by right|done]).
    destruct (decide (Q a)), (decide (P a)) as [|Hp]; simpl; try lia.
    destruct Hp. apply Himp; [by left|done].
Qed.

Lemma unmarked_le_nrows v : unmarked v ≤ Np.nrows v.
Proof.
  unfold unmarked.
  etransitivity; [apply length_filter|]. by rewrite length_seq.
Qed.

Lemma unmarked_setitem v i j v' :
  Np.setitem v i j true = Some v' → unmarked v' ≤ unmarked v.
Proof.
  intros H. unfold unmarked.
  destruct (setitem_shape _ _ _ _ _ H) as [-> _].
  apply filter_length_le. intros x _.
  rewrite (getitem_setitem _ _ _ _ _ _ _ H). by case_decide.
Qed.

Lemma unmarked_setitem_lt v i v' :
  Np.getitem v i 0 = Some false →
  Np.setitem v i 0 true = Some v' → unmarked v' < unmarked v.
Proof.
  intros Hg H. unfold unmarked.
  destruct (setitem_shape _ _ _ _ _ H) as [-> _].
  apply (filter_length_lt _ _ _ i).
  - apply elem_of_seq. apply getitem_Some_range in Hg. lia.
  - done.
  - by rewrite (getitem_setitem_eq _ _ _ _ _ H).
  - intros x _. rewrite (getitem_setitem _ _ _ _ _ _ _ H). by case_decide.
Qed.

Lemma touch_no_diverge a s : (touch a s).2 ≠ Diverge.
Proof. by destruct (touch_cases a s). Qed.

Lemma touch_measure a s : measure (touch a s).1 ≤ measure s.
Proof.
  destruct (touch_cases a s) as
    [| | | |r c t v1 _ H1 _|r c t v1 _ H1 _|r c t v1 v2 _ H1 Ht H2];
    unfold measure; simpl; try lia.
  - apply unmarked_setitem in H1. lia.
  - apply unmarked_setitem in H1. lia.
  - apply unmarked_setitem in H1. apply unmarked_setitem_lt in H2; [|done].
    rewrite length_app. simpl. lia.
Qed.

Lemma for_each_touch_measure l s :
  (for_each l touch s).2 ≠ Diverge ∧ measure (for_each l touch s).1 ≤ measure s.
Proof.
  revert s. induction l as [|a l IH]; intros s; [done|].
  simpl. unfold mbind, M_bind.
  pose proof (touch_no_diverge a s). pose proof (touch_measure a s).
  destruct (touch a s) as [s' [[]| |]]; simpl in *; [|done..].
  destruct (IH s'). split; [done|lia].
Qed.

Lemma sweep_measure arcs node s :
  (∀ n, arcs n ≠ Diverge) →
  (sweep arcs node s).2 ≠ Diverge ∧ measure (sweep arcs node s).1 ≤ measure s.
Proof.
  intros Harcs. unfold sweep, lift, mbind, M_bind.
  specialize (Harcs node). destruct (arcs node); [|done..].
  apply for_each_touch_measure.
Qed.

Lemma while_stack_terminates body fuel s :
  (∀ n s, (body n s).2 ≠ Diverge ∧ measure (body n s).1 ≤ measure s) →
  measure s ≤ fuel → (while_stack fuel body s).2 ≠ Diverge.
Proof.
  intros Hbody. revert s. induction fuel as [|fuel IH]; intros s Hm; simpl.
  - destruct (stack s) eqn:E; [done|]. unfold measure in Hm. rewrite E in Hm.
    simpl in Hm. lia.
  - destruct (stack s) as [|node rest] eqn:E; [done|].
    destruct (Hbody node (mkBfs (visited s) rest (trace s))) as [Hd Hle].
    destruct (body node _) as [s' [[]| |]]; simpl in *; [|done..].
    apply IH. unfold measure in *. rewrite E in Hm. simpl in *. lia.
Qed.

Lemma run_queue_terminates arcs s :
  (∀ n, arcs n ≠ Diverge) → (run_queue (sweep arcs) s).2 ≠ Diverge.
Proof.
  intros Harcs. unfold run_queue. apply while_stack_terminates.
  - intros. by apply sweep_measure.
  - unfold measure, budget. pose proof (unmarked_le_nrows (visited s)). lia.
Qed.

(** ** Every cell is written once, every node enqueued once *)

Lemma once_mark s i j v :
  once s → Np.getitem (visited s) i j = Some false →
  Np.setitem (visited s) i j true = Some v →
  once (mkBfs v (stack s) (Mark i j :: trace s)).
Proof.
  intros [Hm Hp Hmd Hpd] Hg Hv. split; simpl.
  - apply NoDup_cons. split; [|done].
    intros Hin. apply Hmd in Hin. congruence.
  - done.
  - intros i' j' [[= -> ->]|Hin]%elem_of_cons.
    + by eapply getitem_setitem_eq.
    + eapply getitem_setitem_mono; eauto.
  - intros n Hin. eapply getitem_setitem_mono; eauto.
Qed.

Lemma once_push_mark s t v :
  once s → Np.getitem (visited s) t 0 = Some false →
  Np.setitem (visited s) t 0 true = Some v →
  once (mkBfs v (stack s ++ [t]) (Mark t 0 :: Push t :: trace s)).
Proof.
  intros [Hm Hp Hmd Hpd] Hg Hv. split; simpl.
  - apply NoDup_cons. split; [|done].
    intros Hin. apply Hmd in Hin. congruence.
  - apply NoDup_cons. split; [|done].
    intros Hin. apply Hpd in Hin. congruence.
  - intros i' j' [[= -> ->]|Hin]%elem_of_cons.
    + by eapply getitem_setitem_eq.
    + eapply getitem_setitem_mono; eauto.
  - intros n [->|Hin]%elem_of_cons.
    + by eapply getitem_setitem_eq.
    + eapply getitem_setitem_mono; eauto.
Qed.

Lemma once_pop s rest :
  once s → once (mkBfs (visited s) rest (trace s)).
Proof. by intros []. Qed.

Lemma touch_once a s : once s → once (touch a s).1.
Proof.
  intros Hs.
  destruct (touch_cases a s) as
    [| | | |r c t v1 Hg H1 _|r c t v1 Hg H1 _|r c t v1 v2 Hg H1 Ht H2];
    simpl; try done.
  - by apply once_mark.
  - by apply once_mark.
  - apply (once_push_mark (mkBfs v1 (stack s) (Mark r c :: trace s))); [|done..].
    by apply once_mark.
Qed.

Lemma for_each_touch_once l s : once s → once (for_each l touch s).1.
Proof.
  apply (for_each_rule (λ _, once) (λ sr, once sr.1)); [|done].
  intros _ a _ s' _ Hs'. pose proof (touch_once a s' Hs').
  by destruct (touch a s') as [? [[]| |]].
Qed.

Lemma sweep_once arcs node s : once s → once (sweep arcs node s).1.
Proof.
  intros Hs. unfold sweep, lift, mbind, M_bind.
  destruct (arcs node); [|done..]. by apply for_each_touch_once.
Qed.

Lemma run_queue_once arcs s : once s → once (run_queue (sweep arcs) s).1.
Proof.
  unfold run_queue.
  apply (while_stack_rule once (λ sr, once sr.1)); [|done..].
  intros s' node rest Hs' _.
  pose proof (sweep_once arcs node _ (once_pop s' rest Hs')).
  by destruct (sweep arcs node _) as [? [[]| |]].
Qed.

Lemma run_queue_empties body s :
  (run_queue body s).2 = Ret tt → stack (run_queue body s).1 = [].
Proof.
  unfold run_queue.
  apply (while_stack_rule (λ _, True) (λ sr, sr.2 = Ret tt → stack sr.1 = []));
    [|done..].
  intros s' node rest _ _. by destruct (body node _) as [? [[]| |]].
Qed.

Lemma pushes_Push l : pushes (Push <$> l) = l.
Proof. induction l as [|x l IH]; [done|]. simpl. f_equal. apply IH. Qed.

Lemma marks_Push l : marks (Push <$> l) = [].
Proof. induction l as [|x l IH]; [done|]. simpl. apply IH. Qed.

(** The state after [visited[initial_nodes, 0] = True; stack = list(initial_nodes)]. *)
Lemma for_each_mark_once rows j s :
  NoDup rows → once s → marks (trace s) = [] → pushes (trace s) = [] →
  let sr := for_each rows (λ i, mark i j) s in
  once sr.1 ∧ pushes (trace sr.1) = [] ∧
  (sr.2 = Ret tt → ∀ i, i ∈ rows → Np.getitem (visited sr.1) i j = Some true).
Proof.
  intros Hnd Hs Hm0 Hp0.
  apply (for_each_rule
    (λ done s, once s ∧ pushes (trace s) = [] ∧
               (∀ p, p ∈ marks (trace s) → ∃ i, i ∈ done ∧ p = (i, j)) ∧
               (∀ i, i ∈ done → Np.getitem (visited s) i j = Some true))
    (λ sr, once sr.1 ∧ pushes (trace sr.1) = [] ∧
           (sr.2 = Ret tt → ∀ i, i ∈ rows → Np.getitem (visited sr.1) i j = Some true))).
  - intros done x todo s' Hl (Ho & Hp & Hsub & Htrue).
    unfold mark. destruct (Np.setitem (visited s') x j true) as [v|] eqn:Hv; [|done].
    assert (x ∉ done) as Hx.
    { subst rows. apply NoDup_app in Hnd as (_ & Hnd & _).
      intros Hin. apply (Hnd x Hin). by left. }
    destruct Ho as [Hm1 Hp1 Hmd Hpd].
    split_and!; simpl.
    + split; simpl.
      * apply NoDup_cons. split; [|done].
        intros Hin. apply Hsub in Hin as (i & Hi & Heq).
        by simplify_eq.
      * done.
      * intros i' j' [[= -> ->]|Hin]%elem_of_cons.
        -- by eapply getitem_setitem_eq.
        -- eapply getitem_setitem_mono; eauto.
      * intros n Hin. eapply getitem_setitem_mono; eauto.
    + done.
    + intros p [->|Hin]%elem_of_cons.
      * exists x. split; [|done]. apply elem_of_app. right. by left.
      * destruct (Hsub p Hin) as (i & Hi & ->). exists i. split; [|done].
        apply elem_of_app. by left.
    + intros i [Hi|Hi]%elem_of_app.
      * eapply getitem_setitem_mono; eauto.
      * apply list_elem_of_singleton in Hi as ->. by eapply getitem_setitem_eq.
  - intros s' (Ho & Hp & _ & Htrue). done.
  - split_and!; [done..| |by intros ? ?%elem_of_nil].
    intros p. rewrite Hm0. by intros ?%elem_of_nil.
Qed.

Lemma seed_once rows s :
  NoDup rows → once s → marks (trace s) = [] → pushes (trace s) = [] →
  once ((mark_rows rows 0;; init_stack rows) s).1.
Proof.
  intros Hnd Hs Hm0 Hp0. unfold mbind, M_bind, mark_rows.
  case_decide; [|done].
  destruct (for_each_mark_once rows 0 s Hnd Hs Hm0 Hp0) as (Ho & Hp & Htrue).
  destruct (for_each rows _ s) as [s' [[]| |]]; simpl in *; [|done..].
  destruct Ho as [Hm1 Hp1 Hmd Hpd].
  assert (pushes ((Push <$> reverse rows) ++ trace s') = reverse rows) as Hpush.
  { transitivity (pushes (Push <$> reverse rows) ++ pushes (trace s')).
    - apply omap_app.
    - by rewrite Hp, app_nil_r, pushes_Push. }
  assert (marks ((Push <$> reverse rows) ++ trace s') = marks (trace s')) as Hmark.
  { transitivity (marks (Push <$> reverse rows) ++ marks (trace s')).
    - apply omap_app.
    - by rewrite marks_Push. }
  split; simpl.
  - by rewrite Hmark.
  - rewrite Hpush. by rewrite reverse_Permutation.
  - rewrite Hmark. done.
  - rewrite Hpush. intros n Hn. rewrite elem_of_reverse in Hn. by apply Htrue.
Qed.

(** ** The generic traversal and the two instances *)

Lemma run_queue_ext f g s :
  (∀ n s, f n s = g n s) → run_queue f s = run_queue g s.
Proof. intros. unfold run_queue. by apply while_stack_ext. Qed.

Lemma reachable_body_traverse env graph rows s :
  reachable_body env graph rows s = traverse (succ_arcs env graph) rows s.
Proof.
  unfold reachable_body, traverse, mbind, M_bind.
  destruct (mark_rows rows 0 s) as [s1 [[]| |]]; [|done..].
  destruct (init_stack rows s1) as [s2 [[]| |]]; [|done..].
  apply run_queue_ext. intros. apply reachable_step_sweep.
Qed.

Lemma returnable_body_traverse env graph reverse_graph rows s :
  returnable_body env graph reverse_graph rows s
  = traverse (pred_arcs env graph reverse_graph) rows s.
Proof.
  unfold returnable_body, traverse, mbind, M_bind.
  destruct (mark_rows rows 0 s) as [s1 [[]| |]]; [|done..].
  destruct (init_stack rows s1) as [s2 [[]| |]]; [|done..].
  apply run_queue_ext. intros. apply returnable_step_sweep.
Qed.

Lemma succ_arcs_no_diverge env graph n : succ_arcs env graph n ≠ Diverge.
Proof. unfold succ_arcs. by case_decide. Qed.

Lemma pred_arcs_no_diverge env graph reverse_graph n :
  pred_arcs env graph reverse_graph n ≠ Diverge.
Proof. unfold pred_arcs. by case_decide. Qed.

Lemma for_each_mark_no_diverge rows j s :
  (for_each rows (λ i, mark i j) s).2 ≠ Diverge.
Proof.
  revert s. induction rows as [|i rows IH]; intros s; [done|].
  simpl. unfold mbind, M_bind, mark at 1.
  destruct (Np.setitem (visited s) i j true); [apply IH|done].
Qed.

Lemma traverse_once arcs rows out :
  (∀ n, arcs n ≠ Diverge) → NoDup rows →
  let sr := traverse arcs rows (mkBfs out [] []) in
  sr.2 ≠ Diverge ∧ once sr.1 ∧ (sr.2 = Ret tt → stack sr.1 = []).
Proof.
  intros Harcs Hnd.
  assert (once (mkBfs out [] [])) as H0.
  { split; simpl; [apply NoDup_nil_2..| |]; by intros; exfalso; eapply elem_of_nil. }
  pose proof (seed_once rows _ Hnd H0 eq_refl eq_refl) as Hseed.
  pose proof (for_each_mark_no_diverge rows 0 (mkBfs out [] [])) as Hnd'.
  unfold traverse, mbind, M_bind in *. unfold mark_rows in *.
  case_decide; [|done].
  destruct (for_each rows _ _) as [s1 [[]| |]]; simpl in *; [|done..].
  split_and!.
  - by apply run_queue_terminates.
  - by apply run_queue_once.
  - apply run_queue_empties.
Qed.

(** C8.  On every graph and every non-empty, duplicate-free seed list, for
    every array [out], both traversals terminate (the loop never exhausts
    its budget of [len(initial_nodes) + num_rows] iterations); no cell of
    [visited] is assigned twice, no node enters the queue twice, and a
    traversal that returns leaves the queue empty. *)
Theorem traversals_terminate env graph reverse_graph initial_nodes out :
  initial_nodes ≠ [] → NoDup initial_nodes →
  (let sr := reachable_set env graph initial_nodes out in
   sr.2 ≠ Diverge ∧
   NoDup (marks (trace sr.1)) ∧ NoDup (pushes (trace sr.1)) ∧
   (sr.2 = Ret tt → stack sr.1 = [])) ∧
  (let sr := returnable_set env graph reverse_graph initial_nodes out in
   sr.2 ≠ Diverge ∧
   NoDup (marks (trace sr.1)) ∧ NoDup (pushes (trace sr.1)) ∧
   (sr.2 = Ret tt → stack sr.1 = [])).
Proof.
  intros Hne Hnd. unfold reachable_set, returnable_set.
  destruct initial_nodes as [|x l]; [done|].
  rewrite reachable_body_traverse, returnable_body_traverse.
  split.
  - destruct (traverse_once (succ_arcs env graph) (x :: l) out) as (? & [] & ?);
      [apply succ_arcs_no_diverge|done|done].
  - destruct (traverse_once (pred_arcs env graph reverse_graph) (x :: l) out)
      as (? & [] & ?); [apply pred_arcs_no_diverge|done|done].
Qed.

(** ** What a traversal computes *)

Section Closure.

Variables (arcl : nat → list arc) (N R C : nat) (seeds : list nat).
Hypothesis arcs_ok : ∀ n, n < N → Forall (arc_ok N R C) (arcl n).
Hypothesis seeds_ok : Forall (λ n, n < N ∧ n < R) seeds.
Hypothesis columns : 0 < C.

Local Abbreviation Cl := (closure arcl seeds).
Local Abbreviation shaped := (shaped R C).
Local Abbreviation linked := (linked arcl N).
Local Abbreviation inner := (inner arcl N R C seeds).
Local Abbreviation outer := (outer arcl N R C seeds).

Lemma shaped_setitem s i j v st tr :
  shaped s → Np.setitem (visited s) i j true = Some v → shaped (mkBfs v st tr).
Proof.
  intros (Hv & Hr & Hc) H. unfold shaped. simpl.
  destruct (setitem_shape _ _ _ _ _ H) as [-> ->].
  split_and!; [by eapply setitem_valid|done..].
Qed.

Lemma shaped_getitem s i j :
  shaped s → i < R → j < C → is_Some (Np.getitem (visited s) i j).
Proof using Type.
  clear. intros (Hv & Hr & Hc) Hi Hj. apply getitem_valid; [done|lia..].
Qed.

Lemma served_mono v v' l :
  (∀ i j, Np.getitem v i j = Some true → Np.getitem v' i j = Some true) →
  served v l → served v' l.
Proof. intros Hm Hs r c t Hin. apply Hm. by eapply Hs. Qed.

Lemma served_snoc v l r c sf t :
  served v l → (sf = true → Np.getitem v r c = Some true) →
  served v (l ++ [Arc r c sf t]).
Proof.
  intros Hs Hx r' c' t' [Hin|Hin]%elem_of_app.
  - by eapply Hs.
  - apply list_elem_of_singleton in Hin. injection Hin as -> -> <- ->. by apply Hx.
Qed.

(** Marking the cell of a safe arc of [cur] whose target is already marked. *)
Lemma inner_mark cur done s r c t v1 tr :
  cur < N → Cl cur 0 → Arc r c true t ∈ arcl cur →
  inner cur done s →
  Np.setitem (visited s) r c true = Some v1 →
  Np.getitem v1 t 0 = Some true →
  inner cur (done ++ [Arc r c true t]) (mkBfs v1 (stack s) tr).
Proof.
  intros Hcur Hcl Hin [Hsh Hq Hsd Hst Hlk Hse Hsee] H1 Ht.
  pose proof (arcs_ok cur Hcur) as Hok.
  rewrite Forall_forall in Hok. specialize (Hok _ Hin). simpl in Hok.
  assert (∀ i j, Np.getitem (visited s) i j = Some true →
                 Np.getitem v1 i j = Some true) as Hmono
    by (intros; by eapply getitem_setitem_mono).
  split; simpl.
  - by eapply shaped_setitem.
  - done.
  - intros i j. rewrite (getitem_setitem _ _ _ _ _ _ _ H1).
    case_decide as Hij; [|by apply Hsd].
    destruct Hij as [-> ->]. intros _. by eapply closure_cell.
  - done.
  - intros Hf n' r' c' t' Hn' Hin'. specialize (Hlk Hf).
    rewrite (getitem_setitem _ _ _ _ _ r' c' H1).
    case_decide as Hij.
    + destruct Hij as [-> ->]. intros _.
      by rewrite <- (Hf cur n' r c t t' Hcur Hn' Hin Hin').
    + intros Hg. apply Hmono. by eapply Hlk.
  - intros Hf n. specialize (Hse Hf). rewrite (getitem_setitem _ _ _ _ _ n 0 H1).
    case_decide as Hij; [lia|].
    intros Hg. destruct (Hse n Hg) as [?|[?|[-> ?]]].
    + by left.
    + right. left. by eapply served_mono.
    + right. right. split; [done|].
      apply served_snoc; [by eapply served_mono|].
      intros _. by eapply getitem_setitem_eq.
  - intros n Hn. apply Hmono. by apply Hsee.
Qed.

(** Marking the target of the arc just marked, and enqueueing it. *)
Lemma inner_push cur done s r c t v2 tr :
  cur < N → Cl cur 0 → Arc r c true t ∈ arcl cur →
  inner cur done s →
  Np.setitem (visited s) t 0 true = Some v2 →
  inner cur done (mkBfs v2 (stack s ++ [t]) tr).
Proof.
  intros Hcur Hcl Hin [Hsh Hq Hsd Hst Hlk Hse Hsee] H2.
  pose proof (arcs_ok cur Hcur) as Hok.
  rewrite Forall_forall in Hok. specialize (Hok _ Hin). simpl in Hok.
  assert (∀ i j, Np.getitem (visited s) i j = Some true →
                 Np.getitem v2 i j = Some true) as Hmono
    by (intros; by eapply getitem_setitem_mono).
  split; simpl.
  - by eapply shaped_setitem.
  - apply Forall_app. split; [done|]. apply Forall_singleton. lia.
  - intros i j. rewrite (getitem_setitem _ _ _ _ _ _ _ H2).
    case_decide as Hij; [|by apply Hsd].
    destruct Hij as [-> ->]. intros _. by eapply closure_target.
  - intros n [?|Hn]%elem_of_app; [by apply Hst|].
    apply list_elem_of_singleton in Hn as ->. by eapply closure_target.
  - intros Hf n' r' c' t' Hn' Hin'. specialize (Hlk Hf).
    pose proof (arcs_ok n' Hn') as Hok'.
    rewrite Forall_forall in Hok'. specialize (Hok' _ Hin'). simpl in Hok'.
    rewrite (getitem_setitem _ _ _ _ _ r' c' H2).
    case_decide as Hij; [lia|].
    intros Hg. apply Hmono. by eapply Hlk.
  - intros Hf n. specialize (Hse Hf). rewrite (getitem_setitem _ _ _ _ _ n 0 H2).
    case_decide as Hij.
    + destruct Hij as [-> _]. intros _. left. apply elem_of_app. right. by left.
    + intros Hg. destruct (Hse n Hg) as [?|[?|[-> ?]]].
      * left. apply elem_of_app. by left.
      * right. left. by eapply served_mono.
      * right. right. split; [done|]. by eapply served_mono.
  - intros n Hn. apply Hmono. by apply Hsee.
Qed.

Lemma inner_keep cur done s r c sf t :
  inner cur done s →
  (sf = true → Np.getitem (visited s) r c = Some true) →
  inner cur (done ++ [Arc r c sf t]) s.
Proof.
  intros [Hsh Hq Hsd Hst Hlk Hse Hsee] Hx. split; try done.
  intros Hf n Hg. destruct (Hse Hf n Hg) as [?|[?|[-> ?]]].
  - by left.
  - right. by left.
  - right. right. split; [done|]. by apply served_snoc.
Qed.

Lemma inner_touch cur done x todo s :
  cur < N → Cl cur 0 → arcl cur = done ++ x :: todo → inner cur done s →
  match touch x s with
  | (s', Ret _) => inner cur (done ++ [x]) s'
  | _ => False
  end.
Proof.
  intros Hcur Hcl Hl Hi.
  assert (x ∈ arcl cur) as Hin by (rewrite Hl; apply elem_of_app; right; by left).
  pose proof (arcs_ok cur Hcur) as Hok.
  rewrite Forall_forall in Hok. specialize (Hok _ Hin).
  pose proof (inner_shaped _ _ _ _ _ _ _ _ Hi) as Hsh.
  destruct (touch_cases x s) as
    [|r c sf t Hg|r c sf t Hg|r c t Hg
     |r c t v1 Hg H1 Ht|r c t v1 Hg H1 Ht|r c t v1 v2 Hg H1 Ht H2];
    simpl in Hok.
  - done.
  - destruct (shaped_getitem s r c) as [? ?]; [done|lia..|congruence].
  - by apply inner_keep.
  - by apply inner_keep.
  - assert (shaped (mkBfs v1 (stack s) (trace s))) as Hsh1
      by (by eapply shaped_setitem).
    destruct (shaped_getitem _ t 0 Hsh1) as [? ?]; [lia..|]. simpl in *. congruence.
  - by apply inner_mark.
  - destruct (setitem_commute (visited s) r c t 0 v1 v2) as (va & Ha & Hb);
      [intros [= -> ->]; lia|done..|].
    apply (inner_mark cur done (mkBfs va (stack s ++ [t]) (trace s)) r c t v2);
      [done..| | |].
    + by eapply inner_push.
    + done.
    + by eapply getitem_setitem_eq.
Qed.

Lemma outer_sweep s node rest :
  outer s → stack s = node :: rest →
  match sweep (guarded N arcl) node (mkBfs (visited s) rest (trace s)) with
  | (s', Ret _) => outer s'
  | _ => False
  end.
Proof.
  intros [Hsh Hq Hsd Hst Hlk Hse Hsee] E.
  rewrite E in Hq. apply Forall_cons in Hq as [Hn Hq].
  assert (Cl node 0) as Hcl by (apply Hst; rewrite E; by left).
  unfold sweep, guarded, lift, mbind, M_bind.
  destruct (decide (node < N)) as [_|?]; [|done].
  apply (for_each_rule (inner node)
           (λ sr, match sr with (s', Ret _) => outer s' | _ => False end)).
  - intros done x todo s0 Hl Hi.
    pose proof (inner_touch node done x todo s0 Hn Hcl Hl Hi).
    by destruct (touch x s0) as [? [[]| |]].
  - intros s0 [Hsh0 Hq0 Hsd0 Hst0 Hlk0 Hse0 Hsee0]. split; try done.
    intros Hf n Hg. destruct (Hse0 Hf n Hg) as [?|[?|[-> ?]]]; [by left|by right..].
  - split; simpl; try done.
    + intros n Hin. apply Hst. rewrite E. by right.
    + intros Hf n Hg. destruct (Hse Hf n Hg) as [Hin|?]; [|right; by left].
      rewrite E in Hin. apply elem_of_cons in Hin as [->|?]; [|by left].
      right. right. split; [done|]. by intros r c t ?%elem_of_nil.
Qed.

Lemma outer_run_queue s :
  outer s →
  match run_queue (sweep (guarded N arcl)) s with
  | (s', Ret _) => outer s' ∧ stack s' = []
  | _ => False
  end.
Proof.
  intros Hs.
  pose proof (run_queue_terminates (guarded N arcl) s) as Hterm.
  assert (match run_queue (sweep (guarded N arcl)) s with
          | (s', Ret _) => outer s' ∧ stack s' = []
          | (_, Raise _) => False
          | (_, Diverge) => True
          end) as Hq.
  { unfold run_queue.
    apply (while_stack_rule outer
             (λ sr, match sr with
                    | (s', Ret _) => outer s' ∧ stack s' = []
                    | (_, Raise _) => False
                    | (_, Diverge) => True
                    end)); [|done..].
    intros s0 node rest H0 E. pose proof (outer_sweep s0 node rest H0 E).
    by destruct (sweep _ node _) as [? [[]| |]]. }
  destruct (run_queue _ s) as [s' [[]| |]]; [done..|].
  destruct Hterm; [|done]. intros n. unfold guarded. by case_decide.
Qed.

Lemma seed_marks out :
  Np.valid out → Np.nrows out = R → Np.ncols out = C → blank out →
  match for_each seeds (λ i, mark i 0) (mkBfs out [] []) with
  | (s', Ret _) =>
      shaped s' ∧ stack s' = [] ∧
      ∀ i j, Np.getitem (visited s') i j = Some true ↔ j = 0 ∧ i ∈ seeds
  | _ => False
  end.
Proof.
  intros Hv Hr Hc Hb.
  apply (for_each_rule
    (λ done s', shaped s' ∧ stack s' = [] ∧
       ∀ i j, Np.getitem (visited s') i j = Some true ↔ j = 0 ∧ i ∈ done)
    (λ sr, match sr with
           | (s', Ret _) =>
               shaped s' ∧ stack s' = [] ∧
               ∀ i j, Np.getitem (visited s') i j = Some true ↔ j = 0 ∧ i ∈ seeds
           | _ => False
           end)).
  - intros done x todo s0 Hl (Hsh & Hst & Hiff).
    assert (x < R) as Hx.
    { pose proof seeds_ok as Hok. rewrite Forall_forall in Hok.
      apply Hok. rewrite Hl. apply elem_of_app. right. by left. }
    unfold mark.
    destruct (setitem_is_Some (visited s0) x 0 true) as [v Hv0];
      [by apply shaped_getitem|].
    rewrite Hv0. split_and!; simpl.
    + by eapply shaped_setitem.
    + done.
    + intros i j. rewrite (getitem_setitem _ _ _ _ _ i j Hv0).
      case_decide as Hij.
      * destruct Hij as [-> ->]. split; [|done]. intros _. split; [done|].
        apply elem_of_app. right. by left.
      * rewrite Hiff. split.
        -- intros [-> ?]. split; [done|]. apply elem_of_app. by left.
        -- intros [-> [?|Hi]%elem_of_app]; [done|].
           apply list_elem_of_singleton in Hi as ->. tauto.
  - done.
  - split_and!; [done..|]. simpl. intros i j. split.
    + intros ?. by destruct (Hb i j).
    + by intros [_ ?%elem_of_nil].
Qed.

Lemma closure_node_lt i j : Cl i j → j = 0 → i < N.
Proof.
  induction 1 as [n Hn|n r c t Hcl IH Hin|n r c t Hcl IH Hin]; intros Hj.
  - pose proof seeds_ok as Hok. rewrite Forall_forall in Hok. by apply Hok.
  - specialize (IH eq_refl). pose proof (arcs_ok n IH) as Hok.
    rewrite Forall_forall in Hok. specialize (Hok _ Hin). simpl in Hok. lia.
  - specialize (IH eq_refl). pose proof (arcs_ok n IH) as Hok.
    rewrite Forall_forall in Hok. specialize (Hok _ Hin). simpl in Hok. lia.
Qed.

Lemma outer_complete s :
  functional N arcl → outer s → stack s = [] →
  ∀ i j, Cl i j → Np.getitem (visited s) i j = Some true.
Proof.
  intros Hf [Hsh Hq Hsd Hst Hlk Hse Hsee] E.
  assert (∀ n, Np.getitem (visited s) n 0 = Some true →
               served (visited s) (arcl n)) as Hsv.
  { intros n Hg. destruct (Hse Hf n Hg) as [Hin|?]; [|done].
    rewrite E in Hin. by apply elem_of_nil in Hin. }
  induction 1 as [n Hn|n r c t Hcl IH Hin|n r c t Hcl IH Hin].
  - by apply Hsee.
  - by eapply Hsv.
  - eapply (Hlk Hf); [by eapply closure_node_lt|done|]. by eapply Hsv.
Qed.

(** From a blank [out] of the right shape the traversal returns normally,
    with an empty queue; what it has marked lies in the closure, and is the
    whole closure when the arcs are functional. *)
Theorem traverse_closure out :
  Np.valid out → Np.nrows out = R → Np.ncols out = C → blank out →
  ∃ s', traverse (guarded N arcl) seeds (mkBfs out [] []) = (s', Ret tt) ∧
        shaped s' ∧ stack s' = [] ∧
        (∀ i j, Np.getitem (visited s') i j = Some true → Cl i j) ∧
        (functional N arcl →
         ∀ i j, Cl i j → Np.getitem (visited s') i j = Some true).
Proof.
  intros Hv Hr Hc Hb.
  pose proof seeds_ok as Hok. rewrite Forall_forall in Hok.
  unfold traverse, mbind, M_bind, mark_rows.
  destruct (decide (Forall _ seeds)) as [_|Hbad]; simpl.
  2:{ destruct Hbad. apply Forall_forall. intros n Hn. simpl.
      apply getitem_valid; [done|destruct (Hok n Hn); lia|lia]. }
  pose proof (seed_marks out Hv Hr Hc Hb) as Hseed.
  destruct (for_each seeds _ _) as [s1 [[]| |]]; [|done..].
  destruct Hseed as (Hsh & Hst & Hiff). unfold init_stack.
  match goal with |- context [run_queue _ ?s0] =>
    assert (outer s0) as Hs0; [|pose proof (outer_run_queue s0 Hs0) as Hrun] end.
  { split; simpl; try done.
    - apply Forall_forall. intros n Hn. by destruct (Hok n Hn).
    - intros i j [-> ?]%Hiff. by constructor.
    - intros n Hn. by constructor.
    - intros _ n r c t Hn Hin [-> _]%Hiff.
      pose proof (arcs_ok n Hn) as Hok'. rewrite Forall_forall in Hok'.
      specialize (Hok' _ Hin). simpl in Hok'. lia.
    - intros _ n [_ ?]%Hiff. by left.
    - intros n Hn. by apply Hiff. }
  destruct (run_queue _ _) as [s' [[]| |]]; [|done..].
  destruct Hrun as [Ho He].
  exists s'. split_and!; [done|apply Ho|done|apply Ho|].
  intros Hf i j. by apply outer_complete.
Qed.

End Closure.

(** ** Graphs of the data model *)

Lemma mirrors_reverse env graph : mirrors (DiGraph_reverse env graph) graph.
Proof.
  split; [done|]. intros u v. unfold DiGraph_reverse. simpl. split.
  - intros (e' & (e & -> & He)%list_elem_of_fmap & <- & <-). by exists e.
  - intros (e & He & <- & <-). exists (reverse_edge env e).
    split; [|done]. apply list_elem_of_fmap. by exists e.
Qed.

Lemma head_filter_Some {A} (P : A → Prop) `{!∀ x, Decision (P x)} (l : list A) y :
  head (filter P l) = Some y → y ∈ l ∧ P y.
Proof.
  intros Hhd.
  assert (y ∈ filter P l) as [? ?]%list_elem_of_filter; [|done].
  destruct (filter P l) as [|z l']; [done|].
  simpl in Hhd. injection Hhd as ->. by left.
Qed.

Lemma head_filter_is_Some {A} (P : A → Prop) `{!∀ x, Decision (P x)} (l : list A) x :
  x ∈ l → P x → is_Some (head (filter P l)).
Proof.
  intros Hin HP.
  assert (x ∈ filter P l) as Hx by (by apply list_elem_of_filter).
  destruct (filter P l); [by apply elem_of_nil in Hx|by eexists].
Qed.

Lemma get_edge_data_Some graph u v d :
  get_edge_data graph u v = Some d → d ∈ edges graph ∧ src d = u ∧ dst d = v.
Proof.
  unfold get_edge_data. intros (? & ? & ?)%head_filter_Some. done.
Qed.

Lemma get_edge_data_simple C graph e :
  graph_ok C graph → e ∈ edges graph →
  get_edge_data graph (src e) (dst e) = Some e.
Proof.
  intros Hok He.
  destruct (head_filter_is_Some (λ e', src e' = src e ∧ dst e' = dst e)
              (edges graph) e He) as [d Hd]; [done|].
  unfold get_edge_data. rewrite Hd. f_equal.
  apply head_filter_Some in Hd as (Hd & ? & ?).
  by apply (ok_simple C graph Hok).
Qed.

Lemma elem_of_succ_list env graph n r c t :
  Arc r c true t ∈ succ_list env graph n ↔
  ∃ e, e ∈ edges graph ∧ src e = n ∧ r = n ∧ c = action e ∧ t = dst e ∧
       truth env (safe e) = true.
Proof.
  unfold succ_list, succ_arc. rewrite list_elem_of_fmap. split.
  - intros (e & [= -> -> Ht ->] & [? ?]%list_elem_of_filter). by exists e.
  - intros (e & He & <- & -> & -> & -> & Ht). exists e. rewrite Ht.
    split; [done|]. by apply list_elem_of_filter.
Qed.

Lemma elem_of_pred_list C env graph reverse_graph n r c t :
  graph_ok C graph → mirrors reverse_graph graph →
  Arc r c true t ∈ pred_list env graph reverse_graph n ↔
  ∃ e, e ∈ edges graph ∧ dst e = n ∧ r = src e ∧ c = action e ∧ t = src e ∧
       truth env (safe e) = true.
Proof.
  intros Hok [_ Hmir]. unfold pred_list, pred_arc. rewrite list_elem_of_fmap. split.
  - intros (e' & Harc & [Hsrc He']%list_elem_of_filter).
    destruct (get_edge_data graph (dst e') n) as [d|] eqn:Hd; [|done].
    apply get_edge_data_Some in Hd as (Hd & Hs & Hdst).
    injection Harc as -> -> Ht ->. by exists d.
  - intros (e & He & <- & -> & -> & -> & Ht).
    destruct (Hmir (dst e) (src e)) as [_ (e' & He' & Hs & Hd)]; [by exists e|].
    exists e'. rewrite Hd, (get_edge_data_simple C graph e Hok He), Ht.
    split; [done|]. by apply list_elem_of_filter.
Qed.

Lemma succ_list_ok C env graph n :
  graph_ok C graph → n < number_of_nodes graph →
  Forall (arc_ok (number_of_nodes graph) (number_of_nodes graph) C)
         (succ_list env graph n).
Proof.
  intros Hok Hn. apply Forall_forall. intros a.
  unfold succ_list. intros (e & -> & [? He]%list_elem_of_filter)%list_elem_of_fmap.
  destruct (ok_endpoints C graph Hok e He). pose proof (ok_actions C graph Hok e He).
  simpl. lia.
Qed.

Lemma pred_list_ok C env graph reverse_graph n :
  graph_ok C graph → mirrors reverse_graph graph →
  Forall (arc_ok (number_of_nodes graph) (number_of_nodes graph) C)
         (pred_list env graph reverse_graph n).
Proof.
  intros Hok [_ Hmir]. apply Forall_forall. intros a.
  unfold pred_list. intros (e' & -> & [Hs He']%list_elem_of_filter)%list_elem_of_fmap.
  destruct (Hmir (src e') (dst e')) as [(e & He & Hse & Hde) _]; [by exists e'|].
  unfold pred_arc. rewrite <- Hs, <- Hse, <- Hde.
  rewrite (get_edge_data_simple C graph e Hok He). simpl.
  destruct (ok_endpoints C graph Hok e He). pose proof (ok_actions C graph Hok e He).
  lia.
Qed.

Lemma succ_list_functional env graph :
  one_edge_per_action graph →
  functional (number_of_nodes graph) (succ_list env graph).
Proof.
  intros Huniq n n' r c t t' _ _.
  intros (e & He & ? & ? & ? & ? & _)%elem_of_succ_list.
  intros (e' & He' & ? & ? & ? & ? & _)%elem_of_succ_list.
  assert (e = e') by (apply Huniq; [done..|congruence|congruence]).
  congruence.
Qed.

Lemma pred_list_functional C env graph reverse_graph :
  graph_ok C graph → mirrors reverse_graph graph →
  functional (number_of_nodes graph) (pred_list env graph reverse_graph).
Proof.
  intros Hok Hmir n n' r c t t' _ _.
  intros (e & He & ? & ? & ? & ? & _)%(elem_of_pred_list C); [|done..].
  intros (e' & He' & ? & ? & ? & ? & _)%(elem_of_pred_list C); [|done..].
  congruence.
Qed.

(** ** What the two traversals compute on a well-formed graph *)

Lemma seeds_in_both N seeds : seeds_in N seeds → Forall (λ n, n < N ∧ n < N) seeds.
Proof. unfold seeds_in. intros H. eapply Forall_impl; [done|]. by simpl. Qed.

Lemma reachable_set_spec C env graph seeds out :
  graph_ok C graph → 0 < C → seeds ≠ [] → seeds_in (number_of_nodes graph) seeds →
  Np.valid out → Np.nrows out = number_of_nodes graph → Np.ncols out = C →
  blank out →
  ∃ s', reachable_set env graph seeds out = (s', Ret tt) ∧
        Np.valid (visited s') ∧ Np.same_shape (visited s') out ∧
        (∀ i j, Np.getitem (visited s') i j = Some true → reach_cells env graph seeds i j) ∧
        (one_edge_per_action graph →
         ∀ i j, reach_cells env graph seeds i j → Np.getitem (visited s') i j = Some true).
Proof.
  intros Hok HC Hne Hseeds Hv Hr Hc Hb.
  destruct (traverse_closure (succ_list env graph) (number_of_nodes graph)
              (number_of_nodes graph) C seeds) with (out := out)
    as (s' & Hrun & (Hv' & Hr' & Hc') & _ & Hsound & Hcompl);
    [by intros; apply succ_list_ok|by apply seeds_in_both|done..|].
  exists s'. split_and!; [|done|by split; congruence|done|].
  - unfold reachable_set. destruct seeds; [done|].
    by rewrite reachable_body_traverse.
  - intros Huniq. apply Hcompl. by apply succ_list_functional.
Qed.

Lemma returnable_set_spec C env graph reverse_graph seeds out :
  graph_ok C graph → mirrors reverse_graph graph →
  0 < C → seeds ≠ [] → seeds_in (number_of_nodes graph) seeds →
  Np.valid out → Np.nrows out = number_of_nodes graph → Np.ncols out = C →
  blank out →
  ∃ s', returnable_set env graph reverse_graph seeds out = (s', Ret tt) ∧
        Np.valid (visited s') ∧ Np.same_shape (visited s') out ∧
        (∀ i j, Np.getitem (visited s') i j = Some true ↔
                return_cells env graph reverse_graph seeds i j).
Proof.
  intros Hok Hmir HC Hne Hseeds Hv Hr Hc Hb.
  destruct (traverse_closure (pred_list env graph reverse_graph)
              (number_of_nodes graph) (number_of_nodes graph) C seeds)
    with (out := out)
    as (s' & Hrun & (Hv' & Hr' & Hc') & _ & Hsound & Hcompl);
    [by intros; eapply pred_list_ok|by apply seeds_in_both|done..|].
  exists s'. split_and!; [|done|by split; congruence|].
  - unfold returnable_set. destruct seeds; [done|].
    rewrite returnable_body_traverse. unfold pred_arcs.
    destruct Hmir as [-> _]. done.
  - intros i j. split; [apply Hsound|].
    apply Hcompl. by eapply pred_list_functional.
Qed.

(** ** [SafeMDP] objects *)

Lemma getitem_iand_iff a b m i j :
  Np.iand a b = Some m →
  Np.getitem m i j = Some true ↔
  Np.getitem a i j = Some true ∧ Np.getitem b i j = Some true.
Proof.
  intros Hm. split; [by apply getitem_iand|].
  revert Hm. unfold Np.iand. case_decide as Hs; [|done]. intros [= <-].
  destruct Hs as [Hr Hc]. unfold Np.getitem. simpl.
  rewrite <- Hr, <- Hc. case_decide; [|by intros [? ?]].
  rewrite lookup_zip_with. by intros [-> ->].
Qed.

Lemma iand_shape a b m :
  Np.iand a b = Some m → Np.same_shape m a ∧ (Np.valid a → Np.valid b → Np.valid m).
Proof.
  unfold Np.iand. case_decide as Hs; [|done]. intros [= <-].
  split; [done|]. unfold Np.valid. simpl. destruct Hs as [Hr Hc].
  rewrite length_zip_with. lia.
Qed.

Lemma blank_fill m : blank (Np.fill false m).
Proof. intros i j Hg. by apply getitem_fill_inv in Hg. Qed.

(** What [compute_S_hat] leaves in [reach] and [S_hat]. *)
Lemma compute_S_hat_spec {F} env (s : SafeMDP.self F) :
  mdp_ok s →
  ∃ r a,
    SafeMDP.compute_S_hat env s
      = (SafeMDP.set_S_hat a (SafeMDP.set_reach r s), Ret tt) ∧
    mdp_ok (SafeMDP.set_S_hat a (SafeMDP.set_reach r s)) ∧
    (∀ i j, Np.getitem r i j = Some true →
       reach_cells env (SafeMDP.graph s) (SafeMDP.initial_nodes s) i j) ∧
    (one_edge_per_action (SafeMDP.graph s) →
     ∀ i j, reach_cells env (SafeMDP.graph s) (SafeMDP.initial_nodes s) i j →
       Np.getitem r i j = Some true) ∧
    (∀ i j, Np.getitem a i j = Some true ↔
       return_cells env (SafeMDP.graph s) (SafeMDP.graph_reverse s)
         (SafeMDP.initial_nodes s) i j ∧
       Np.getitem r i j = Some true).
Proof.
  intros [Hg Hmir HC Hrv Hrr Hsv [Hsr Hsc] Hseeds Hne].
  destruct (reachable_set_spec (Np.ncols (SafeMDP.reach s)) env (SafeMDP.graph s)
              (SafeMDP.initial_nodes s) (Np.fill false (SafeMDP.reach s)))
    as (b1 & Hrun1 & Hv1 & [Hr1 Hc1] & Hsound1 & Hcompl1);
    [done..|by apply fill_valid|done|done|apply blank_fill|].
  destruct (returnable_set_spec (Np.ncols (SafeMDP.reach s)) env (SafeMDP.graph s)
              (SafeMDP.graph_reverse s) (SafeMDP.initial_nodes s)
              (Np.fill false (SafeMDP.S_hat s)))
    as (b2 & Hrun2 & Hv2 & [Hr2 Hc2] & Hiff2);
    [done..|by apply fill_valid|simpl; congruence|simpl; congruence|apply blank_fill|].
  simpl in Hr1, Hc1, Hr2, Hc2.
  destruct (Np.iand (visited b2) (visited b1)) as [a|] eqn:Ha.
  2:{ unfold Np.iand in Ha. case_decide as Hbad; [done|]. destruct Hbad.
      split; congruence. }
  exists (visited b1), a.
  destruct (iand_shape _ _ _ Ha) as [[Har Hac] Hav].
  split_and!.
  - unfold SafeMDP.compute_S_hat, SafeMDP.on_reach, SafeMDP.on_S_hat,
      SafeMDP.iand_S_hat_reach, modify, get, mbind, M_bind.
    simpl. rewrite Hrun1. simpl. rewrite Hrun2. simpl. by rewrite Ha.
  - split; simpl; try done.
    + by rewrite Hc1.
    + lia.
    + congruence.
    + by apply Hav.
    + split; congruence.
  - done.
  - done.
  - intros i j. rewrite (getitem_iand_iff _ _ _ i j Ha). by rewrite Hiff2.
Qed.

Lemma max_out_degree_Ret graph d :
  max_out_degree graph = Ret d → 0 < number_of_nodes graph.
Proof.
  unfold max_out_degree. destruct (number_of_nodes graph); [done|lia].
Qed.

Lemma column0_nonzero_spec m l :
  Np.column0_nonzero m = Some l →
  0 < Np.ncols m ∧ ∀ i, i ∈ l ↔ Np.getitem m i 0 = Some true.
Proof.
  unfold Np.column0_nonzero. case_decide; [|done]. intros [= <-].
  split; [done|]. intros i. rewrite list_elem_of_filter, elem_of_seq.
  split; [by intros [? _]|]. intros Hg. split; [done|].
  apply getitem_Some_range in Hg. lia.
Qed.

(** [__init__] on inputs of the documented shapes yields a well-formed object. *)
Lemma init_ok {F} env mem_reach mem_G graph (gp : GPRegression F) S_hat0 h L beta d i0 :
  max_out_degree graph = Ret d →
  graph_ok (d + 1) graph →
  Np.valid S_hat0 →
  Np.nrows S_hat0 = number_of_nodes graph → Np.ncols S_hat0 = d + 1 →
  Np.getitem S_hat0 i0 0 = Some true →
  ∃ s, SafeMDP.__init__ env mem_reach mem_G graph gp S_hat0 h L beta = Ret s ∧
       mdp_ok s ∧ SafeMDP.graph s = graph ∧ SafeMDP.S_hat0 s = S_hat0.
Proof.
  intros Hd Hg Hv Hr Hc Hi0. unfold SafeMDP.__init__. rewrite Hd.
  destruct (Np.column0_nonzero (Np.copy (Np.copy S_hat0))) as [l|] eqn:El.
  2:{ unfold Np.column0_nonzero, Np.copy in El. case_decide; [done|lia]. }
  eexists. split; [done|].
  destruct (column0_nonzero_spec _ _ El) as [_ Hl].
  split_and!; [|done..]. split; simpl; unfold Np.copy in *; try done.
  - apply mirrors_reverse.
  - lia.
  - apply empty_valid.
  - apply Forall_forall. intros i [Hi _]%Hl%getitem_Some_range. lia.
  - intros ->. apply (elem_of_nil i0). by apply Hl.
Qed.

Lemma compute_S_hat_subset {F} env (s s' : SafeMDP.self F) :
  SafeMDP.compute_S_hat env s = (s', Ret tt) →
  Np.subset (SafeMDP.S_hat s') (SafeMDP.reach s').
Proof.
  unfold SafeMDP.compute_S_hat, SafeMDP.on_reach, SafeMDP.on_S_hat,
    SafeMDP.iand_S_hat_reach, modify, get, mbind, M_bind. simpl.
  destruct (reachable_set _ _ _ _) as [b1 [[]| |]]; simpl; [|done..].
  destruct (returnable_set _ _ _ _ _) as [b2 [[]| |]]; simpl; [|done..].
  destruct (Np.iand _ _) as [a|] eqn:Ha; [|done].
  intros [= <-]. simpl. intros i j Hij. by apply (getitem_iand _ _ _ _ _ Ha).
Qed.

(** C1.  Whenever [compute_S_hat] returns on an object whose two arrays
    have one shape, every cell true in [S_hat] is true in [reach], whatever
    the graph, the seeds and the labels; and on a well-formed object (a
    graph of the data model, any labels, at least one seed) it does
    return. *)
Theorem S_hat_subset_reach {F} env (s : SafeMDP.self F) :
  (∀ s', Np.same_shape (SafeMDP.S_hat s) (SafeMDP.reach s) →
         SafeMDP.compute_S_hat env s = (s', Ret tt) →
         Np.subset (SafeMDP.S_hat s') (SafeMDP.reach s')) ∧
  (mdp_ok s →
   ∃ s', SafeMDP.compute_S_hat env s = (s', Ret tt) ∧
         Np.same_shape (SafeMDP.S_hat s') (SafeMDP.reach s')).
Proof.
  split.
  - intros s' _. apply compute_S_hat_subset.
  - intros Hok.
    destruct (compute_S_hat_spec env s Hok) as (r & a & Hrun & Hok' & _).
    eexists. split; [done|]. apply (mdp_S_hat_shape _ Hok').
Qed.

(** ** Scenario A: the line graph [0 → 1 → 2] *)

Lemma line_graph_ok : graph_ok 2 line_graph.
Proof.
  split; simpl.
  - intros e He. each_edge; simpl; lia.
  - intros e He. each_edge; simpl; lia.
  - intros e1 e2 H1 H2. each_edge; simpl; done.
Qed.

(** C3.  Scenario A: on the line graph [0 → 1 → 2] with action 1 on both
    edges, both safe, and seed set [{0}], the object is constructed,
    [compute_S_hat] returns, [reach] is true exactly at the cells (0,0),
    (0,1), (1,0), (1,1), (2,0) and [S_hat] exactly at (0,0).  (Row-major:
    the list holds the cells (0,0), (0,1), (1,0), (1,1), (2,0), (2,1).) *)
Theorem scenario_A {F} env mem_reach mem_G (gp : GPRegression F) h L beta b0 b1 b2 :
  ∃ s s',
    SafeMDP.__init__ env mem_reach mem_G line_graph gp (seed0 b0 b1 b2) h L beta = Ret s ∧
    SafeMDP.initial_nodes s = [0] ∧
    SafeMDP.compute_S_hat env s = (s', Ret tt) ∧
    SafeMDP.reach s' = Np.mk 3 2 [true; true; true; true; true; false] ∧
    SafeMDP.S_hat s' = Np.mk 3 2 [true; false; false; false; false; false].
Proof.
  eexists. eexists. split; [reflexivity|]. split; [reflexivity|].
  split; [vm_compute; reflexivity|]. split; reflexivity.
Qed.

Lemma scenario_mdp_init :
  SafeMDP.__init__ no_env (λ _, true) (λ _, true) line_graph (mkGP (mkMatrix 0 []) (mkMatrix 0 []))
    (seed0 false false false) 0 0 2 = Ret scenario_mdp.
Proof. reflexivity. Qed.

Lemma scenario_mdp_ok : mdp_ok scenario_mdp.
Proof.
  destruct (init_ok (F:=nat) no_env (λ _, true) (λ _, true) line_graph (mkGP (mkMatrix 0 []) (mkMatrix 0 []))
              (seed0 false false false) 0 0 2 1 0) as (s & Hs & Hok & _);
    [reflexivity|apply line_graph_ok|reflexivity..|].
  rewrite scenario_mdp_init in Hs. by injection Hs as <-.
Qed.

Lemma S_hat_subset_reach_witness :
  ∃ s', SafeMDP.compute_S_hat no_env scenario_mdp = (s', Ret tt) ∧
        Np.subset (SafeMDP.S_hat s') (SafeMDP.reach s').
Proof.
  destruct (S_hat_subset_reach no_env scenario_mdp) as [Hsub Hret].
  destruct (Hret scenario_mdp_ok) as (s' & Hrun & _).
  exists s'. split; [exact Hrun|].
  apply Hsub; [split; reflexivity|exact Hrun].
Defined.

(** ** Construction without a seed *)

(** C2 as stated fails: the object built on the line graph from an initial
    matrix without a seed, in memory holding ones, has no initial node;
    [compute_S_hat] raises, but only after it has cleared [reach]. *)
Lemma compute_S_hat_unseeded_changes_reach :
  ∃ s, SafeMDP.__init__ no_env (λ _, true) (λ _, true) line_graph
         (mkGP (F:=nat) (mkMatrix 0 []) (mkMatrix 0 [])) (Np.zeros 3 2) 0 0 2 = Ret s ∧
       SafeMDP.initial_nodes s = [] ∧
       (SafeMDP.compute_S_hat no_env s).2 = Raise AttributeError ∧
       SafeMDP.reach (SafeMDP.compute_S_hat no_env s).1 ≠ SafeMDP.reach s.
Proof.
  eexists. split; [reflexivity|]. split; [reflexivity|].
  split; [reflexivity|]. vm_compute. discriminate.
Qed.

Lemma column0_nonzero_nil m l :
  Np.column0_nonzero m = Some l →
  (∀ i, Np.getitem m i 0 ≠ Some true) → l = [].
Proof.
  intros Hl Hnone. destruct (column0_nonzero_spec _ _ Hl) as [_ Hiff].
  destruct l as [|i l]; [done|]. destruct (Hnone i). apply Hiff. by left.
Qed.

(** C2, amended.  An object constructed from an initial matrix with no
    true entry in column 0 has an empty seed list; [compute_S_hat] then
    raises the empty-seed error of [reachable_set], raised at its entry
    (nothing marked, nothing enqueued); [S_hat] and every other attribute
    are unchanged, and [reach] has been cleared to false. *)
Theorem compute_S_hat_unseeded {F} env env' mem_reach mem_G graph
    (gp : GPRegression F) S_hat0 h L beta s :
  SafeMDP.__init__ env mem_reach mem_G graph gp S_hat0 h L beta = Ret s →
  (∀ i, Np.getitem S_hat0 i 0 ≠ Some true) →
  SafeMDP.initial_nodes s = [] ∧
  SafeMDP.compute_S_hat env' s
    = (SafeMDP.set_reach (Np.fill false (SafeMDP.reach s)) s, Raise AttributeError) ∧
  SafeMDP.S_hat (SafeMDP.compute_S_hat env' s).1 = SafeMDP.S_hat s ∧
  reachable_set env' (SafeMDP.graph s) (SafeMDP.initial_nodes s)
      (Np.fill false (SafeMDP.reach s))
    = (mkBfs (Np.fill false (SafeMDP.reach s)) [] [], Raise AttributeError).
Proof.
  intros Hinit Hnone.
  assert (SafeMDP.initial_nodes s = []) as Hnil.
  { unfold SafeMDP.__init__ in Hinit.
    destruct (max_out_degree graph); [|done..].
    destruct (Np.column0_nonzero _) as [l|] eqn:El; [|done].
    injection Hinit as <-. simpl. by eapply column0_nonzero_nil. }
  assert (SafeMDP.compute_S_hat env' s
          = (SafeMDP.set_reach (Np.fill false (SafeMDP.reach s)) s,
             Raise AttributeError)) as Hrun.
  { unfold SafeMDP.compute_S_hat, SafeMDP.on_reach, modify, get, mbind, M_bind.
    simpl. rewrite Hnil. simpl. by destruct s. }
  split_and!; [done|done| |].
  - by rewrite Hrun.
  - by rewrite Hnil.
Qed.

Lemma compute_S_hat_unseeded_witness :
  SafeMDP.initial_nodes
    (SafeMDP.mk 2 0 0 (mkGP (F:=nat) (mkMatrix 0 []) (mkMatrix 0 [])) line_graph
       (DiGraph_reverse no_env line_graph)
       (Np.empty 3 2 (λ _, true)) (Np.empty 3 2 (λ _, true))
       (Np.zeros 3 2) (Np.zeros 3 2) []) = [] ∧
  SafeMDP.compute_S_hat no_env
    (SafeMDP.mk 2 0 0 (mkGP (F:=nat) (mkMatrix 0 []) (mkMatrix 0 [])) line_graph
       (DiGraph_reverse no_env line_graph)
       (Np.empty 3 2 (λ _, true)) (Np.empty 3 2 (λ _, true))
       (Np.zeros 3 2) (Np.zeros 3 2) [])
    = (SafeMDP.set_reach (Np.fill false (Np.empty 3 2 (λ _, true)))
         (SafeMDP.mk 2 0 0 (mkGP (F:=nat) (mkMatrix 0 []) (mkMatrix 0 [])) line_graph
            (DiGraph_reverse no_env line_graph)
            (Np.empty 3 2 (λ _, true)) (Np.empty 3 2 (λ _, true))
            (Np.zeros 3 2) (Np.zeros 3 2) []),
       Raise AttributeError).
Proof.
  pose proof (compute_S_hat_unseeded (F:=nat) no_env no_env (λ _, true) (λ _, true)
    line_graph (mkGP (mkMatrix 0 []) (mkMatrix 0 [])) (Np.zeros 3 2) 0 0 2 _ eq_refl) as H.
  destruct H as (H1 & H2 & _).
  - intros i Hi. by apply getitem_zeros_inv in Hi.
  - split; [exact H1|exact H2].
Defined.

Lemma traversals_terminate_witness :
  (let sr := reachable_set no_env line_graph [0] (Np.zeros 3 2) in
   sr.2 ≠ Diverge ∧
   NoDup (marks (trace sr.1)) ∧ NoDup (pushes (trace sr.1)) ∧
   (sr.2 = Ret tt → stack sr.1 = [])) ∧
  (let sr := returnable_set no_env line_graph (DiGraph_reverse no_env line_graph)
               [0] (Np.zeros 3 2) in
   sr.2 ≠ Diverge ∧
   NoDup (marks (trace sr.1)) ∧ NoDup (pushes (trace sr.1)) ∧
   (sr.2 = Ret tt → stack sr.1 = [])).
Proof.
  apply (traversals_terminate no_env line_graph (DiGraph_reverse no_env line_graph)
           [0] (Np.zeros 3 2)).
  - discriminate.
  - apply NoDup_singleton.
Defined.

(** ** The traversals fail only on an empty seed list or a bad index *)

Lemma touch_quiet a s : quiet (touch a s).2.
Proof. by destruct (touch_cases a s). Qed.

Lemma sweep_quiet arcs node s :
  (∀ n, arcs n ≠ Raise AttributeError) → quiet (sweep arcs node s).2.
Proof.
  intros Harcs. unfold sweep, lift, mbind, M_bind, quiet.
  specialize (Harcs node).
  destruct (arcs node) as [l| |]; [|intros [= ->]; by destruct Harcs|done].
  apply (for_each_rule (λ _ _, True) (λ sr, quiet sr.2)); [|done..].
  intros _ a _ s' _ _. pose proof (touch_quiet a s').
  by destruct (touch a s') as [? [[]| |]].
Qed.

Lemma traverse_quiet arcs rows s :
  (∀ n, arcs n ≠ Raise AttributeError) → quiet (traverse arcs rows s).2.
Proof.
  intros Harcs. unfold traverse, mbind, M_bind, mark_rows.
  case_decide; [|done].
  assert (quiet (for_each rows (λ i, mark i 0) s).2) as Hq.
  { apply (for_each_rule (λ _ _, True) (λ sr, quiet sr.2)); [|done..].
    intros _ i _ s' _ _. unfold mark.
    by destruct (Np.setitem (visited s') i 0 true). }
  destruct (for_each rows _ s) as [s1 [[]| |]]; [|done..]. simpl.
  unfold run_queue.
  apply (while_stack_rule (λ _, True) (λ sr, quiet sr.2)); [|done..].
  intros s' node rest _ _. pose proof (sweep_quiet arcs node
    (mkBfs (visited s') rest (trace s')) Harcs).
  by destruct (sweep arcs node _) as [? [[]| |]].
Qed.

Section NoFail.

Variables (arcl : nat → list arc) (N R C : nat) (seeds : list nat).
Hypothesis arcs_ok : ∀ n, n < N → Forall (arc_ok N R C) (arcl n).
Hypothesis seeds_ok : Forall (λ n, n < N ∧ n < R) seeds.
Hypothesis columns : 0 < C.

Local Abbreviation fits := (fits N R C).

Lemma fits_touch x s :
  fits s → arc_ok N R C x →
  match touch x s with
  | (s', Ret _) => fits s'
  | _ => False
  end.
Proof.
  intros [Hsh Hq] Hok.
  destruct (touch_cases x s) as
    [|r c sf t Hg|r c sf t Hg|r c t Hg
     |r c t v1 Hg H1 Ht|r c t v1 Hg H1 Ht|r c t v1 v2 Hg H1 Ht H2];
    simpl in Hok; try done.
  - destruct (shaped_getitem R C s r c) as [? ?]; [done|lia..|congruence].
  - assert (shaped R C (mkBfs v1 (stack s) (trace s))) as Hsh1
      by (by eapply shaped_setitem).
    destruct (shaped_getitem R C _ t 0 Hsh1) as [? ?]; [lia..|]. simpl in *. congruence.
  - split; [by eapply shaped_setitem|done].
  - split; simpl.
    + apply (shaped_setitem R C (mkBfs v1 (stack s) (trace s)) t 0); [|done].
      by eapply shaped_setitem.
    + apply Forall_app. split; [done|]. apply Forall_singleton. lia.
Qed.

Lemma fits_sweep s node rest :
  fits s → stack s = node :: rest →
  match sweep (guarded N arcl) node (mkBfs (visited s) rest (trace s)) with
  | (s', Ret _) => fits s'
  | _ => False
  end.
Proof.
  intros [Hsh Hq] E. rewrite E in Hq. apply Forall_cons in Hq as [Hn Hq].
  unfold sweep, guarded, lift, mbind, M_bind.
  destruct (decide (node < N)) as [_|?]; [|done].
  pose proof (arcs_ok node Hn) as Hok. rewrite Forall_forall in Hok.
  apply (for_each_rule (λ _, fits)
           (λ sr, match sr with (s', Ret _) => fits s' | _ => False end));
    [|done..].
  intros done x todo s0 Hl H0.
  assert (arc_ok N R C x) as Hx
    by (apply Hok; rewrite Hl; apply elem_of_app; right; by left).
  pose proof (fits_touch x s0 H0 Hx). by destruct (touch x s0) as [? [[]| |]].
Qed.

Theorem traverse_returns out :
  Np.valid out → Np.nrows out = R → Np.ncols out = C →
  ∃ s', traverse (guarded N arcl) seeds (mkBfs out [] []) = (s', Ret tt) ∧
        shaped R C s'.
Proof.
  intros Hv Hr Hc.
  pose proof seeds_ok as Hok. rewrite Forall_forall in Hok.
  unfold traverse, mbind, M_bind, mark_rows.
  destruct (decide (Forall _ seeds)) as [_|Hbad]; simpl.
  2:{ destruct Hbad. apply Forall_forall. intros n Hn. simpl.
      apply getitem_valid; [done|destruct (Hok n Hn); lia|lia]. }
  assert (match for_each seeds (λ i, mark i 0) (mkBfs out [] []) with
          | (s', Ret _) => shaped R C s' ∧ stack s' = []
          | _ => False
          end) as Hseed.
  { apply (for_each_rule (λ _ s', shaped R C s' ∧ stack s' = [])
             (λ sr, match sr with
                    | (s', Ret _) => shaped R C s' ∧ stack s' = []
                    | _ => False
                    end)); [|done..].
    intros done x todo s0 Hl [Hsh Hst].
    assert (x < R) as Hx
      by (apply Hok; rewrite Hl; apply elem_of_app; right; by left).
    unfold mark.
    destruct (setitem_is_Some (visited s0) x 0 true) as [v Hv0];
      [by eapply shaped_getitem|].
    rewrite Hv0. split; [by eapply shaped_setitem|done]. }
  destruct (for_each seeds _ _) as [s1 [[]| |]]; [|done..].
  destruct Hseed as [Hsh Hst]. unfold init_stack.
  match goal with |- context [run_queue _ ?s0] =>
    assert (fits s0) as Hs0;
      [|pose proof (run_queue_terminates (guarded N arcl) s0) as Hterm] end.
  { split; [done|]. simpl. apply Forall_forall. intros n Hn. by destruct (Hok n Hn). }
  match goal with |- context [run_queue _ ?s0] =>
    assert (match run_queue (sweep (guarded N arcl)) s0 with
            | (s', Ret _) => fits s'
            | (_, Raise _) => False
            | (_, Diverge) => True
            end) as Hq end.
  { unfold run_queue.
    apply (while_stack_rule fits
             (λ sr, match sr with
                    | (s', Ret _) => fits s'
                    | (_, Raise _) => False
                    | (_, Diverge) => True
                    end)); [|done..].
    intros s0 node rest H0 E. pose proof (fits_sweep s0 node rest H0 E).
    by destruct (sweep _ node _) as [? [[]| |]]. }
  destruct (run_queue _ _) as [s' [[]| |]]; [|done|].
  - exists s'. split; [done|apply Hq].
  - destruct Hterm; [|done]. intros n. unfold guarded. by case_decide.
Qed.

End NoFail.

Lemma reachable_set_quiet env graph x l out :
  quiet (reachable_set env graph (x :: l) out).2.
Proof.
  unfold reachable_set. rewrite reachable_body_traverse.
  apply traverse_quiet. intros n. unfold succ_arcs. by case_decide.
Qed.

Lemma returnable_set_quiet env graph reverse_graph x l out :
  quiet (returnable_set env graph reverse_graph (x :: l) out).2.
Proof.
  unfold returnable_set. rewrite returnable_body_traverse.
  apply traverse_quiet. intros n. unfold pred_arcs. by case_decide.
Qed.

Lemma reachable_set_returns C env graph seeds out :
  graph_ok C graph → 0 < C → seeds ≠ [] → seeds_in (number_of_nodes graph) seeds →
  Np.valid out → Np.nrows out = number_of_nodes graph → Np.ncols out = C →
  (reachable_set env graph seeds out).2 = Ret tt.
Proof.
  intros Hok HC Hne Hseeds Hv Hr Hc.
  destruct (traverse_returns (succ_list env graph) (number_of_nodes graph)
              (number_of_nodes graph) C seeds) with (out := out)
    as (s' & Hrun & _);
    [by intros; apply succ_list_ok|by apply seeds_in_both|done..|].
  unfold reachable_set. destruct seeds; [done|].
  rewrite reachable_body_traverse. unfold succ_arcs. fold (guarded (number_of_nodes graph) (succ_list env graph)).
  by rewrite Hrun.
Qed.

Lemma returnable_set_returns C env graph reverse_graph seeds out :
  graph_ok C graph → mirrors reverse_graph graph →
  0 < C → seeds ≠ [] → seeds_in (number_of_nodes graph) seeds →
  Np.valid out → Np.nrows out = number_of_nodes graph → Np.ncols out = C →
  (returnable_set env graph reverse_graph seeds out).2 = Ret tt.
Proof.
  intros Hok Hmir HC Hne Hseeds Hv Hr Hc.
  destruct (traverse_returns (pred_list env graph reverse_graph)
              (number_of_nodes graph) (number_of_nodes graph) C seeds)
    with (out := out) as (s' & Hrun & _);
    [by intros; eapply pred_list_ok|by apply seeds_in_both|done..|].
  unfold returnable_set. destruct seeds; [done|].
  rewrite returnable_body_traverse. unfold pred_arcs.
  destruct Hmir as [-> _].
  fold (guarded (number_of_nodes graph) (pred_list env graph reverse_graph)).
  by rewrite Hrun.
Qed.

(** C5.  Each traversal raises the empty-seed error exactly when the seed
    list is empty, and then leaves [out] as it was (nothing written,
    nothing enqueued); on a non-empty seed list and inputs of the data
    model (graph on the rows of [out], actions within its columns, seeds
    among the nodes) neither traversal fails, whatever [out] holds. *)
Theorem empty_seed_contract C env graph reverse_graph initial_nodes out :
  ((reachable_set env graph initial_nodes out).2 = Raise AttributeError
     ↔ initial_nodes = []) ∧
  ((returnable_set env graph reverse_graph initial_nodes out).2 = Raise AttributeError
     ↔ initial_nodes = []) ∧
  (initial_nodes = [] →
     reachable_set env graph initial_nodes out
       = (mkBfs out [] [], Raise AttributeError) ∧
     returnable_set env graph reverse_graph initial_nodes out
       = (mkBfs out [] [], Raise AttributeError)) ∧
  (initial_nodes ≠ [] →
   graph_ok C graph → mirrors reverse_graph graph → 0 < C →
   seeds_in (number_of_nodes graph) initial_nodes →
   Np.valid out → Np.nrows out = number_of_nodes graph → Np.ncols out = C →
     (reachable_set env graph initial_nodes out).2 = Ret tt ∧
     (returnable_set env graph reverse_graph initial_nodes out).2 = Ret tt).
Proof.
  split_and!.
  - split; [|by intros ->].
    destruct initial_nodes as [|x l]; [done|].
    intros H. by destruct (reachable_set_quiet env graph x l out).
  - split; [|by intros ->].
    destruct initial_nodes as [|x l]; [done|].
    intros H. by destruct (returnable_set_quiet env graph reverse_graph x l out).
  - by intros ->.
  - intros. split.
    + by eapply reachable_set_returns.
    + by eapply returnable_set_returns.
Qed.

Lemma empty_seed_contract_witness :
  (reachable_set no_env line_graph [0] (Np.zeros 3 2)).2 = Ret tt ∧
  (returnable_set no_env line_graph (DiGraph_reverse no_env line_graph) [0]
     (Np.zeros 3 2)).2 = Ret tt.
Proof.
  apply (empty_seed_contract 2 no_env line_graph
           (DiGraph_reverse no_env line_graph) [0] (Np.zeros 3 2)).
  - discriminate.
  - apply line_graph_ok.
  - apply mirrors_reverse.
  - lia.
  - apply Forall_singleton. simpl. lia.
  - apply zeros_valid.
  - reflexivity.
  - reflexivity.
Defined.

(** ** The seed list is frozen *)

Lemma fill_same_shape b m m' :
  Np.same_shape m m' → Np.valid m → Np.valid m' → Np.fill b m = Np.fill b m'.
Proof.
  intros [Hr Hc] Hv Hv'. unfold Np.fill, Np.valid in *.
  rewrite Hv, Hv', Hr, Hc. done.
Qed.

Lemma compute_S_hat_frame {F} env (s : SafeMDP.self F) :
  ∃ r a, (SafeMDP.compute_S_hat env s).1 = SafeMDP.set_S_hat a (SafeMDP.set_reach r s).
Proof.
  unfold SafeMDP.compute_S_hat, SafeMDP.on_reach, SafeMDP.on_S_hat,
    SafeMDP.iand_S_hat_reach, modify, get, mbind, M_bind. simpl.
  destruct (reachable_set _ _ _ _) as [b1 [[]| |]]; simpl;
    [|by exists (visited b1), (SafeMDP.S_hat s); destruct s..].
  destruct (returnable_set _ _ _ _ _) as [b2 [[]| |]]; simpl;
    [|by exists (visited b1), (visited b2)..].
  destruct (Np.iand _ _) as [a|]; simpl.
  - by exists (visited b1), a.
  - by exists (visited b1), (visited b2).
Qed.

Lemma add_gp_observations_frame {F} x_new y_new (s : SafeMDP.self F) :
  ∃ g, (SafeMDP.add_gp_observations x_new y_new s).1 = SafeMDP.set_gp g s.
Proof.
  unfold SafeMDP.add_gp_observations, modify, get, lift, mbind, M_bind. simpl.
  destruct (vstack _ x_new) as [X| |]; simpl;
    [|by exists (SafeMDP.gp s); destruct s..].
  destruct (vstack _ y_new) as [Y| |]; simpl;
    [|by exists (SafeMDP.gp s); destruct s..].
  by eexists.
Qed.

(** C7.  [__init__] computes [initial_nodes] as the indices of the true
    entries of column 0 of the initial matrix, which it keeps in
    [S_hat0]; [compute_S_hat], [add_gp_observations] and the relabelling
    of an edge leave both unchanged, however they end; [compute_S_hat]
    runs both traversals from [initial_nodes]; and replacing the current
    [S_hat] by any other array of its shape changes neither the outcome
    nor the arrays a recomputation produces. *)
Theorem seeds_frozen {F} :
  (∀ env mem_reach mem_G graph (gp : GPRegression F) S_hat0 h L beta s,
     SafeMDP.__init__ env mem_reach mem_G graph gp S_hat0 h L beta = Ret s →
     SafeMDP.S_hat0 s = S_hat0 ∧
     Np.column0_nonzero S_hat0 = Some (SafeMDP.initial_nodes s)) ∧
  (∀ env (s : SafeMDP.self F),
     SafeMDP.initial_nodes (SafeMDP.compute_S_hat env s).1 = SafeMDP.initial_nodes s ∧
     SafeMDP.S_hat0 (SafeMDP.compute_S_hat env s).1 = SafeMDP.S_hat0 s) ∧
  (∀ x_new y_new (s : SafeMDP.self F),
     SafeMDP.initial_nodes (SafeMDP.add_gp_observations x_new y_new s).1
       = SafeMDP.initial_nodes s ∧
     SafeMDP.S_hat0 (SafeMDP.add_gp_observations x_new y_new s).1 = SafeMDP.S_hat0 s) ∧
  (∀ u v b (s : SafeMDP.self F),
     SafeMDP.initial_nodes (relabel u v b s) = SafeMDP.initial_nodes s ∧
     SafeMDP.S_hat0 (relabel u v b s) = SafeMDP.S_hat0 s) ∧
  (∀ env (s : SafeMDP.self F),
     SafeMDP.reach (SafeMDP.compute_S_hat env s).1
       = visited (reachable_set env (SafeMDP.graph s) (SafeMDP.initial_nodes s)
                    (Np.fill false (SafeMDP.reach s))).1 ∧
     ∀ s', SafeMDP.compute_S_hat env s = (s', Ret tt) →
       Np.iand
         (visited (returnable_set env (SafeMDP.graph s) (SafeMDP.graph_reverse s)
                     (SafeMDP.initial_nodes s) (Np.fill false (SafeMDP.S_hat s))).1)
         (SafeMDP.reach s')
       = Some (SafeMDP.S_hat s')) ∧
  (∀ env (s : SafeMDP.self F) a,
     Np.same_shape a (SafeMDP.S_hat s) → Np.valid a → Np.valid (SafeMDP.S_hat s) →
     (SafeMDP.compute_S_hat env (SafeMDP.set_S_hat a s)).2
       = (SafeMDP.compute_S_hat env s).2 ∧
     SafeMDP.reach (SafeMDP.compute_S_hat env (SafeMDP.set_S_hat a s)).1
       = SafeMDP.reach (SafeMDP.compute_S_hat env s).1 ∧
     ((SafeMDP.compute_S_hat env s).2 = Ret tt →
      SafeMDP.compute_S_hat env (SafeMDP.set_S_hat a s) = SafeMDP.compute_S_hat env s)).
Proof.
  split_and!.
  - intros env mem_reach mem_G graph gp S_hat0 h L beta s.
    unfold SafeMDP.__init__. destruct (max_out_degree graph); [|done..].
    unfold Np.copy. destruct (Np.column0_nonzero S_hat0) as [l|]; [|done].
    by intros [= <-].
  - intros env s. destruct (compute_S_hat_frame env s) as (r & a & ->). done.
  - intros x y s. destruct (add_gp_observations_frame x y s) as (g & ->). done.
  - done.
  - intros env s.
    unfold SafeMDP.compute_S_hat, SafeMDP.on_reach, SafeMDP.on_S_hat,
      SafeMDP.iand_S_hat_reach, modify, get, mbind, M_bind. simpl.
    destruct (reachable_set _ _ _ _) as [b1 [[]| |]]; simpl; [|done..].
    destruct (returnable_set _ _ _ _ _) as [b2 [[]| |]]; simpl; [|done..].
    destruct (Np.iand _ _) as [a|] eqn:Ha; simpl; [|done].
    split; [done|]. by intros s' [= <-].
  - intros env s a Hs Hv Hv'.
    unfold SafeMDP.compute_S_hat, SafeMDP.on_reach, SafeMDP.on_S_hat,
      SafeMDP.iand_S_hat_reach, modify, get, mbind, M_bind. simpl.
    destruct (reachable_set _ _ _ _) as [b1 [[]| |]]; simpl; [|done..].
    rewrite (fill_same_shape false a (SafeMDP.S_hat s)) by done.
    destruct (returnable_set _ _ _ _ _) as [b2 [[]| |]]; simpl; [|done..].
    destruct (Np.iand _ _) as [a'|]; simpl; done.
Qed.

(** ** Linking a safe set to the graph *)

Lemma link_edges_spec safe_set es es' :
  link_edges safe_set es = (es', Ret tt) →
  Forall2 (λ e e', e' = mkEdge (src e) (dst e) (action e) (SafeView (src e) (action e)))
          es es'.
Proof.
  revert es'. induction es as [|e es IH]; intros es'; simpl.
  - by intros [= <-].
  - case_decide; [|done].
    destruct (link_edges safe_set es) as [rest' r] eqn:E.
    intros [= <- ->]. constructor; [done|]. by apply IH.
Qed.

Lemma link_edges_returns safe_set es :
  Forall (λ e, action e < Np.ncols safe_set) es →
  ∃ es', link_edges safe_set es = (es', Ret tt).
Proof.
  induction 1 as [|e es He _ [es' IH]]; simpl; [by eexists|].
  rewrite decide_True by done. rewrite IH. by eexists.
Qed.

(** The test of the two loop bodies on an unvisited cell: a safe arc marks
    the cell, an unsafe one leaves the state as it is. *)
Lemma touch_test r c sf t s :
  Np.getitem (visited s) r c = Some false →
  (sf = true → Np.getitem (visited (touch (Arc r c sf t) s).1) r c = Some true) ∧
  (sf = false → touch (Arc r c sf t) s = (s, Ret tt)).
Proof.
  intros Hc. pose proof (touch_cases (Arc r c sf t) s) as H.
  destruct (touch (Arc r c sf t) s) as [s' res].
  inversion H; subst; simpl; try congruence.
  - done.
  - split; [|done]. intros _. by eapply getitem_setitem_eq.
  - split; [|done]. intros _. by eapply getitem_setitem_eq.
  - split; [|done]. intros _.
    eapply getitem_setitem_mono; [done|]. by eapply getitem_setitem_eq.
Qed.

(** C10.  When [link_graph_and_safe_set] returns, every edge has kept its
    endpoints and action and carries the view of [safe_set] at
    [(node, action)].  From then on the test the traversals perform on such
    an edge follows the array as it is at the time of the test, whatever
    has been written into it since: on an unvisited cell
    [(node, action)], the loop body of [reachable_set] (and that of
    [returnable_set], which finds the edge through [get_edge_data]) marks
    the cell when [env[node, action]] is true, and does nothing at all when
    it is not.  The call returns when every action is a column of
    [safe_set]. *)
Theorem link_binds_views safe_set graph :
  (∀ graph',
     link_graph_and_safe_set safe_set graph = (graph', Ret tt) →
     number_of_nodes graph' = number_of_nodes graph ∧
     Forall2 (λ e e', src e' = src e ∧ dst e' = dst e ∧ action e' = action e ∧
                      safe e' = SafeView (src e) (action e))
             (edges graph) (edges graph') ∧
     (∀ e', e' ∈ edges graph' → ∀ env,
       (truth env (safe e') = true ↔
        Np.getitem env (src e') (action e') = Some true) ∧
       succ_arc env e'
         = Arc (src e') (action e')
               (bool_decide (Np.getitem env (src e') (action e') = Some true))
               (dst e')) ∧
     (∀ e' env s, e' ∈ edges graph' →
        Np.getitem (visited s) (src e') (action e') = Some false →
        (Np.getitem env (src e') (action e') = Some true →
         Np.getitem (visited (visit_successor env (src e') e' s).1)
                    (src e') (action e') = Some true) ∧
        (Np.getitem env (src e') (action e') ≠ Some true →
         visit_successor env (src e') e' s = (s, Ret tt))) ∧
     (∀ prev_node node data env s,
        get_edge_data graph' prev_node node = Some data →
        Np.getitem (visited s) prev_node (action data) = Some false →
        (Np.getitem env prev_node (action data) = Some true →
         Np.getitem (visited (visit_predecessor env graph' node prev_node s).1)
                    prev_node (action data) = Some true) ∧
        (Np.getitem env prev_node (action data) ≠ Some true →
         visit_predecessor env graph' node prev_node s = (s, Ret tt)))) ∧
  (Forall (λ e, action e < Np.ncols safe_set) (edges graph) →
   ∃ graph', link_graph_and_safe_set safe_set graph = (graph', Ret tt)).
Proof.
  split.
  - intros graph'. unfold link_graph_and_safe_set.
    destruct (link_edges safe_set (edges graph)) as [es r] eqn:E.
    intros [= <- ->]. simpl. apply link_edges_spec in E.
    assert (∀ e', e' ∈ es → safe e' = SafeView (src e') (action e')) as Hview.
    { intros e' He'. apply list_elem_of_lookup in He' as [i Hi].
      destruct (Forall2_lookup_r _ _ _ _ _ E Hi) as (e & _ & ->). done. }
    assert (∀ e' env, e' ∈ es →
              truth env (safe e') = true ↔
              Np.getitem env (src e') (action e') = Some true) as Hiff.
    { intros e' env He'. rewrite (Hview e' He'). simpl.
      by destruct (Np.getitem env (src e') (action e')) as [[]|]. }
    split; [done|]. split; [|split; [|split]].
    + eapply Forall2_impl; [done|]. by intros e e' ->.
    + intros e' He' env. split; [by apply Hiff|]. unfold succ_arc. f_equal.
      destruct (truth env (safe e')) eqn:Ht.
      * symmetry. apply bool_decide_eq_true. by apply Hiff.
      * symmetry. apply bool_decide_eq_false. intros Hg%Hiff; [|done]. congruence.
    + intros e' env s He' Hc.
      change (visit_successor env (src e') e' s)
        with (touch (Arc (src e') (action e') (truth env (safe e')) (dst e')) s).
      destruct (touch_test (src e') (action e') (truth env (safe e')) (dst e') s Hc)
        as [Hyes Hno].
      split.
      * intros Hg. apply Hyes. by apply Hiff.
      * intros Hg. apply Hno. destruct (truth env (safe e')) eqn:Ht; [|done].
        destruct Hg. by apply Hiff.
    + intros prev_node node data env s Hd Hc.
      unfold visit_predecessor. rewrite Hd.
      apply get_edge_data_Some in Hd as (Hin & Hsrc & _). simpl in Hin.
      destruct (touch_test prev_node (action data) (truth env (safe data))
                  prev_node s Hc) as [Hyes Hno].
      pose proof (Hiff data env Hin) as Hd. rewrite Hsrc in Hd.
      split.
      * intros Hg. apply Hyes. by apply Hd.
      * intros Hg. apply Hno. destruct (truth env (safe data)) eqn:Ht; [|done].
        destruct Hg. by apply Hd.
  - intros Hall. unfold link_graph_and_safe_set.
    destruct (link_edges_returns safe_set (edges graph) Hall) as [es' ->].
    by eexists.
Qed.

(** Link the line graph to an array, then write into the array: on the
    unvisited cell [(0, 1)] the loop body of [reachable_set] marks the cell
    against an array whose cell [(0, 1)] is true, and does nothing against
    one whose cell is false. *)
Lemma link_binds_views_witness :
  ∃ graph' e',
    link_graph_and_safe_set (Np.zeros 3 2) line_graph = (graph', Ret tt) ∧
    edges graph' !! 0 = Some e' ∧
    Np.getitem
      (visited (visit_successor (seed0 true false false) 0 e'
                  (mkBfs (seed0 false false false) [] [])).1) 0 1 = Some true ∧
    visit_successor (Np.zeros 3 2) 0 e' (mkBfs (seed0 false false false) [] [])
      = (mkBfs (seed0 false false false) [] [], Ret tt).
Proof.
  exists linked_line, (mkEdge 0 1 1 (SafeView 0 1)).
  destruct (link_binds_views (Np.zeros 3 2) line_graph) as [Hlinked _].
  destruct (Hlinked linked_line eq_refl) as (_ & _ & _ & Hsucc & _).
  split; [reflexivity|]. split; [reflexivity|]. split.
  - apply (Hsucc (mkEdge 0 1 1 (SafeView 0 1)) (seed0 true false false)
             (mkBfs (seed0 false false false) [] [])).
    + simpl. constructor.
    + reflexivity.
    + reflexivity.
  - apply (Hsucc (mkEdge 0 1 1 (SafeView 0 1)) (Np.zeros 3 2)
             (mkBfs (seed0 false false false) [] [])).
    + simpl. constructor.
    + reflexivity.
    + discriminate.
Defined.

(** A linked edge follows the array: the same linked line graph, the same
    seeds, two contents of the safe set. *)
Example linked_graph_follows_array :
  let linked := (link_graph_and_safe_set (Np.zeros 3 2) line_graph).1 in
  visited (reachable_set (Np.mk 3 2 [false; false; false; false; false; false])
             linked [0] (Np.zeros 3 2)).1
    = Np.mk 3 2 [true; false; false; false; false; false] ∧
  visited (reachable_set (Np.mk 3 2 [false; true; false; true; false; false])
             linked [0] (Np.zeros 3 2)).1
    = Np.mk 3 2 [true; true; true; true; true; false].
Proof. split; reflexivity. Qed.

(** ** The difference kernel *)

Section DifferenceKernelFacts.

Context {F : Type} (add sub mul : F → F → F) (two : F).
Context (dim : nat) (k : list F → list F → F).

Lemma zip_with_fmap_same {A B C D} (f : B → C → D) (g : A → B) (h : A → C) (l : list A) :
  zip_with f (g <$> l) (h <$> l) = (λ x, f (g x) (h x)) <$> l.
Proof. induction l as [|x l IH]; [done|]. simpl. f_equal. apply IH. Qed.

Lemma cols_to_hstack (pairs : list (list F * list F)) :
  Forall (λ p, length p.1 = dim) pairs →
  DifferenceKernel.cols_to dim (DifferenceKernel.hstack pairs) = fst <$> pairs.
Proof.
  unfold DifferenceKernel.cols_to, DifferenceKernel.hstack.
  induction 1 as [|[a1 a2] l Ha _ IH]; [done|]. simpl in Ha.
  simpl. f_equal; [|apply IH]. rewrite <- Ha. apply take_app_length.
Qed.

Lemma cols_from_hstack (pairs : list (list F * list F)) :
  Forall (λ p, length p.1 = dim) pairs →
  DifferenceKernel.cols_from dim (DifferenceKernel.hstack pairs) = snd <$> pairs.
Proof.
  unfold DifferenceKernel.cols_from, DifferenceKernel.hstack.
  induction 1 as [|[a1 a2] l Ha _ IH]; [done|]. simpl in Ha.
  simpl. f_equal; [|apply IH]. rewrite <- Ha. apply drop_app_length.
Qed.

Lemma kern_K_fmap {A B} (f : A → list F) (g : B → list F) (l : list A) (l' : list B) :
  DifferenceKernel.kern_K k (f <$> l) (Some (g <$> l'))
  = (λ a, (λ b, k (f a) (g b)) <$> l') <$> l.
Proof.
  unfold DifferenceKernel.kern_K. simpl. rewrite <- list_fmap_compose.
  apply list_fmap_ext. intros _ a _. simpl. by rewrite <- list_fmap_compose.
Qed.

Lemma kern_K_right {B} (g : B → list F) (xs : list (list F)) (l' : list B) :
  DifferenceKernel.kern_K k xs (Some (g <$> l'))
  = (λ x, (λ b, k x (g b)) <$> l') <$> xs.
Proof.
  unfold DifferenceKernel.kern_K. simpl.
  apply list_fmap_ext. intros _ x _. simpl. by rewrite <- list_fmap_compose.
Qed.

Lemma kern_K_fmap_self {A} (f : A → list F) (l : list A) :
  DifferenceKernel.kern_K k (f <$> l) None
  = (λ a, (λ b, k (f a) (f b)) <$> l) <$> l.
Proof. apply (kern_K_fmap f f l l). Qed.

Lemma np_diag_fmap {A} (g : A → A → F) (pre l : list A) :
  omap id (imap (λ i row, row !! (length pre + i))
                ((λ a, g a <$> (pre ++ l)) <$> l))
  = (λ a, g a a) <$> l.
Proof.
  revert pre. induction l as [|a l IH]; intros pre; [done|].
  simpl. rewrite list_lookup_fmap, Nat.add_0_r, list_lookup_middle by done.
  simpl. f_equal.
  etransitivity; [|apply (IH (pre ++ [a]))].
  rewrite <- app_assoc. simpl. f_equal. apply imap_ext. intros i row _. simpl.
  rewrite length_app. simpl. f_equal. lia.
Qed.

Lemma np_diag_square {A} (g : A → A → F) (l : list A) :
  DifferenceKernel.np_diag ((λ a, g a <$> l) <$> l) = (λ a, g a a) <$> l.
Proof. apply (np_diag_fmap g [] l). Qed.

(** C9.  For every base kernel [k] with input dimension [dim] and all
    queries that hold a pair of points per row: [K] of one query is, at
    [(a, b)], [k(a1,b1) + k(a2,b2) − k(a1,b2) − k(a2,b1)]; [K] of plain
    points [x] against a query is, at [(x, a)], [k(x,a1) − k(x,a2)], which
    for a symmetric kernel (a covariance function) is
    [k(a1,x) − k(a2,x)]; and [Kdiag] of a query is, at [a],
    [k(a1,a1) + k(a2,a2) − 2·k(a1,a2)].  The numbers and their arithmetic
    are arbitrary. *)
Theorem difference_kernel (pairs qs : list (list F * list F)) (xs : list (list F)) :
  Forall (λ p, length p.1 = dim) pairs →
  Forall (λ p, length p.1 = dim) qs →
  DifferenceKernel.K add sub dim k (DifferenceKernel.hstack pairs) None
    = (λ a, (λ b, sub (sub (add (k a.1 b.1) (k a.2 b.2)) (k a.1 b.2)) (k a.2 b.1))
              <$> pairs) <$> pairs ∧
  DifferenceKernel.K add sub dim k xs (Some (DifferenceKernel.hstack qs))
    = (λ x, (λ a, sub (k x a.1) (k x a.2)) <$> qs) <$> xs ∧
  ((∀ a b, k a b = k b a) →
   DifferenceKernel.K add sub dim k xs (Some (DifferenceKernel.hstack qs))
     = (λ x, (λ a, sub (k a.1 x) (k a.2 x)) <$> qs) <$> xs) ∧
  DifferenceKernel.Kdiag add sub mul two dim k (DifferenceKernel.hstack pairs)
    = (λ a, sub (add (k a.1 a.1) (k a.2 a.2)) (mul two (k a.1 a.2))) <$> pairs.
Proof.
  intros Hp Hq.
  assert (DifferenceKernel.K add sub dim k xs (Some (DifferenceKernel.hstack qs))
          = (λ x, (λ a, sub (k x a.1) (k x a.2)) <$> qs) <$> xs) as Hcross.
  { unfold DifferenceKernel.K.
    rewrite (cols_to_hstack qs Hq), (cols_from_hstack qs Hq).
    rewrite !kern_K_right. unfold DifferenceKernel.msub.
    rewrite zip_with_fmap_same.
    apply list_fmap_ext. intros _ x _. simpl. by rewrite zip_with_fmap_same. }
  split_and!.
  - unfold DifferenceKernel.K.
    rewrite (cols_to_hstack pairs Hp), (cols_from_hstack pairs Hp).
    rewrite !kern_K_fmap_self, !kern_K_fmap.
    unfold DifferenceKernel.msub, DifferenceKernel.madd.
    rewrite !zip_with_fmap_same.
    apply list_fmap_ext. intros _ a _. simpl. by rewrite !zip_with_fmap_same.
  - done.
  - intros Hsym. rewrite Hcross.
    apply list_fmap_ext. intros _ x _. simpl.
    apply list_fmap_ext. intros _ a _. simpl. by rewrite !(Hsym x).
  - unfold DifferenceKernel.Kdiag.
    rewrite (cols_to_hstack pairs Hp), (cols_from_hstack pairs Hp).
    rewrite kern_K_fmap. unfold DifferenceKernel.kern_Kdiag.
    rewrite (np_diag_square (λ a b, k a.1 b.2) pairs).
    clear. induction pairs as [|a l IH]; [done|]. simpl. f_equal. apply IH.
Qed.

End DifferenceKernelFacts.

Lemma difference_kernel_witness :
  DifferenceKernel.K Nat.add Nat.sub 1 (λ a b, foldr Nat.add 0 a * foldr Nat.add 0 b)
      (DifferenceKernel.hstack [([3], [1]); ([5], [2])]) None
    = [[4; 6]; [6; 9]] ∧
  DifferenceKernel.K Nat.add Nat.sub 1 (λ a b, foldr Nat.add 0 a * foldr Nat.add 0 b)
      [[2]; [7]] (Some (DifferenceKernel.hstack [([3], [1]); ([5], [2])]))
    = [[4; 6]; [14; 21]] ∧
  DifferenceKernel.Kdiag Nat.add Nat.sub Nat.mul 2 1
      (λ a b, foldr Nat.add 0 a * foldr Nat.add 0 b)
      (DifferenceKernel.hstack [([3], [1]); ([5], [2])])
    = [4; 9].
Proof.
  destruct (difference_kernel Nat.add Nat.sub Nat.mul 2 1
              (λ a b, foldr Nat.add 0 a * foldr Nat.add 0 b)
              [([3], [1]); ([5], [2])] [([3], [1]); ([5], [2])] [[2]; [7]])
    as (H1 & H2 & H3 & H4).
  - repeat constructor.
  - repeat constructor.
  - rewrite H1, H3, H4; [done|]. intros a b. apply Nat.mul_comm.
Defined.

(** ** Monotonicity in the safety labels *)

Lemma closure_mono arcl arcl' seeds i j :
  (∀ n r c t, Arc r c true t ∈ arcl n → Arc r c true t ∈ arcl' n) →
  closure arcl seeds i j → closure arcl' seeds i j.
Proof.
  intros Hsub. induction 1 as [n Hn|n r c t _ IH Hin|n r c t _ IH Hin].
  - by apply closure_seed.
  - eapply closure_cell; [exact IH|]. by apply Hsub.
  - eapply closure_target; [exact IH|]. by apply Hsub.
Qed.

Lemma set_safe_fields u v b e :
  src (set_safe u v b e) = src e ∧ dst (set_safe u v b e) = dst e ∧
  action (set_safe u v b e) = action e.
Proof. unfold set_safe. by case_decide. Qed.

Lemma set_safe_truth env u v b e :
  truth env b = true →
  truth env (safe e) = true → truth env (safe (set_safe u v b e)) = true.
Proof. unfold set_safe. by case_decide. Qed.

Lemma elem_of_set_edge_safe u v b graph e' :
  e' ∈ edges (set_edge_safe u v b graph) ↔
  ∃ e, e ∈ edges graph ∧ e' = set_safe u v b e.
Proof.
  unfold set_edge_safe. simpl. rewrite list_elem_of_fmap.
  split; intros (e & Ha & Hb); by exists e.
Qed.

Lemma set_edge_safe_ok C u v b graph :
  graph_ok C graph → graph_ok C (set_edge_safe u v b graph).
Proof.
  intros [He Ha Hs]. split.
  - intros e' (e & Hin & ->)%elem_of_set_edge_safe.
    destruct (set_safe_fields u v b e) as (-> & -> & _). by apply He.
  - intros e' (e & Hin & ->)%elem_of_set_edge_safe.
    destruct (set_safe_fields u v b e) as (_ & _ & ->). by apply Ha.
  - intros e1' e2' (e1 & H1 & ->)%elem_of_set_edge_safe
      (e2 & H2 & ->)%elem_of_set_edge_safe.
    destruct (set_safe_fields u v b e1) as (-> & -> & _).
    destruct (set_safe_fields u v b e2) as (-> & -> & _).
    intros. f_equal. by apply Hs.
Qed.

Lemma set_edge_safe_one_edge u v b graph :
  one_edge_per_action graph → one_edge_per_action (set_edge_safe u v b graph).
Proof.
  intros Hu e1' e2' (e1 & H1 & ->)%elem_of_set_edge_safe
    (e2 & H2 & ->)%elem_of_set_edge_safe.
  destruct (set_safe_fields u v b e1) as (-> & _ & ->).
  destruct (set_safe_fields u v b e2) as (-> & _ & ->).
  intros. f_equal. by apply Hu.
Qed.

Lemma set_edge_safe_mirrors u v b reverse_graph graph :
  mirrors reverse_graph graph → mirrors reverse_graph (set_edge_safe u v b graph).
Proof.
  intros [Hn Hm]. split; [done|]. intros x y. rewrite Hm. split.
  - intros (e & He & <- & <-). exists (set_safe u v b e).
    destruct (set_safe_fields u v b e) as (-> & -> & _).
    split; [|done]. apply elem_of_set_edge_safe. by exists e.
  - intros (e' & (e & He & ->)%elem_of_set_edge_safe & <- & <-).
    destruct (set_safe_fields u v b e) as (-> & -> & _). by exists e.
Qed.

Lemma set_edge_safe_succ env u v b graph n r c t :
  truth env b = true →
  Arc r c true t ∈ succ_list env graph n →
  Arc r c true t ∈ succ_list env (set_edge_safe u v b graph) n.
Proof.
  intros Hb (e & He & ? & ? & ? & ? & Ht)%elem_of_succ_list.
  apply elem_of_succ_list. exists (set_safe u v b e).
  destruct (set_safe_fields u v b e) as (-> & -> & ->).
  split_and!; [|done..|by apply set_safe_truth].
  apply elem_of_set_edge_safe. by exists e.
Qed.

Lemma set_edge_safe_pred C env u v b graph reverse_graph n r c t :
  graph_ok C graph → mirrors reverse_graph graph →
  truth env b = true →
  Arc r c true t ∈ pred_list env graph reverse_graph n →
  Arc r c true t ∈ pred_list env (set_edge_safe u v b graph) reverse_graph n.
Proof.
  intros Hok Hmir Hb (e & He & ? & ? & ? & ? & Ht)%(elem_of_pred_list C); [|done..].
  apply (elem_of_pred_list C);
    [by apply set_edge_safe_ok|by apply set_edge_safe_mirrors|].
  exists (set_safe u v b e).
  destruct (set_safe_fields u v b e) as (-> & -> & ->).
  split_and!; [|done..|by apply set_safe_truth].
  apply elem_of_set_edge_safe. by exists e.
Qed.

Lemma relabel_ok {F} u v b (s : SafeMDP.self F) : mdp_ok s → mdp_ok (relabel u v b s).
Proof.
  intros [Hg Hmir HC Hrv Hrr Hsv Hss Hseeds Hne]. split; simpl; try done.
  - by apply set_edge_safe_ok.
  - by apply set_edge_safe_mirrors.
Qed.

Lemma mdp_on_ok graph :
  graph_ok 2 graph → number_of_nodes graph = 3 → mdp_ok (mdp_on graph).
Proof.
  intros Hok HN. split; simpl; try done.
  - apply mirrors_reverse.
  - lia.
  - apply Forall_singleton. lia.
Qed.

Lemma twin_action_ok : graph_ok 2 twin_action.
Proof.
  split; simpl.
  - intros e He. each_edge; simpl; lia.
  - intros e He. each_edge; simpl; lia.
  - intros e1 e2 H1 H2. each_edge; simpl; done.
Qed.

Lemma blocked_line_ok : graph_ok 2 blocked_line.
Proof.
  split; simpl.
  - intros e He. each_edge; simpl; lia.
  - intros e He. each_edge; simpl; lia.
  - intros e1 e2 H1 H2. each_edge; simpl; done.
Qed.

Lemma blocked_line_one_edge : one_edge_per_action blocked_line.
Proof. intros e1 e2 H1 H2. simpl in *. each_edge; simpl; done. Qed.

(** C4 as stated ("for every graph") fails: [twin_action] gives a
    well-formed object with the seed 0 in which node 0 has two edges under
    action 1.  While the edge [0 → 1] is unsafe, the edge [0 → 2] is
    followed and node 2 is in [reach] and in [S_hat].  Once [0 → 1] is
    marked safe, it takes the cell [(0, 1)], the edge [0 → 2] is skipped,
    and node 2 is in neither. *)
Lemma monotonicity_fails_on_twin_action :
  let before := mdp_on twin_action in
  let after := relabel 0 1 (SafeBool true) (mdp_on twin_action) in
  mdp_ok before ∧ mdp_ok after ∧
  get_edge_data (SafeMDP.graph before) 0 1 = Some (mkEdge 0 1 1 (SafeBool false)) ∧
  SafeMDP.graph after
    = mkGraph 3 [mkEdge 0 1 1 (SafeBool true); mkEdge 0 2 1 (SafeBool true);
                 mkEdge 2 0 1 (SafeBool true)] ∧
  (SafeMDP.compute_S_hat no_env before).2 = Ret tt ∧
  (SafeMDP.compute_S_hat no_env after).2 = Ret tt ∧
  Np.getitem (SafeMDP.reach (SafeMDP.compute_S_hat no_env before).1) 2 0 = Some true ∧
  Np.getitem (SafeMDP.reach (SafeMDP.compute_S_hat no_env after).1) 2 0 = Some false ∧
  Np.getitem (SafeMDP.S_hat (SafeMDP.compute_S_hat no_env before).1) 2 0 = Some true ∧
  Np.getitem (SafeMDP.S_hat (SafeMDP.compute_S_hat no_env after).1) 2 0 = Some false.
Proof.
  split_and!; try reflexivity.
  - apply mdp_on_ok; [apply twin_action_ok|done].
  - apply relabel_ok, mdp_on_ok; [apply twin_action_ok|done].
Qed.

(** C4, amended.  On a well-formed object whose graph has one edge per
    (node, action) pair, give the edge [u → v] a label that reads as safe
    and keep every other label: both recomputations return, and every cell
    true in [reach] (in [S_hat]) before is true in [reach] (in [S_hat])
    after. *)
Theorem marking_safe_is_monotone {F} env (s : SafeMDP.self F) u v b :
  mdp_ok s → one_edge_per_action (SafeMDP.graph s) → truth env b = true →
  ∃ s1 s2,
    SafeMDP.compute_S_hat env s = (s1, Ret tt) ∧
    SafeMDP.compute_S_hat env (relabel u v b s) = (s2, Ret tt) ∧
    Np.subset (SafeMDP.reach s1) (SafeMDP.reach s2) ∧
    Np.subset (SafeMDP.S_hat s1) (SafeMDP.S_hat s2).
Proof.
  intros Hok Huniq Hb.
  destruct (compute_S_hat_spec env s Hok)
    as (r1 & a1 & Hrun1 & _ & Hsound1 & _ & Ha1).
  destruct (compute_S_hat_spec env (relabel u v b s) (relabel_ok u v b s Hok))
    as (r2 & a2 & Hrun2 & _ & _ & Hcompl2 & Ha2).
  simpl in Hcompl2, Ha2.
  specialize (Hcompl2 (set_edge_safe_one_edge u v b _ Huniq)).
  assert (Np.subset r1 r2) as Hreach.
  { intros i j Hij. apply Hcompl2.
    eapply closure_mono; [|by apply Hsound1].
    intros n r c t. by apply set_edge_safe_succ. }
  eexists. eexists. split; [done|]. split; [done|]. simpl. split; [done|].
  intros i j [Hret Hr1]%Ha1. apply Ha2. split; [|by apply Hreach].
  eapply closure_mono; [|exact Hret].
  intros n r c t. eapply set_edge_safe_pred; [apply (mdp_graph s Hok)|apply (mdp_reverse s Hok)|done].
Qed.

Lemma line_graph_one_edge : one_edge_per_action line_graph.
Proof. intros e1 e2 H1 H2. simpl in *. each_edge; simpl; done. Qed.

(** The edge [0 → 1] of [blocked_line] goes from unsafe to safe: node 1 is
    not in [reach] before and is after. *)
Lemma marking_safe_is_monotone_witness :
  get_edge_data blocked_line 0 1 = Some (mkEdge 0 1 1 (SafeBool false)) ∧
  ∃ s1 s2,
    SafeMDP.compute_S_hat no_env (mdp_on blocked_line) = (s1, Ret tt) ∧
    SafeMDP.compute_S_hat no_env (relabel 0 1 (SafeBool true) (mdp_on blocked_line))
      = (s2, Ret tt) ∧
    Np.subset (SafeMDP.reach s1) (SafeMDP.reach s2) ∧
    Np.subset (SafeMDP.S_hat s1) (SafeMDP.S_hat s2) ∧
    Np.getitem (SafeMDP.reach s1) 1 0 = Some false ∧
    Np.getitem (SafeMDP.reach s2) 1 0 = Some true.
Proof.
  split; [reflexivity|].
  destruct (marking_safe_is_monotone no_env (mdp_on blocked_line) 0 1 (SafeBool true))
    as (s1 & s2 & H1 & H2 & Hr & Hs).
  - apply mdp_on_ok; [apply blocked_line_ok|reflexivity].
  - apply blocked_line_one_edge.
  - reflexivity.
  - exists s1, s2. split; [exact H1|]. split; [exact H2|].
    split; [exact Hr|]. split; [exact Hs|].
    assert (s1 = (SafeMDP.compute_S_hat no_env (mdp_on blocked_line)).1) as E1
      by (rewrite H1; reflexivity).
    assert (s2 = (SafeMDP.compute_S_hat no_env
                    (relabel 0 1 (SafeBool true) (mdp_on blocked_line))).1) as E2
      by (rewrite H2; reflexivity).
    rewrite E1, E2. split; reflexivity.
Defined.

(** Without one edge per (node, action) pair the traversal is not
    monotone: node 0 has two edges labelled with action 1; once the first
    is safe, the second is never followed. *)
Example duplicate_action_breaks_monotonicity :
  let before := mkGraph 3 [mkEdge 0 1 1 (SafeBool false); mkEdge 0 2 1 (SafeBool true)] in
  let after := set_edge_safe 0 1 (SafeBool true) before in
  Np.getitem (visited (reachable_set no_env before [0] (Np.zeros 3 2)).1) 2 0 = Some true ∧
  Np.getitem (visited (reachable_set no_env after [0] (Np.zeros 3 2)).1) 2 0 = Some false.
Proof. split; reflexivity. Qed.

(** ** Returnable set and reachable set of the reverse graph *)

Lemma closure_column0 arcl seeds :
  (∀ n r c t, Arc r c true t ∈ arcl n → c ≠ 0) →
  ∀ i, closure arcl seeds i 0 ↔ conn arcl seeds i.
Proof.
  intros Hc i. split.
  - assert (∀ j, closure arcl seeds i j → j = 0 → conn arcl seeds i) as Hgen;
      [|intros H; by apply (Hgen 0)].
    intros j. induction 1 as [n Hn|n r c t _ IH Hin|n r c t _ IH Hin]; intros Hj.
    + by apply conn_seed.
    + by destruct (Hc n r c t Hin).
    + eapply conn_step; [by apply IH|done].
  - induction 1 as [n Hn|n r c t _ IH Hin].
    + by apply closure_seed.
    + by eapply closure_target.
Qed.

Lemma conn_mono arcl arcl' seeds i :
  (∀ n r c t, Arc r c true t ∈ arcl n → ∃ r' c', Arc r' c' true t ∈ arcl' n) →
  conn arcl seeds i → conn arcl' seeds i.
Proof.
  intros Hsub. induction 1 as [n Hn|n r c t _ IH Hin].
  - by apply conn_seed.
  - destruct (Hsub n r c t Hin) as (r' & c' & Hin'). by eapply conn_step.
Qed.

Lemma closure_action_cell arcl seeds r c :
  (∀ n r c t, Arc r c true t ∈ arcl n → c ≠ 0) → c ≠ 0 →
  closure arcl seeds r c ↔ ∃ n t, conn arcl seeds n ∧ Arc r c true t ∈ arcl n.
Proof.
  intros Harc Hc. split.
  - inversion 1 as [n Hn|n r' c' t Hn Hin|n r' c' t Hn Hin]; subst; [done| |done].
    exists n, t. split; [|done]. by apply closure_column0.
  - intros (n & t & Hn & Hin). eapply closure_cell; [|done].
    by apply closure_column0.
Qed.

Lemma succ_list_columns C env graph :
  graph_ok C graph → ∀ n r c t, Arc r c true t ∈ succ_list env graph n → c ≠ 0.
Proof.
  intros Hok n r c t (e & He & _ & _ & -> & _)%elem_of_succ_list.
  pose proof (ok_actions C graph Hok e He). lia.
Qed.

Lemma pred_list_columns C env graph reverse_graph :
  graph_ok C graph → mirrors reverse_graph graph →
  ∀ n r c t, Arc r c true t ∈ pred_list env graph reverse_graph n → c ≠ 0.
Proof.
  intros Hok Hmir n r c t (e & He & _ & _ & -> & _)%(elem_of_pred_list C); [|done..].
  pose proof (ok_actions C graph Hok e He). lia.
Qed.

Lemma elem_of_reverse_edges env graph e' :
  e' ∈ edges (DiGraph_reverse env graph) ↔
  ∃ e, e ∈ edges graph ∧ e' = reverse_edge env e.
Proof.
  unfold DiGraph_reverse. simpl. rewrite list_elem_of_fmap.
  split; intros (e & Ha & Hb); by exists e.
Qed.

Lemma reverse_ok C env graph : graph_ok C graph → graph_ok C (DiGraph_reverse env graph).
Proof.
  intros [He Ha Hs]. split.
  - intros e' (e & Hin & ->)%elem_of_reverse_edges. simpl.
    destruct (He e Hin). done.
  - intros e' (e & Hin & ->)%elem_of_reverse_edges. simpl. by apply Ha.
  - intros e1' e2' (e1 & H1 & ->)%elem_of_reverse_edges
      (e2 & H2 & ->)%elem_of_reverse_edges. simpl.
    intros. f_equal. by apply Hs.
Qed.

Lemma return_cells_reverse C env env' graph seeds i :
  graph_ok C graph →
  return_cells env graph (DiGraph_reverse env' graph) seeds i 0 ↔
  reach_cells env (DiGraph_reverse env graph) seeds i 0.
Proof.
  intros Hok. unfold return_cells, reach_cells.
  pose proof (mirrors_reverse env' graph) as Hmir.
  rewrite !closure_column0.
  - split; apply conn_mono; intros n r c t.
    + intros (e & He & ? & ? & ? & ? & Ht)%(elem_of_pred_list C); [|done..].
      exists n, (action e). apply elem_of_succ_list. exists (reverse_edge env e).
      simpl. split_and!; try done.
      apply elem_of_reverse_edges. by exists e.
    + intros (e' & (e & He & ->)%elem_of_reverse_edges & ? & ? & ? & ? & Ht)%elem_of_succ_list.
      simpl in *. exists (src e), (action e).
      apply (elem_of_pred_list C); [done..|]. by exists e.
  - intros n r c t (e' & (e & He & ->)%elem_of_reverse_edges & ? & ? & -> & ? & _)%elem_of_succ_list.
    simpl. pose proof (ok_actions C graph Hok e He). lia.
  - intros n r c t (e & He & ? & ? & -> & ? & _)%(elem_of_pred_list C); [|done..].
    pose proof (ok_actions C graph Hok e He). lia.
Qed.

(** C6 as stated fails: [fan_in] is a graph of the data model (one edge per
    (node, action) pair), yet from the seed 0 [returnable_set] marks node
    2 and [reachable_set] on the reverse graph does not: there node 0 has
    two edges under action 1, and the second is skipped. *)
Lemma symmetry_fails_on_fan_in :
  graph_ok 2 fan_in ∧ one_edge_per_action fan_in ∧
  Np.getitem
    (visited (returnable_set no_env fan_in (DiGraph_reverse no_env fan_in) [0]
                (Np.zeros 3 2)).1) 2 0 = Some true ∧
  Np.getitem
    (visited (reachable_set no_env (DiGraph_reverse no_env fan_in) [0]
                (Np.zeros 3 2)).1) 2 0 = Some false.
Proof.
  split_and!; [| |reflexivity..].
  - split; simpl.
    + intros e He. each_edge; simpl; lia.
    + intros e He. each_edge; simpl; lia.
    + intros e1 e2 H1 H2. each_edge; simpl; done.
  - intros e1 e2 H1 H2. simpl in *. each_edge; simpl; done.
Qed.

Lemma elem_of_succ_list_reverse env graph n r c t :
  Arc r c true t ∈ succ_list env (DiGraph_reverse env graph) n ↔
  ∃ e, e ∈ edges graph ∧ dst e = n ∧ r = n ∧ c = action e ∧ t = src e ∧
       truth env (safe e) = true.
Proof.
  rewrite elem_of_succ_list. split.
  - intros (e' & (e & He & ->)%elem_of_reverse_edges & ? & ? & ? & ? & Ht).
    simpl in *. by exists e.
  - intros (e & He & ? & ? & ? & ? & Ht). exists (reverse_edge env e).
    simpl. split_and!; try done. apply elem_of_reverse_edges. by exists e.
Qed.

(** C6, amended.  On a graph of the data model, with seeds among its nodes
    and a blank [out] of the right shape, [returnable_set] on the graph and
    [reachable_set] on its reverse both return.  Every node the latter
    marks in column 0 the former marks too, and an action cell [(n, a)]
    the latter marks comes from a safe edge into [n] under [a] whose cell
    the former marks at the tail of the edge.  When no two edges entering
    one node carry the same action (the reverse graph has one edge per
    (node, action) pair), the two mark exactly the same nodes in column 0,
    and the former marks [(n, a)] exactly when [n] has a safe edge under
    [a] whose cell the latter marks at the head of the edge.  When the
    graph too has one edge per (node, action) pair, the action cells
    correspond edge by edge: the former marks the cell of an edge at its
    tail exactly when the latter marks it at its head. *)
Theorem returnable_is_reachable_on_reverse C env graph seeds out :
  graph_ok C graph → 0 < C → seeds ≠ [] →
  seeds_in (number_of_nodes graph) seeds →
  Np.valid out → Np.nrows out = number_of_nodes graph → Np.ncols out = C →
  blank out →
  ∃ s_ret s_rev,
    returnable_set env graph (DiGraph_reverse env graph) seeds out = (s_ret, Ret tt) ∧
    reachable_set env (DiGraph_reverse env graph) seeds out = (s_rev, Ret tt) ∧
    (∀ n, Np.getitem (visited s_rev) n 0 = Some true →
          Np.getitem (visited s_ret) n 0 = Some true) ∧
    (∀ n a, a ≠ 0 → Np.getitem (visited s_rev) n a = Some true →
       ∃ e, e ∈ edges graph ∧ dst e = n ∧ action e = a ∧
            truth env (safe e) = true ∧
            Np.getitem (visited s_ret) (src e) a = Some true) ∧
    (one_edge_per_action (DiGraph_reverse env graph) →
     (∀ n, Np.getitem (visited s_ret) n 0 = Some true ↔
           Np.getitem (visited s_rev) n 0 = Some true) ∧
     (∀ n a, a ≠ 0 →
        Np.getitem (visited s_ret) n a = Some true ↔
        ∃ e, e ∈ edges graph ∧ src e = n ∧ action e = a ∧
             truth env (safe e) = true ∧
             Np.getitem (visited s_rev) (dst e) a = Some true) ∧
     (one_edge_per_action graph →
      ∀ e, e ∈ edges graph →
        Np.getitem (visited s_ret) (src e) (action e) = Some true ↔
        Np.getitem (visited s_rev) (dst e) (action e) = Some true)).
Proof.
  intros Hok HC Hne Hseeds Hv Hr Hc Hb.
  pose proof (mirrors_reverse env graph) as Hmir.
  destruct (returnable_set_spec C env graph (DiGraph_reverse env graph) seeds out)
    as (s_ret & Hrun1 & _ & _ & Hret); [done..|].
  destruct (reachable_set_spec C env (DiGraph_reverse env graph) seeds out)
    as (s_rev & Hrun2 & _ & _ & Hsound & Hcompl);
    [by apply reverse_ok|done..|].
  unfold return_cells in Hret. unfold reach_cells in Hsound, Hcompl.
  pose proof (λ i, return_cells_reverse C env env graph seeds i Hok) as Hcol0.
  unfold return_cells, reach_cells in Hcol0.
  assert (∀ n r c t,
            Arc r c true t ∈ succ_list env (DiGraph_reverse env graph) n → c ≠ 0)
    as Hsc by (apply (succ_list_columns C); by apply reverse_ok).
  pose proof (pred_list_columns C env graph _ Hok Hmir) as Hpc.
  (* a safe edge whose head is marked by the reverse run is marked at its
     tail by the returnable run *)
  assert (∀ e, e ∈ edges graph → truth env (safe e) = true →
            closure (succ_list env (DiGraph_reverse env graph)) seeds (dst e) 0 →
            Np.getitem (visited s_ret) (src e) (action e) = Some true) as Hedge.
  { intros e He Ht Hd. apply Hret.
    eapply (closure_cell _ _ (dst e) _ _ (src e)); [by apply Hcol0|].
    apply (elem_of_pred_list C); [done..|]. by exists e. }
  (* a cell the reverse run marks lies at the head of a safe edge *)
  assert (∀ n a, a ≠ 0 → Np.getitem (visited s_rev) n a = Some true →
            ∃ e, e ∈ edges graph ∧ dst e = n ∧ action e = a ∧
                 truth env (safe e) = true ∧
                 closure (succ_list env (DiGraph_reverse env graph)) seeds n 0)
    as Hrev.
  { intros n a Ha Hn. apply Hsound in Hn.
    apply closure_action_cell in Hn as (m & t & Hm & Hin); [|done..].
    apply elem_of_succ_list_reverse in Hin as (e & He & <- & -> & -> & -> & Ht).
    exists e. split_and!; try done. by apply closure_column0. }
  assert (∀ n a, a ≠ 0 → Np.getitem (visited s_rev) n a = Some true →
            ∃ e, e ∈ edges graph ∧ dst e = n ∧ action e = a ∧
                 truth env (safe e) = true ∧
                 Np.getitem (visited s_ret) (src e) a = Some true) as Hcells.
  { intros n a Ha Hn.
    destruct (Hrev n a Ha Hn) as (e & He & <- & <- & Ht & Hd).
    exists e. split_and!; try done. by apply Hedge. }
  exists s_ret, s_rev. split; [done|]. split; [done|]. split; [|split; [done|]].
  - intros n Hn. apply Hret. apply Hcol0. by apply Hsound.
  - intros Huniq.
    assert (∀ n a, a ≠ 0 →
              Np.getitem (visited s_ret) n a = Some true ↔
              ∃ e, e ∈ edges graph ∧ src e = n ∧ action e = a ∧
                   truth env (safe e) = true ∧
                   Np.getitem (visited s_rev) (dst e) a = Some true) as Hiff.
    { intros n a Ha. split.
      - intros Hn. apply Hret in Hn.
        apply closure_action_cell in Hn as (m & t & Hm & Hin); [|done..].
        apply (elem_of_pred_list C) in Hin as (e & He & <- & -> & -> & _ & Ht);
          [|done..].
        exists e. split_and!; try done. apply Hcompl; [done|].
        eapply (closure_cell _ _ (dst e) _ _ (src e)).
        + apply Hcol0. by apply closure_column0.
        + apply elem_of_succ_list_reverse. by exists e.
      - intros (e & He & <- & <- & Ht & Hd).
        destruct (Hrev (dst e) (action e) Ha Hd) as (e' & _ & _ & _ & _ & Hd').
        by apply Hedge. }
    split_and!.
    + intros n. rewrite Hret, Hcol0. split; [by apply Hcompl|apply Hsound].
    + done.
    + intros HuniqG e He.
      assert (action e ≠ 0) as Ha
        by (pose proof (ok_actions C graph Hok e He); lia).
      split.
      * intros (e2 & He2 & Hs2 & Ha2 & Ht2 & Hd2)%(Hiff _ _ Ha).
        assert (e2 = e) as <- by (by apply HuniqG). done.
      * intros (e' & He' & Hd' & Ha' & Ht' & Hs')%(Hcells _ _ Ha).
        assert (reverse_edge env e' = reverse_edge env e) as Heq.
        { apply Huniq; [apply elem_of_reverse_edges; by exists e'
                       |apply elem_of_reverse_edges; by exists e|done..]. }
        assert (src e' = src e) as <- by (by injection Heq).
        done.
Qed.

(** On the line graph from the seed 2 the returnable run walks back to
    nodes 1 and 0, and so does the reachable run on the reverse graph. *)
Lemma returnable_is_reachable_on_reverse_witness :
  ∃ s_ret s_rev,
    returnable_set no_env line_graph (DiGraph_reverse no_env line_graph) [2]
      (Np.zeros 3 2) = (s_ret, Ret tt) ∧
    reachable_set no_env (DiGraph_reverse no_env line_graph) [2] (Np.zeros 3 2)
      = (s_rev, Ret tt) ∧
    (∀ n, Np.getitem (visited s_ret) n 0 = Some true ↔
          Np.getitem (visited s_rev) n 0 = Some true) ∧
    (∀ e, e ∈ edges line_graph →
       Np.getitem (visited s_ret) (src e) (action e) = Some true ↔
       Np.getitem (visited s_rev) (dst e) (action e) = Some true) ∧
    Np.getitem (visited s_ret) 0 0 = Some true ∧
    Np.getitem (visited s_rev) 0 0 = Some true.
Proof.
  destruct (returnable_is_reachable_on_reverse 2 no_env line_graph [2] (Np.zeros 3 2))
    as (s_ret & s_rev & H1 & H2 & _ & _ & Huniq).
  - apply line_graph_ok.
  - lia.
  - discriminate.
  - apply Forall_singleton. simpl. lia.
  - apply zeros_valid.
  - reflexivity.
  - reflexivity.
  - intros i j Hij. by apply getitem_zeros_inv in Hij.
  - destruct Huniq as (Hcol0 & _ & Hedges).
    { intros e1 e2 He1 He2. simpl in *. each_edge; simpl; done. }
    exists s_ret, s_rev. split; [exact H1|]. split; [exact H2|].
    split; [exact Hcol0|]. split; [apply Hedges, line_graph_one_edge|].
    assert (s_ret = (returnable_set no_env line_graph
                       (DiGraph_reverse no_env line_graph) [2] (Np.zeros 3 2)).1)
      as E1 by (rewrite H1; reflexivity).
    assert (s_rev = (reachable_set no_env (DiGraph_reverse no_env line_graph) [2]
                       (Np.zeros 3 2)).1)
      as E2 by (rewrite H2; reflexivity).
    rewrite E1, E2. split; reflexivity.
Defined.

(** * Further properties of the code *)

(** ** The traversals only add to the array *)

Lemma grows_refl v : grows v v.
Proof. by repeat split. Qed.

Lemma grows_trans v1 v2 v3 : grows v1 v2 → grows v2 v3 → grows v1 v3.
Proof.
  intros (Hr & Hc & Hl & Hm) (Hr' & Hc' & Hl' & Hm').
  repeat split; [congruence..|]. intros i j Hij. by apply Hm', Hm.
Qed.

Lemma grows_setitem v i j v' : Np.setitem v i j true = Some v' → grows v v'.
Proof.
  intros H. destruct (setitem_shape _ _ _ _ _ H) as [Hr Hc].
  repeat split; [done..| |].
  - apply setitem_Some_inv in H as [_ ->]. simpl. by rewrite length_insert.
  - intros i' j'. by apply (getitem_setitem_mono _ _ _ _ _ _ H).
Qed.

Lemma grows_is_Some v v' i j :
  grows v v' → is_Some (Np.getitem v i j) → is_Some (Np.getitem v' i j).
Proof.
  intros (Hr & Hc & Hl & _). unfold Np.getitem. rewrite Hr, Hc.
  case_decide; [|done].
  rewrite (lookup_lt_is_Some (Np.data v)), (lookup_lt_is_Some (Np.data v')). lia.
Qed.

Lemma touch_grows a s : grows (visited s) (visited (touch a s).1).
Proof.
  destruct (touch_cases a s) as
    [| | | |r c t v1 _ H1 _|r c t v1 _ H1 _|r c t v1 v2 _ H1 _ H2];
    simpl; try apply grows_refl.
  - by eapply grows_setitem.
  - by eapply grows_setitem.
  - eapply grows_trans; by eapply grows_setitem.
Qed.

Lemma for_each_grows {X} (l : list X) (body : X → M bfs unit) :
  (∀ x s, grows (visited s) (visited (body x s).1)) →
  ∀ s, grows (visited s) (visited (for_each l body s).1).
Proof.
  intros Hbody. induction l as [|x l IH]; intros s; [apply grows_refl|].
  simpl. unfold mbind, M_bind. specialize (Hbody x s).
  destruct (body x s) as [s' [[]| |]]; simpl in *; [|done..].
  eapply grows_trans; [done|apply IH].
Qed.

Lemma while_stack_grows fuel (body : nat → M bfs unit) :
  (∀ n s, grows (visited s) (visited (body n s).1)) →
  ∀ s, grows (visited s) (visited (while_stack fuel body s).1).
Proof.
  intros Hbody. induction fuel as [|fuel IH]; intros s; simpl.
  - destruct (stack s); apply grows_refl.
  - destruct (stack s) as [|node rest]; [apply grows_refl|].
    specialize (Hbody node (mkBfs (visited s) rest (trace s))).
    destruct (body node _) as [s' [[]| |]]; simpl in *; [|done..].
    eapply grows_trans; [done|apply IH].
Qed.

Lemma mark_grows i j s : grows (visited s) (visited (mark i j s).1).
Proof.
  unfold mark. destruct (Np.setitem (visited s) i j true) eqn:E; simpl.
  - by eapply grows_setitem.
  - apply grows_refl.
Qed.

Lemma sweep_grows arcs node s : grows (visited s) (visited (sweep arcs node s).1).
Proof.
  unfold sweep, lift, mbind, M_bind.
  destruct (arcs node); simpl; [|apply grows_refl..].
  apply for_each_grows. apply touch_grows.
Qed.

Lemma for_each_mark_marked rows j s s' :
  for_each rows (λ i, mark i j) s = (s', Ret tt) →
  ∀ i, i ∈ rows → Np.getitem (visited s') i j = Some true.
Proof.
  revert s. induction rows as [|x rows IH]; intros s Hrun i Hi;
    [by apply elem_of_nil in Hi|].
  simpl in Hrun. unfold mbind, M_bind, mark at 1 in Hrun.
  destruct (Np.setitem (visited s) x j true) as [v|] eqn:Hv; [|done].
  apply elem_of_cons in Hi as [->|Hi]; [|by eapply IH].
  pose proof (for_each_grows rows (λ i, mark i j) (λ i s0, mark_grows i j s0)
                (mkBfs v (stack s) (Mark x j :: trace s))) as Hg.
  rewrite Hrun in Hg. simpl in Hg. destruct Hg as (_ & _ & _ & Hg).
  apply Hg. by eapply getitem_setitem_eq.
Qed.

Lemma traverse_grows arcs rows s :
  grows (visited s) (visited (traverse arcs rows s).1) ∧
  ((traverse arcs rows s).2 = Ret tt →
   ∀ n, n ∈ rows → Np.getitem (visited (traverse arcs rows s).1) n 0 = Some true).
Proof.
  unfold traverse, mbind, M_bind, mark_rows.
  case_decide; [|split; [apply grows_refl|done]].
  pose proof (for_each_grows rows (λ i, mark i 0) (λ i s0, mark_grows i 0 s0) s) as Hg1.
  pose proof (for_each_mark_marked rows 0 s) as Hm.
  destruct (for_each rows _ s) as [s1 [[]| |]]; simpl in *; [|by split..].
  unfold run_queue.
  match goal with |- context [while_stack ?f ?b ?s0] =>
    pose proof (while_stack_grows f b (sweep_grows arcs) s0) as Hg2 end.
  simpl in Hg2. split.
  - by eapply grows_trans.
  - intros _ n Hn. destruct Hg2 as (_ & _ & _ & Hg2). apply Hg2. by eapply Hm.
Qed.

(** X1.  Whatever the graph, the seeds and the array, and however the call
    ends, a traversal leaves [out] with its shape and with every cell that
    was true still true; and when it returns, column 0 of every seed is
    true. *)
Theorem traversals_only_add env graph reverse_graph initial_nodes out :
  (let sr := reachable_set env graph initial_nodes out in
   grows out (visited sr.1) ∧
   (sr.2 = Ret tt →
    ∀ n, n ∈ initial_nodes → Np.getitem (visited sr.1) n 0 = Some true)) ∧
  (let sr := returnable_set env graph reverse_graph initial_nodes out in
   grows out (visited sr.1) ∧
   (sr.2 = Ret tt →
    ∀ n, n ∈ initial_nodes → Np.getitem (visited sr.1) n 0 = Some true)).
Proof.
  unfold reachable_set, returnable_set.
  destruct initial_nodes as [|x l]; [by split; split; try apply grows_refl|].
  rewrite reachable_body_traverse, returnable_body_traverse.
  split; apply (traverse_grows _ (x :: l) (mkBfs out [] [])).
Qed.

Lemma reachable_set_grows env graph seeds out :
  grows out (visited (reachable_set env graph seeds out).1) ∧
  ((reachable_set env graph seeds out).2 = Ret tt →
   ∀ n, n ∈ seeds →
     Np.getitem (visited (reachable_set env graph seeds out).1) n 0 = Some true).
Proof.
  unfold reachable_set. destruct seeds as [|x l]; [by split; try apply grows_refl|].
  rewrite reachable_body_traverse. apply (traverse_grows _ (x :: l) (mkBfs out [] [])).
Qed.

Lemma returnable_set_grows env graph reverse_graph seeds out :
  grows out (visited (returnable_set env graph reverse_graph seeds out).1) ∧
  ((returnable_set env graph reverse_graph seeds out).2 = Ret tt →
   ∀ n, n ∈ seeds →
     Np.getitem (visited (returnable_set env graph reverse_graph seeds out).1) n 0
       = Some true).
Proof.
  unfold returnable_set. destruct seeds as [|x l]; [by split; try apply grows_refl|].
  rewrite returnable_body_traverse. apply (traverse_grows _ (x :: l) (mkBfs out [] [])).
Qed.

(** The three steps behind a call of [compute_S_hat] that returns. *)
Lemma compute_S_hat_Ret {F} env (s s' : SafeMDP.self F) :
  SafeMDP.compute_S_hat env s = (s', Ret tt) →
  ∃ b1 b2 a,
    reachable_set env (SafeMDP.graph s) (SafeMDP.initial_nodes s)
      (Np.fill false (SafeMDP.reach s)) = (b1, Ret tt) ∧
    returnable_set env (SafeMDP.graph s) (SafeMDP.graph_reverse s)
      (SafeMDP.initial_nodes s) (Np.fill false (SafeMDP.S_hat s)) = (b2, Ret tt) ∧
    Np.iand (visited b2) (visited b1) = Some a ∧
    s' = SafeMDP.set_S_hat a (SafeMDP.set_reach (visited b1) s).
Proof.
  unfold SafeMDP.compute_S_hat, SafeMDP.on_reach, SafeMDP.on_S_hat,
    SafeMDP.iand_S_hat_reach, modify, get, mbind, M_bind. simpl.
  destruct (reachable_set _ _ _ _) as [b1 [[]| |]]; simpl; [|done..].
  destruct (returnable_set _ _ _ _ _) as [b2 [[]| |]]; simpl; [|done..].
  destruct (Np.iand _ _) as [a|] eqn:Ha; simpl; [|done].
  intros [= <-]. by exists b1, b2, a.
Qed.

(** ** Seeds stay safe, and a second call changes nothing *)

(** X2.  Whenever [compute_S_hat] returns, column 0 of every initial node
    is true in [reach] and in [S_hat], whatever the graph and the labels. *)
Theorem compute_S_hat_keeps_seeds {F} env (s s' : SafeMDP.self F) :
  SafeMDP.compute_S_hat env s = (s', Ret tt) →
  ∀ n, n ∈ SafeMDP.initial_nodes s →
    Np.getitem (SafeMDP.reach s') n 0 = Some true ∧
    Np.getitem (SafeMDP.S_hat s') n 0 = Some true.
Proof.
  intros (b1 & b2 & a & H1 & H2 & Ha & ->)%compute_S_hat_Ret n Hn. simpl.
  destruct (reachable_set_grows env (SafeMDP.graph s) (SafeMDP.initial_nodes s)
              (Np.fill false (SafeMDP.reach s))) as [_ Hs1].
  destruct (returnable_set_grows env (SafeMDP.graph s) (SafeMDP.graph_reverse s)
              (SafeMDP.initial_nodes s) (Np.fill false (SafeMDP.S_hat s))) as [_ Hs2].
  rewrite H1 in Hs1. rewrite H2 in Hs2. simpl in *.
  split; [by apply Hs1|].
  apply (getitem_iand_iff _ _ _ n 0 Ha). split; [by apply Hs2|by apply Hs1].
Qed.

Lemma compute_S_hat_keeps_seeds_witness :
  Np.getitem (SafeMDP.reach (SafeMDP.compute_S_hat no_env scenario_mdp).1) 0 0
    = Some true ∧
  Np.getitem (SafeMDP.S_hat (SafeMDP.compute_S_hat no_env scenario_mdp).1) 0 0
    = Some true.
Proof.
  apply (compute_S_hat_keeps_seeds no_env scenario_mdp
           (SafeMDP.compute_S_hat no_env scenario_mdp).1).
  - reflexivity.
  - simpl. constructor.
Defined.

Lemma fill_grows b m v : grows (Np.fill b m) v → Np.fill b v = Np.fill b m.
Proof.
  intros (Hr & Hc & Hl & _). unfold Np.fill in *. simpl in *.
  rewrite length_replicate in Hl. by rewrite Hr, Hc, Hl.
Qed.

(** X3.  On arrays that are well formed (as numpy arrays are), a call of
    [compute_S_hat] that returns leaves an object on which a second call
    returns and changes nothing. *)
Theorem compute_S_hat_idempotent {F} env (s s' : SafeMDP.self F) :
  Np.valid (SafeMDP.reach s) → Np.valid (SafeMDP.S_hat s) →
  SafeMDP.compute_S_hat env s = (s', Ret tt) →
  SafeMDP.compute_S_hat env s' = (s', Ret tt).
Proof.
  intros Hvr Hvs Hrun.
  destruct (compute_S_hat_Ret env s s' Hrun) as (b1 & b2 & a & H1 & H2 & Ha & ->).
  destruct (reachable_set_grows env (SafeMDP.graph s) (SafeMDP.initial_nodes s)
              (Np.fill false (SafeMDP.reach s))) as [Hg1 _].
  destruct (returnable_set_grows env (SafeMDP.graph s) (SafeMDP.graph_reverse s)
              (SafeMDP.initial_nodes s) (Np.fill false (SafeMDP.S_hat s))) as [Hg2 _].
  rewrite H1 in Hg1. rewrite H2 in Hg2. simpl in Hg1, Hg2.
  assert (Np.fill false a = Np.fill false (SafeMDP.S_hat s)) as Hfa.
  { destruct Hg1 as (Hr1 & Hc1 & Hl1 & _). destruct Hg2 as (Hr2 & Hc2 & Hl2 & _).
    unfold Np.iand in Ha. case_decide as Hsh; [|done]. injection Ha as <-.
    destruct Hsh as [Hr Hc]. unfold Np.fill, Np.valid in *. simpl in *.
    rewrite length_replicate in Hl1, Hl2.
    rewrite length_zip_with, Hr2, Hc2. do 2 f_equal. nia. }
  unfold SafeMDP.compute_S_hat, SafeMDP.on_reach, SafeMDP.on_S_hat,
    SafeMDP.iand_S_hat_reach, modify, get, mbind, M_bind. simpl.
  rewrite (fill_grows false _ _ Hg1), H1. simpl.
  rewrite Hfa, H2. simpl. rewrite Ha. done.
Qed.

Lemma compute_S_hat_idempotent_witness :
  SafeMDP.compute_S_hat no_env (SafeMDP.compute_S_hat no_env scenario_mdp).1
    = ((SafeMDP.compute_S_hat no_env scenario_mdp).1, Ret tt).
Proof.
  apply (compute_S_hat_idempotent no_env scenario_mdp).
  - apply empty_valid.
  - reflexivity.
  - reflexivity.
Defined.

(** ** The work of a traversal is bounded by the size of the array *)

Lemma NoDup_below_length (l : list nat) (k : nat) :
  NoDup l → (∀ x, x ∈ l → x < k) → length l ≤ k.
Proof.
  intros Hnd Hlt.
  transitivity (length (seq 0 k)); [|by rewrite length_seq].
  apply submseteq_length, NoDup_submseteq; [done|].
  intros x Hx. apply elem_of_seq. specialize (Hlt x Hx). lia.
Qed.

Lemma NoDup_cells_length (l : list (nat * nat)) (R C : nat) :
  NoDup l → (∀ i j, (i, j) ∈ l → i < R ∧ j < C) → length l ≤ R * C.
Proof.
  intros Hnd Hin.
  rewrite <- (length_fmap (λ p : nat * nat, p.1 * C + p.2)).
  apply NoDup_below_length.
  - apply NoDup_fmap_2_strong; [|done].
    intros [i j] [i' j'] H1 H2 Heq. simpl in Heq.
    destruct (Hin i j H1), (Hin i' j' H2).
    destruct (offset_inj C i j i' j'); [done..|]. by subst.
  - intros x ([i j] & -> & Hij)%list_elem_of_fmap. simpl.
    destruct (Hin i j Hij).
    assert ((i + 1) * C ≤ R * C) by (apply Nat.mul_le_mono_r; lia). nia.
Qed.

Lemma traverse_work arcs rows out :
  (∀ n, arcs n ≠ Diverge) → NoDup rows →
  let sr := traverse arcs rows (mkBfs out [] []) in
  length (marks (trace sr.1)) ≤ Np.nrows out * Np.ncols out ∧
  length (pushes (trace sr.1)) ≤ Np.nrows out.
Proof.
  intros Harcs Hnd.
  destruct (traverse_once arcs rows out Harcs Hnd) as (_ & [Hm Hp Hmd Hpd] & _).
  destruct (traverse_grows arcs rows (mkBfs out [] [])) as [(Hr & Hc & _) _].
  simpl in *. split.
  - apply NoDup_cells_length; [done|].
    intros i j Hij. apply Hmd, getitem_Some_range in Hij. lia.
  - apply NoDup_below_length; [done|].
    intros n Hn. apply Hpd, getitem_Some_range in Hn. lia.
Qed.

(** X4.  From a duplicate-free seed list, on any graph and any array and
    however the call ends, a traversal assigns at most [rows × columns]
    cells of [out] and enqueues at most [rows] nodes, the seeds
    included. *)
Theorem traversal_work_bound env graph reverse_graph initial_nodes out :
  NoDup initial_nodes →
  (let sr := reachable_set env graph initial_nodes out in
   length (marks (trace sr.1)) ≤ Np.nrows out * Np.ncols out ∧
   length (pushes (trace sr.1)) ≤ Np.nrows out) ∧
  (let sr := returnable_set env graph reverse_graph initial_nodes out in
   length (marks (trace sr.1)) ≤ Np.nrows out * Np.ncols out ∧
   length (pushes (trace sr.1)) ≤ Np.nrows out).
Proof.
  intros Hnd. unfold reachable_set, returnable_set.
  destruct initial_nodes as [|x l]; [simpl; lia|].
  rewrite reachable_body_traverse, returnable_body_traverse.
  split; apply traverse_work; try done.
  - apply succ_arcs_no_diverge.
  - apply pred_arcs_no_diverge.
Qed.

Lemma traversal_work_bound_witness :
  (let sr := reachable_set no_env line_graph [0] (Np.zeros 3 2) in
   length (marks (trace sr.1)) ≤ 3 * 2 ∧ length (pushes (trace sr.1)) ≤ 3) ∧
  (let sr := returnable_set no_env line_graph (DiGraph_reverse no_env line_graph)
               [0] (Np.zeros 3 2) in
   length (marks (trace sr.1)) ≤ 3 * 2 ∧ length (pushes (trace sr.1)) ≤ 3).
Proof.
  apply (traversal_work_bound no_env line_graph (DiGraph_reverse no_env line_graph)
           [0] (Np.zeros 3 2)).
  apply NoDup_singleton.
Defined.

(** ** [max_out_degree] *)

Lemma foldr_max_spec (d : nat) (ds : list nat) :
  (∀ x, x ∈ d :: ds → x ≤ foldr Nat.max d ds) ∧ foldr Nat.max d ds ∈ d :: ds.
Proof.
  induction ds as [|y ds [IHle IHin]]; simpl.
  - split; [|by left]. intros x Hx. apply list_elem_of_singleton in Hx. lia.
  - split.
    + intros x [->|[->|Hx]%elem_of_cons]%elem_of_cons.
      * specialize (IHle d ltac:(by left)). lia.
      * lia.
      * specialize (IHle x ltac:(by right)). lia.
    + destruct (Nat.max_spec y (foldr Nat.max d ds)) as [[_ ->]|[_ ->]].
      * apply elem_of_cons in IHin as [->|?]; [by left|]. right. by right.
      * right. by left.
Qed.

(** X5.  [max_out_degree] raises (Python's ValueError, from [max] of an
    empty sequence) exactly on a graph without nodes; on any other graph
    it returns a number that no node's out-degree exceeds and that the
    out-degree of some node equals. *)
Theorem max_out_degree_spec graph :
  (max_out_degree graph = Raise ValueError ↔ number_of_nodes graph = 0) ∧
  (0 < number_of_nodes graph →
   ∃ d, max_out_degree graph = Ret d ∧
        (∀ n, n < number_of_nodes graph → out_degree graph n ≤ d) ∧
        (∃ n, n < number_of_nodes graph ∧ out_degree graph n = d)).
Proof.
  unfold max_out_degree.
  destruct (number_of_nodes graph) as [|N] eqn:EN.
  - split; [done|lia].
  - split; [done|]. intros _.
    remember (out_degree graph <$> seq 0 (S N)) as l eqn:El.
    destruct l as [|d ds]; [done|].
    destruct (foldr_max_spec d ds) as [Hle Hin].
    eexists. split; [done|]. split.
    + intros n Hn. apply Hle. rewrite El. apply list_elem_of_fmap.
      exists n. split; [done|]. apply elem_of_seq. lia.
    + rewrite El in Hin. apply list_elem_of_fmap in Hin as (n & Hn & Hseq).
      exists n. split; [|done]. apply elem_of_seq in Hseq. lia.
Qed.

Lemma max_out_degree_spec_witness :
  ∃ d, max_out_degree line_graph = Ret d ∧
       (∀ n, n < number_of_nodes line_graph → out_degree line_graph n ≤ d) ∧
       (∃ n, n < number_of_nodes line_graph ∧ out_degree line_graph n = d).
Proof.
  apply (max_out_degree_spec line_graph). simpl. lia.
Defined.

(** ** The constructor *)

(** X6.  [__init__] raises ValueError on a graph without nodes, and
    IndexError on an initial matrix without columns; otherwise it returns,
    whatever the shape of the initial matrix: [reach] and [G] are
    well-formed arrays of shape [(num_nodes, max_out_degree + 1)], [S_hat]
    is the initial matrix, the reverse graph mirrors the graph, and
    [initial_nodes] lists, without repetition, exactly the rows whose
    column 0 is true. *)
Theorem init_outcome {F} env mem_reach mem_G graph (gp : GPRegression F)
    S_hat0 h L beta :
  (number_of_nodes graph = 0 →
   SafeMDP.__init__ env mem_reach mem_G graph gp S_hat0 h L beta = Raise ValueError) ∧
  (0 < number_of_nodes graph → Np.ncols S_hat0 = 0 →
   SafeMDP.__init__ env mem_reach mem_G graph gp S_hat0 h L beta = Raise IndexError) ∧
  (0 < number_of_nodes graph → 0 < Np.ncols S_hat0 →
   ∃ s d,
     SafeMDP.__init__ env mem_reach mem_G graph gp S_hat0 h L beta = Ret s ∧
     max_out_degree graph = Ret d ∧
     Np.valid (SafeMDP.reach s) ∧ Np.valid (SafeMDP.G s) ∧
     Np.nrows (SafeMDP.reach s) = number_of_nodes graph ∧
     Np.ncols (SafeMDP.reach s) = d + 1 ∧
     Np.same_shape (SafeMDP.G s) (SafeMDP.reach s) ∧
     SafeMDP.S_hat s = S_hat0 ∧
     SafeMDP.graph s = graph ∧
     mirrors (SafeMDP.graph_reverse s) graph ∧
     NoDup (SafeMDP.initial_nodes s) ∧
     ∀ n, n ∈ SafeMDP.initial_nodes s ↔ Np.getitem S_hat0 n 0 = Some true).
Proof.
  unfold SafeMDP.__init__, max_out_degree, Np.copy, Np.column0_nonzero.
  destruct (number_of_nodes graph) as [|N] eqn:EN; [split; [done|split; lia]|].
  split; [done|].
  remember (out_degree graph <$> seq 0 (S N)) as l eqn:El.
  destruct l as [|d0 ds]; [done|].
  split.
  - intros _ Hc. case_decide; [lia|done].
  - intros _ Hc. case_decide; [|lia].
    eexists. eexists. split; [done|]. split; [done|]. simpl.
    split_and!; try done.
    + apply empty_valid.
    + apply empty_valid.
    + apply mirrors_reverse.
    + apply NoDup_filter, NoDup_seq.
    + intros n. rewrite list_elem_of_filter, elem_of_seq.
      split; [by intros [? _]|]. intros Hg. split; [done|].
      apply getitem_Some_range in Hg. lia.
Qed.

Lemma init_outcome_witness :
  ∃ s d,
    SafeMDP.__init__ no_env (λ _, true) (λ _, true) line_graph (mkGP (F:=nat) (mkMatrix 0 []) (mkMatrix 0 []))
      (seed0 false false false) 0 0 2 = Ret s ∧
    max_out_degree line_graph = Ret d ∧
    Np.valid (SafeMDP.reach s) ∧ Np.valid (SafeMDP.G s) ∧
    Np.nrows (SafeMDP.reach s) = number_of_nodes line_graph ∧
    Np.ncols (SafeMDP.reach s) = d + 1 ∧
    Np.same_shape (SafeMDP.G s) (SafeMDP.reach s) ∧
    SafeMDP.S_hat s = seed0 false false false ∧
    SafeMDP.graph s = line_graph ∧
    mirrors (SafeMDP.graph_reverse s) line_graph ∧
    NoDup (SafeMDP.initial_nodes s) ∧
    ∀ n, n ∈ SafeMDP.initial_nodes s ↔
         Np.getitem (seed0 false false false) n 0 = Some true.
Proof.
  apply (init_outcome (F:=nat) no_env (λ _, true) (λ _, true) line_graph
           (mkGP (mkMatrix 0 []) (mkMatrix 0 [])) (seed0 false false false) 0 0 2); simpl; lia.
Defined.

(** ** The traversals in terms of paths *)

Lemma safe_path_front env graph e w :
  e ∈ edges graph → truth env (safe e) = true →
  safe_path env graph (dst e) w → safe_path env graph (src e) w.
Proof.
  intros He Ht Hp. remember (dst e) as v eqn:Ev.
  induction Hp as [n|u e' _ IH He' Ht']; subst.
  - eapply safe_path_edge; [apply safe_path_here|done..].
  - eapply safe_path_edge; [by apply IH|done..].
Qed.

Lemma conn_succ_paths env graph seeds n :
  conn (succ_list env graph) seeds n ↔ from_seed env graph seeds n.
Proof.
  split.
  - induction 1 as [n Hn|n r c t _ (s & Hs & Hp) Hin].
    + exists n. split; [done|apply safe_path_here].
    + apply elem_of_succ_list in Hin as (e & He & <- & _ & _ & -> & Ht).
      exists s. split; [done|]. by eapply safe_path_edge.
  - intros (s & Hs & Hp). induction Hp as [n|u e _ IH He Ht].
    + by apply conn_seed.
    + eapply (conn_step _ _ (src e) (src e) (action e)); [by apply IH|].
      apply elem_of_succ_list. by exists e.
Qed.

Lemma conn_pred_paths C env graph reverse_graph seeds n :
  graph_ok C graph → mirrors reverse_graph graph →
  conn (pred_list env graph reverse_graph) seeds n ↔ to_seed env graph seeds n.
Proof.
  intros Hok Hmir. split.
  - induction 1 as [n Hn|n r c t _ (s & Hs & Hp) Hin].
    + exists n. split; [done|apply safe_path_here].
    + apply (elem_of_pred_list C) in Hin as (e & He & <- & _ & _ & -> & Ht); [|done..].
      exists s. split; [done|]. by apply safe_path_front.
  - intros (s & Hs & Hp).
    assert (conn (pred_list env graph reverse_graph) seeds s) as Hc by (by apply conn_seed).
    clear Hs. induction Hp as [n|u e _ IH He Ht]; [done|].
    apply IH. eapply (conn_step _ _ (dst e) (src e) (action e)); [done|].
    apply (elem_of_pred_list C); [done..|]. by exists e.
Qed.

(** The cells of [reach_cells], read on the graph. *)
Lemma reach_cells_paths C env graph seeds :
  graph_ok C graph →
  (∀ n, reach_cells env graph seeds n 0 ↔ from_seed env graph seeds n) ∧
  (∀ n a, a ≠ 0 →
     reach_cells env graph seeds n a ↔
     ∃ e, e ∈ edges graph ∧ src e = n ∧ action e = a ∧
          truth env (safe e) = true ∧ from_seed env graph seeds n).
Proof.
  intros Hok. unfold reach_cells. split.
  - intros n. rewrite closure_column0 by by eapply succ_list_columns.
    apply conn_succ_paths.
  - intros n a Ha.
    rewrite closure_action_cell by (done || by eapply succ_list_columns).
    split.
    + intros (m & t & Hm & (e & He & <- & -> & -> & -> & Ht)%elem_of_succ_list).
      exists e. split_and!; try done. by apply conn_succ_paths.
    + intros (e & He & <- & <- & Ht & Hm). exists (src e), (dst e).
      split; [by apply conn_succ_paths|]. apply elem_of_succ_list. by exists e.
Qed.

(** The cells of [return_cells], read on the graph. *)
Lemma return_cells_paths C env graph reverse_graph seeds :
  graph_ok C graph → mirrors reverse_graph graph →
  (∀ n, return_cells env graph reverse_graph seeds n 0 ↔ to_seed env graph seeds n) ∧
  (∀ n a, a ≠ 0 →
     return_cells env graph reverse_graph seeds n a ↔
     ∃ e, e ∈ edges graph ∧ src e = n ∧ action e = a ∧
          truth env (safe e) = true ∧ to_seed env graph seeds (dst e)).
Proof.
  intros Hok Hmir. unfold return_cells. split.
  - intros n. rewrite closure_column0 by by eapply pred_list_columns.
    by apply (conn_pred_paths C).
  - intros n a Ha.
    rewrite closure_action_cell by (done || by eapply pred_list_columns).
    split.
    + intros (m & t & Hm & (e & He & <- & -> & -> & _ & Ht)%(elem_of_pred_list C));
        [|done..].
      exists e. split_and!; try done. by apply (conn_pred_paths C) in Hm.
    + intros (e & He & <- & <- & Ht & Hm). exists (dst e), (src e).
      split; [by apply (conn_pred_paths C)|].
      apply (elem_of_pred_list C); [done..|]. by exists e.
Qed.

(** X7.  On a graph of the data model, with seeds among its nodes and a
    blank [out] of the right shape, [reachable_set] returns.  A node it
    marks in column 0 is the end of a path of safe edges from a seed, and a
    cell [(n, a)] it marks in an action column is a safe edge of [n] under
    [a] with [n] at the end of such a path.  With one edge per (node,
    action) pair the converse holds: every such node and every such cell
    is marked. *)
Theorem reachable_set_follows_safe_paths C env graph seeds out :
  graph_ok C graph → 0 < C → seeds ≠ [] → seeds_in (number_of_nodes graph) seeds →
  Np.valid out → Np.nrows out = number_of_nodes graph → Np.ncols out = C →
  blank out →
  ∃ s', reachable_set env graph seeds out = (s', Ret tt) ∧
    (∀ n, Np.getitem (visited s') n 0 = Some true → from_seed env graph seeds n) ∧
    (∀ n a, a ≠ 0 → Np.getitem (visited s') n a = Some true →
       ∃ e, e ∈ edges graph ∧ src e = n ∧ action e = a ∧
            truth env (safe e) = true ∧ from_seed env graph seeds n) ∧
    (one_edge_per_action graph →
       (∀ n, from_seed env graph seeds n → Np.getitem (visited s') n 0 = Some true) ∧
       (∀ e, e ∈ edges graph → truth env (safe e) = true →
          from_seed env graph seeds (src e) →
          Np.getitem (visited s') (src e) (action e) = Some true)).
Proof.
  intros Hok HC Hne Hseeds Hv Hr Hc Hb.
  destruct (reachable_set_spec C env graph seeds out)
    as (s' & Hrun & _ & _ & Hsound & Hcompl); [done..|].
  destruct (reach_cells_paths C env graph seeds Hok) as [Hcol0 Hcell].
  exists s'. split; [done|]. split_and!.
  - intros n Hn. by apply Hcol0, Hsound.
  - intros n a Ha Hn. by apply Hcell, Hsound.
  - intros Huniq. split.
    + intros n Hn. by apply Hcompl, Hcol0.
    + intros e He Ht Hn. apply Hcompl; [done|]. apply Hcell.
      * pose proof (ok_actions C graph Hok e He). lia.
      * by exists e.
Qed.

Lemma reachable_set_follows_safe_paths_witness :
  ∃ s', reachable_set no_env line_graph [0] (Np.zeros 3 2) = (s', Ret tt) ∧
    (∀ n, Np.getitem (visited s') n 0 = Some true → from_seed no_env line_graph [0] n) ∧
    (∀ n a, a ≠ 0 → Np.getitem (visited s') n a = Some true →
       ∃ e, e ∈ edges line_graph ∧ src e = n ∧ action e = a ∧
            truth no_env (safe e) = true ∧ from_seed no_env line_graph [0] n) ∧
    (one_edge_per_action line_graph →
       (∀ n, from_seed no_env line_graph [0] n →
             Np.getitem (visited s') n 0 = Some true) ∧
       (∀ e, e ∈ edges line_graph → truth no_env (safe e) = true →
          from_seed no_env line_graph [0] (src e) →
          Np.getitem (visited s') (src e) (action e) = Some true)).
Proof.
  apply (reachable_set_follows_safe_paths 2 no_env line_graph [0] (Np.zeros 3 2)).
  - apply line_graph_ok.
  - lia.
  - discriminate.
  - apply Forall_singleton. simpl. lia.
  - apply zeros_valid.
  - reflexivity.
  - reflexivity.
  - intros i j Hij. by apply getitem_zeros_inv in Hij.
Defined.

(** X8.  On a graph of the data model with its reverse graph, seeds among
    its nodes and a blank [out] of the right shape, [returnable_set]
    returns, and marks exactly this: in column 0 the nodes from which a
    path of safe edges leads to a seed, and in an action column the cells
    [(n, a)] for which [n] has a safe edge under [a] into such a node. *)
Theorem returnable_set_follows_safe_paths C env graph reverse_graph seeds out :
  graph_ok C graph → mirrors reverse_graph graph →
  0 < C → seeds ≠ [] → seeds_in (number_of_nodes graph) seeds →
  Np.valid out → Np.nrows out = number_of_nodes graph → Np.ncols out = C →
  blank out →
  ∃ s', returnable_set env graph reverse_graph seeds out = (s', Ret tt) ∧
    (∀ n, Np.getitem (visited s') n 0 = Some true ↔ to_seed env graph seeds n) ∧
    (∀ n a, a ≠ 0 →
       Np.getitem (visited s') n a = Some true ↔
       ∃ e, e ∈ edges graph ∧ src e = n ∧ action e = a ∧
            truth env (safe e) = true ∧ to_seed env graph seeds (dst e)).
Proof.
  intros Hok Hmir HC Hne Hseeds Hv Hr Hc Hb.
  destruct (returnable_set_spec C env graph reverse_graph seeds out)
    as (s' & Hrun & _ & _ & Hiff); [done..|].
  destruct (return_cells_paths C env graph reverse_graph seeds Hok Hmir)
    as [Hcol0 Hcell].
  exists s'. split; [done|]. split.
  - intros n. by rewrite Hiff.
  - intros n a Ha. rewrite Hiff. by apply Hcell.
Qed.

Lemma returnable_set_follows_safe_paths_witness :
  ∃ s', returnable_set no_env line_graph (DiGraph_reverse no_env line_graph) [2]
          (Np.zeros 3 2) = (s', Ret tt) ∧
    (∀ n, Np.getitem (visited s') n 0 = Some true ↔ to_seed no_env line_graph [2] n) ∧
    (∀ n a, a ≠ 0 →
       Np.getitem (visited s') n a = Some true ↔
       ∃ e, e ∈ edges line_graph ∧ src e = n ∧ action e = a ∧
            truth no_env (safe e) = true ∧ to_seed no_env line_graph [2] (dst e)).
Proof.
  apply (returnable_set_follows_safe_paths 2 no_env line_graph
           (DiGraph_reverse no_env line_graph) [2] (Np.zeros 3 2)).
  - apply line_graph_ok.
  - apply mirrors_reverse.
  - lia.
  - discriminate.
  - apply Forall_singleton. simpl. lia.
  - apply zeros_valid.
  - reflexivity.
  - reflexivity.
  - intros i j Hij. by apply getitem_zeros_inv in Hij.
Defined.

(** X9.  On a well-formed object whose graph has one edge per (node,
    action) pair, [compute_S_hat] returns and leaves in [S_hat] exactly
    this: in column 0 the nodes that lie on a closed walk of safe edges
    through the seeds (a seed reaches the node and the node reaches a
    seed), and in an action column the safe edges whose tail a seed reaches
    and whose head reaches a seed. *)
Theorem compute_S_hat_follows_safe_paths {F} env (s : SafeMDP.self F) :
  mdp_ok s → one_edge_per_action (SafeMDP.graph s) →
  ∃ s', SafeMDP.compute_S_hat env s = (s', Ret tt) ∧
    (∀ n, Np.getitem (SafeMDP.S_hat s') n 0 = Some true ↔
       from_seed env (SafeMDP.graph s) (SafeMDP.initial_nodes s) n ∧
       to_seed env (SafeMDP.graph s) (SafeMDP.initial_nodes s) n) ∧
    (∀ n a, a ≠ 0 →
       Np.getitem (SafeMDP.S_hat s') n a = Some true ↔
       ∃ e, e ∈ edges (SafeMDP.graph s) ∧ src e = n ∧ action e = a ∧
            truth env (safe e) = true ∧
            from_seed env (SafeMDP.graph s) (SafeMDP.initial_nodes s) n ∧
            to_seed env (SafeMDP.graph s) (SafeMDP.initial_nodes s) (dst e)).
Proof.
  intros Hok Huniq.
  destruct (compute_S_hat_spec env s Hok)
    as (r & a & Hrun & _ & Hsound & Hcompl & Ha).
  specialize (Hcompl Huniq).
  destruct (reach_cells_paths _ env (SafeMDP.graph s) (SafeMDP.initial_nodes s)
              (mdp_graph s Hok)) as [Hr0 Hrc].
  destruct (return_cells_paths _ env (SafeMDP.graph s) (SafeMDP.graph_reverse s)
              (SafeMDP.initial_nodes s) (mdp_graph s Hok) (mdp_reverse s Hok))
    as [Hb0 Hbc].
  eexists. split; [done|]. simpl. split.
  - intros n. rewrite Ha, Hb0. split.
    + intros [Hb Hn]. split; [|done]. by apply Hr0, Hsound.
    + intros [Hf Hb]. split; [done|]. by apply Hcompl, Hr0.
  - intros n c Hc. rewrite Ha, (Hbc n c Hc). split.
    + intros [(e & He & Hs & Hact & Ht & Hb) Hn].
      apply Hsound, (Hrc n c Hc) in Hn as (e' & _ & _ & _ & _ & Hf).
      exists e. done.
    + intros (e & He & Hs & Hact & Ht & Hf & Hb). split; [by exists e|].
      apply Hcompl, (Hrc n c Hc). by exists e.
Qed.

Lemma compute_S_hat_follows_safe_paths_witness :
  ∃ s', SafeMDP.compute_S_hat no_env scenario_mdp = (s', Ret tt) ∧
    (∀ n, Np.getitem (SafeMDP.S_hat s') n 0 = Some true ↔
       from_seed no_env line_graph [0] n ∧ to_seed no_env line_graph [0] n) ∧
    (∀ n a, a ≠ 0 →
       Np.getitem (SafeMDP.S_hat s') n a = Some true ↔
       ∃ e, e ∈ edges line_graph ∧ src e = n ∧ action e = a ∧
            truth no_env (safe e) = true ∧
            from_seed no_env line_graph [0] n ∧
            to_seed no_env line_graph [0] (dst e)).
Proof.
  apply (compute_S_hat_follows_safe_paths no_env scenario_mdp).
  - apply scenario_mdp_ok.
  - apply line_graph_one_edge.
Defined.

(** ** Growing the linked safe set *)

Lemma truth_mono env env' a :
  Np.subset env env' → truth env a = true → truth env' a = true.
Proof.
  intros Hsub. destruct a as [b|r c]; simpl; [done|].
  destruct (Np.getitem env r c) as [[]|] eqn:E; [|done..].
  intros _. by rewrite (Hsub r c E).
Qed.

(** X10.  The labels of a linked graph are read through the linked array.
    On a well-formed object whose graph has one edge per (node, action)
    pair, if every cell that is true in the array [env] is true in [env']
    then both recomputations return, and [reach] and [S_hat] computed
    against [env] are contained in those computed against [env']. *)
Theorem growing_safe_set_is_monotone {F} env env' (s : SafeMDP.self F) :
  mdp_ok s → one_edge_per_action (SafeMDP.graph s) → Np.subset env env' →
  ∃ s1 s2,
    SafeMDP.compute_S_hat env s = (s1, Ret tt) ∧
    SafeMDP.compute_S_hat env' s = (s2, Ret tt) ∧
    Np.subset (SafeMDP.reach s1) (SafeMDP.reach s2) ∧
    Np.subset (SafeMDP.S_hat s1) (SafeMDP.S_hat s2).
Proof.
  intros Hok Huniq Hsub.
  destruct (compute_S_hat_spec env s Hok)
    as (r1 & a1 & Hrun1 & _ & Hsound1 & _ & Ha1).
  destruct (compute_S_hat_spec env' s Hok)
    as (r2 & a2 & Hrun2 & _ & _ & Hcompl2 & Ha2).
  specialize (Hcompl2 Huniq).
  assert (Np.subset r1 r2) as Hreach.
  { intros i j Hij. apply Hcompl2.
    eapply closure_mono; [|by apply Hsound1].
    intros n r c t (e & He & ? & ? & ? & ? & Ht)%elem_of_succ_list.
    apply elem_of_succ_list. exists e. split_and!; try done.
    by eapply truth_mono. }
  eexists. eexists. split; [done|]. split; [done|]. simpl. split; [done|].
  intros i j [Hret Hr1]%Ha1. apply Ha2. split; [|by apply Hreach].
  eapply closure_mono; [|exact Hret].
  pose proof (mdp_graph s Hok) as Hg. pose proof (mdp_reverse s Hok) as Hmir.
  intros n r c t Hin.
  apply (elem_of_pred_list (Np.ncols (SafeMDP.reach s))) in Hin
    as (e & He & ? & ? & ? & ? & Ht); [|done..].
  apply (elem_of_pred_list (Np.ncols (SafeMDP.reach s))); [done..|].
  exists e. split_and!; try done. by eapply truth_mono.
Qed.

Lemma linked_line_ok : graph_ok 2 linked_line.
Proof.
  split; simpl.
  - intros e He. each_edge; simpl; lia.
  - intros e He. each_edge; simpl; lia.
  - intros e1 e2 H1 H2. each_edge; simpl; done.
Qed.

Lemma linked_line_one_edge : one_edge_per_action linked_line.
Proof. intros e1 e2 H1 H2. simpl in *. each_edge; simpl; done. Qed.

(** The line graph as [link_graph_and_safe_set] leaves it, read against
    an array without a true cell and then against one whose action column
    is true: node 1 is outside [reach] and [S_hat] stays at the seed in the
    first run, node 1 is in [reach] in the second. *)
Lemma growing_safe_set_is_monotone_witness :
  (link_graph_and_safe_set (Np.zeros 3 2) line_graph).1 = linked_line ∧
  ∃ s1 s2,
    SafeMDP.compute_S_hat (Np.zeros 3 2) (mdp_on linked_line) = (s1, Ret tt) ∧
    SafeMDP.compute_S_hat (seed0 true true true) (mdp_on linked_line) = (s2, Ret tt) ∧
    Np.subset (SafeMDP.reach s1) (SafeMDP.reach s2) ∧
    Np.subset (SafeMDP.S_hat s1) (SafeMDP.S_hat s2) ∧
    Np.getitem (SafeMDP.reach s1) 1 0 = Some false ∧
    Np.getitem (SafeMDP.reach s2) 1 0 = Some true.
Proof.
  split; [reflexivity|].
  destruct (growing_safe_set_is_monotone (Np.zeros 3 2) (seed0 true true true)
              (mdp_on linked_line)) as (s1 & s2 & H1 & H2 & Hr & Hs).
  - apply mdp_on_ok; [apply linked_line_ok|reflexivity].
  - apply linked_line_one_edge.
  - intros i j Hij. by apply getitem_zeros_inv in Hij.
  - exists s1, s2. split; [exact H1|]. split; [exact H2|].
    split; [exact Hr|]. split; [exact Hs|].
    assert (s1 = (SafeMDP.compute_S_hat (Np.zeros 3 2) (mdp_on linked_line)).1)
      as E1 by (rewrite H1; reflexivity).
    assert (s2 = (SafeMDP.compute_S_hat (seed0 true true true)
                    (mdp_on linked_line)).1)
      as E2 by (rewrite H2; reflexivity).
    rewrite E1, E2. split; reflexivity.
Defined.

(** ** Uninitialised memory *)

Lemma fill_empty b r c mem mem' :
  Np.fill b (Np.empty r c mem) = Np.fill b (Np.empty r c mem').
Proof. unfold Np.fill, Np.empty. simpl. by rewrite !length_fmap. Qed.

(** X11.  [__init__] allocates [reach] and [G] with [np.empty].  What
    that memory holds has no influence on [compute_S_hat]: two objects
    built from the same arguments on different memory give the same
    outcome, the same [reach] and the same [S_hat]; [G] is left as
    allocated. *)
Theorem compute_S_hat_ignores_memory {F} env0 env mem_reach mem_G mem_reach' mem_G'
    graph (gp : GPRegression F) S_hat0 h L beta s1 s2 :
  SafeMDP.__init__ env0 mem_reach mem_G graph gp S_hat0 h L beta = Ret s1 →
  SafeMDP.__init__ env0 mem_reach' mem_G' graph gp S_hat0 h L beta = Ret s2 →
  (SafeMDP.compute_S_hat env s1).2 = (SafeMDP.compute_S_hat env s2).2 ∧
  SafeMDP.reach (SafeMDP.compute_S_hat env s1).1
    = SafeMDP.reach (SafeMDP.compute_S_hat env s2).1 ∧
  SafeMDP.S_hat (SafeMDP.compute_S_hat env s1).1
    = SafeMDP.S_hat (SafeMDP.compute_S_hat env s2).1 ∧
  SafeMDP.G (SafeMDP.compute_S_hat env s1).1 = SafeMDP.G s1.
Proof.
  unfold SafeMDP.__init__.
  destruct (max_out_degree graph) as [d| |]; [|done..].
  destruct (Np.column0_nonzero _) as [l|]; [|done].
  intros [= <-] [= <-].
  unfold SafeMDP.compute_S_hat, SafeMDP.on_reach, SafeMDP.on_S_hat,
    SafeMDP.iand_S_hat_reach, modify, get, mbind, M_bind. simpl.
  rewrite (fill_empty false _ _ mem_reach mem_reach').
  destruct (reachable_set _ _ _ _) as [b1 [[]| |]]; simpl; [|done..].
  destruct (returnable_set _ _ _ _ _) as [b2 [[]| |]]; simpl; [|done..].
  destruct (Np.iand _ _) as [a|]; done.
Qed.

Lemma compute_S_hat_ignores_memory_witness :
  let s1 := SafeMDP.mk 2 0 0 (mkGP (mkMatrix 0 []) (mkMatrix 0 [])) line_graph (DiGraph_reverse no_env line_graph)
              (Np.empty 3 2 (λ _, true)) (Np.empty 3 2 (λ _, false))
              (seed0 false false false) (seed0 false false false) [0] in
  let s2 := SafeMDP.mk 2 0 0 (mkGP (mkMatrix 0 []) (mkMatrix 0 [])) line_graph (DiGraph_reverse no_env line_graph)
              (Np.empty 3 2 (λ _, false)) (Np.empty 3 2 (λ _, true))
              (seed0 false false false) (seed0 false false false) [0] in
  (SafeMDP.compute_S_hat no_env s1).2 = (SafeMDP.compute_S_hat no_env s2).2 ∧
  SafeMDP.reach (SafeMDP.compute_S_hat no_env s1).1
    = SafeMDP.reach (SafeMDP.compute_S_hat no_env s2).1 ∧
  SafeMDP.S_hat (SafeMDP.compute_S_hat no_env s1).1
    = SafeMDP.S_hat (SafeMDP.compute_S_hat no_env s2).1 ∧
  SafeMDP.G (SafeMDP.compute_S_hat no_env s1).1 = SafeMDP.G s1.
Proof.
  apply (compute_S_hat_ignores_memory (F:=nat) no_env no_env
           (λ _, true) (λ _, false) (λ _, false) (λ _, true)
           line_graph (mkGP (mkMatrix 0 []) (mkMatrix 0 [])) (seed0 false false false) 0 0 2);
    reflexivity.
Defined.

(** ** The traversals without [out] *)

(** X12.  Called without [out], both traversals check the seed list
    first: an empty one raises AttributeError, even on a graph without
    nodes; with a seed, a graph without nodes raises ValueError.  On a
    graph of the data model whose actions are at most its maximal
    out-degree [d], with seeds among its nodes, both return a well-formed
    array of shape [(num_nodes, d + 1)]: column 0 of the first holds only
    nodes a seed reaches by safe edges, and all of them when there is one
    edge per (node, action) pair; column 0 of the second holds exactly the
    nodes that reach a seed by safe edges. *)
Theorem traversals_without_out env graph reverse_graph seeds :
  (seeds = [] →
   reachable_set_new env graph seeds = Raise AttributeError ∧
   returnable_set_new env graph reverse_graph seeds = Raise AttributeError) ∧
  (seeds ≠ [] → number_of_nodes graph = 0 →
   reachable_set_new env graph seeds = Raise ValueError ∧
   returnable_set_new env graph reverse_graph seeds = Raise ValueError) ∧
  (∀ d, seeds ≠ [] → max_out_degree graph = Ret d →
     graph_ok (d + 1) graph → mirrors reverse_graph graph →
     seeds_in (number_of_nodes graph) seeds →
     ∃ v w,
       reachable_set_new env graph seeds = Ret v ∧
       returnable_set_new env graph reverse_graph seeds = Ret w ∧
       Np.valid v ∧ Np.nrows v = number_of_nodes graph ∧ Np.ncols v = d + 1 ∧
       Np.valid w ∧ Np.nrows w = number_of_nodes graph ∧ Np.ncols w = d + 1 ∧
       (∀ n, Np.getitem v n 0 = Some true → from_seed env graph seeds n) ∧
       (one_edge_per_action graph →
        ∀ n, from_seed env graph seeds n → Np.getitem v n 0 = Some true) ∧
       (∀ n, Np.getitem w n 0 = Some true ↔ to_seed env graph seeds n)).
Proof.
  split_and!.
  - by intros ->.
  - intros Hne HN. unfold reachable_set_new, returnable_set_new, max_out_degree.
    rewrite HN. by destruct seeds.
  - intros d Hne Hd Hok Hmir Hseeds.
    assert (blank (Np.zeros (number_of_nodes graph) (d + 1))) as Hb.
    { intros i j Hij. by apply getitem_zeros_inv in Hij. }
    destruct (reachable_set_spec (d + 1) env graph seeds
                (Np.zeros (number_of_nodes graph) (d + 1)))
      as (s1 & Hrun1 & Hv1 & [Hr1 Hc1] & Hsound & Hcompl);
      [done|lia|done|done|apply zeros_valid|done..|].
    destruct (returnable_set_spec (d + 1) env graph reverse_graph seeds
                (Np.zeros (number_of_nodes graph) (d + 1)))
      as (s2 & Hrun2 & Hv2 & [Hr2 Hc2] & Hiff);
      [done|done|lia|done|done|apply zeros_valid|done..|].
    destruct (reach_cells_paths (d + 1) env graph seeds Hok) as [Hcol0 _].
    destruct (return_cells_paths (d + 1) env graph reverse_graph seeds Hok Hmir)
      as [Hret0 _].
    exists (visited s1), (visited s2).
    unfold reachable_set_new, returnable_set_new.
    unfold reachable_set in Hrun1. unfold returnable_set in Hrun2.
    destruct seeds as [|x l]; [done|]. rewrite Hd, Hrun1, Hrun2.
    split_and!; try done.
    + intros n Hn. by apply Hcol0, Hsound.
    + intros Huniq n Hn. by apply Hcompl, Hcol0.
    + intros n. by rewrite Hiff.
Qed.

Lemma traversals_without_out_witness :
  ∃ v w,
    reachable_set_new no_env line_graph [0] = Ret v ∧
    returnable_set_new no_env line_graph (DiGraph_reverse no_env line_graph) [0] = Ret w ∧
    Np.valid v ∧ Np.nrows v = number_of_nodes line_graph ∧ Np.ncols v = 1 + 1 ∧
    Np.valid w ∧ Np.nrows w = number_of_nodes line_graph ∧ Np.ncols w = 1 + 1 ∧
    (∀ n, Np.getitem v n 0 = Some true → from_seed no_env line_graph [0] n) ∧
    (one_edge_per_action line_graph →
     ∀ n, from_seed no_env line_graph [0] n → Np.getitem v n 0 = Some true) ∧
    (∀ n, Np.getitem w n 0 = Some true ↔ to_seed no_env line_graph [0] n).
Proof.
  apply (traversals_without_out no_env line_graph
           (DiGraph_reverse no_env line_graph) [0]).
  - discriminate.
  - reflexivity.
  - apply line_graph_ok.
  - apply mirrors_reverse.
  - apply Forall_singleton. simpl. lia.
Defined.

(** ** Linking stops at the first action that is not a column *)

Lemma link_edges_all safe_set es :
  Forall (λ e, action e < Np.ncols safe_set) es →
  link_edges safe_set es = (linked_edge <$> es, Ret tt).
Proof.
  induction 1 as [|e es He _ IH]; simpl; [done|].
  destruct (decide (action e < Np.ncols safe_set)) as [_|?]; [|done].
  by rewrite IH.
Qed.

Lemma link_edges_stops safe_set pre bad post :
  Forall (λ e, action e < Np.ncols safe_set) pre →
  Np.ncols safe_set ≤ action bad →
  link_edges safe_set (pre ++ bad :: post)
    = ((linked_edge <$> pre) ++ bad :: post, Raise IndexError).
Proof.
  intros Hpre Hbad. induction Hpre as [|e es He _ IH]; simpl.
  - destruct (decide (action bad < Np.ncols safe_set)) as [?|_]; [lia|done].
  - destruct (decide (action e < Np.ncols safe_set)) as [_|?]; [|done].
    by rewrite IH.
Qed.

Lemma link_edges_again safe_set es :
  link_edges safe_set (link_edges safe_set es).1 = link_edges safe_set es.
Proof.
  induction es as [|e es IH]; simpl; [done|].
  destruct (decide (action e < Np.ncols safe_set)) as [He|He].
  - destruct (link_edges safe_set es) as [rest' r] eqn:E. simpl in *.
    destruct (decide (action e < Np.ncols safe_set)) as [_|?]; [|done].
    by rewrite IH.
  - simpl. by destruct (decide (action e < Np.ncols safe_set)).
Qed.

(** X13.  [link_graph_and_safe_set] links the edges in order and stops at
    the first edge whose action is not a column of [safe_set]: it raises
    IndexError there, the edges before it are linked already, that edge
    and those after it keep their labels.  Linking the resulting graph to
    the same array again, after a return or after the error, changes
    nothing and ends in the same way. *)
Theorem link_stops_at_first_bad_action safe_set graph :
  (∀ pre bad post,
     edges graph = pre ++ bad :: post →
     Forall (λ e, action e < Np.ncols safe_set) pre →
     Np.ncols safe_set ≤ action bad →
     link_graph_and_safe_set safe_set graph
       = (mkGraph (number_of_nodes graph) ((linked_edge <$> pre) ++ bad :: post),
          Raise IndexError)) ∧
  link_graph_and_safe_set safe_set (link_graph_and_safe_set safe_set graph).1
    = link_graph_and_safe_set safe_set graph.
Proof.
  split.
  - intros pre bad post Hes Hpre Hbad. unfold link_graph_and_safe_set.
    by rewrite Hes, link_edges_stops.
  - unfold link_graph_and_safe_set.
    pose proof (link_edges_again safe_set (edges graph)) as Hagain.
    destruct (link_edges safe_set (edges graph)) as [es r]. simpl in *.
    by rewrite Hagain.
Qed.

Lemma link_stops_at_first_bad_action_witness :
  link_graph_and_safe_set (Np.zeros 3 2)
    (mkGraph 3 [mkEdge 0 1 1 (SafeBool true); mkEdge 1 2 2 (SafeBool true);
                mkEdge 2 0 1 (SafeBool false)])
  = (mkGraph 3 [mkEdge 0 1 1 (SafeView 0 1); mkEdge 1 2 2 (SafeBool true);
                mkEdge 2 0 1 (SafeBool false)],
     Raise IndexError).
Proof.
  apply (proj1 (link_stops_at_first_bad_action (Np.zeros 3 2)
           (mkGraph 3 [mkEdge 0 1 1 (SafeBool true); mkEdge 1 2 2 (SafeBool true);
                       mkEdge 2 0 1 (SafeBool false)]))
           [mkEdge 0 1 1 (SafeBool true)] (mkEdge 1 2 2 (SafeBool true))
           [mkEdge 2 0 1 (SafeBool false)]).
  - reflexivity.
  - apply Forall_singleton. simpl. lia.
  - simpl. lia.
Defined.

(** ** Adding observations *)

(** X14.  [add_gp_observations] is all or nothing.  When the new inputs
    have as many columns as the stored inputs, and the new outputs as many
    as the stored outputs, it returns, with the new rows appended after
    the stored ones and nothing else changed.  Otherwise it raises
    ValueError and changes nothing: inputs that stack are not stored when
    the outputs do not. *)
Theorem add_gp_observations_all_or_nothing {F} (x_new y_new : matrix F)
    (s : SafeMDP.self F) :
  let X := gp_X (SafeMDP.gp s) in
  let Y := gp_Y (SafeMDP.gp s) in
  (mat_cols X = mat_cols x_new ∧ mat_cols Y = mat_cols y_new ∧
   SafeMDP.add_gp_observations x_new y_new s
     = (SafeMDP.set_gp
          (mkGP (mkMatrix (mat_cols X) (mat_rows X ++ mat_rows x_new))
                (mkMatrix (mat_cols Y) (mat_rows Y ++ mat_rows y_new))) s,
        Ret tt)) ∨
  (¬ (mat_cols X = mat_cols x_new ∧ mat_cols Y = mat_cols y_new) ∧
   SafeMDP.add_gp_observations x_new y_new s = (s, Raise ValueError)).
Proof.
  simpl.
  unfold SafeMDP.add_gp_observations, vstack, modify, get, lift, mbind, M_bind.
  simpl.
  destruct (decide (mat_cols (gp_X (SafeMDP.gp s)) = mat_cols x_new)) as [HX|HX];
    [|right; split; [by intros [? _]|done]].
  destruct (decide (mat_cols (gp_Y (SafeMDP.gp s)) = mat_cols y_new)) as [HY|HY];
    [|right; split; [by intros [_ ?]|done]].
  left. done.
Qed.

(** ** The difference kernel on arbitrary arrays *)

Section DifferenceKernelShapes.

Context {F : Type} (add sub mul : F → F → F) (two : F).
Context (dim : nat) (k : list F → list F → F).

Lemma K_self_entries (x : list (list F)) :
  DifferenceKernel.K add sub dim k x None
  = (λ a, (λ b, sub (sub (add (k (take dim a) (take dim b))
                              (k (drop dim a) (drop dim b)))
                         (k (take dim a) (drop dim b)))
                    (k (drop dim a) (take dim b))) <$> x) <$> x.
Proof.
  unfold DifferenceKernel.K, DifferenceKernel.cols_to, DifferenceKernel.cols_from.
  rewrite !kern_K_fmap_self, !kern_K_fmap.
  unfold DifferenceKernel.msub, DifferenceKernel.madd.
  rewrite !zip_with_fmap_same.
  apply list_fmap_ext. intros _ a _. simpl. by rewrite !zip_with_fmap_same.
Qed.

Lemma K_cross_entries (x1 x2 : list (list F)) :
  DifferenceKernel.K add sub dim k x1 (Some x2)
  = (λ a, (λ b, sub (k a (take dim b)) (k a (drop dim b))) <$> x2) <$> x1.
Proof.
  unfold DifferenceKernel.K, DifferenceKernel.cols_to, DifferenceKernel.cols_from.
  rewrite !kern_K_right. unfold DifferenceKernel.msub.
  rewrite zip_with_fmap_same.
  apply list_fmap_ext. intros _ a _. simpl. by rewrite zip_with_fmap_same.
Qed.

Lemma Kdiag_entries (x : list (list F)) :
  DifferenceKernel.Kdiag add sub mul two dim k x
  = (λ a, sub (add (k (take dim a) (take dim a)) (k (drop dim a) (drop dim a)))
              (mul two (k (take dim a) (drop dim a)))) <$> x.
Proof.
  unfold DifferenceKernel.Kdiag, DifferenceKernel.cols_to, DifferenceKernel.cols_from.
  rewrite kern_K_fmap. unfold DifferenceKernel.kern_Kdiag.
  rewrite (np_diag_square (λ a b, k (take dim a) (drop dim b)) x).
  induction x as [|a l IH]; [done|]. simpl. f_equal. apply IH.
Qed.

(** X15.  Whatever the base kernel and the width of the rows: [K] of one
    array of [n] rows is an [n × n] matrix, [K] of [n] rows against [m]
    rows is an [n × m] matrix, and [Kdiag] of [n] rows has [n] entries. *)
Theorem difference_kernel_shapes (x x1 x2 : list (list F)) :
  length (DifferenceKernel.K add sub dim k x None) = length x ∧
  Forall (λ row, length row = length x) (DifferenceKernel.K add sub dim k x None) ∧
  length (DifferenceKernel.K add sub dim k x1 (Some x2)) = length x1 ∧
  Forall (λ row, length row = length x2)
         (DifferenceKernel.K add sub dim k x1 (Some x2)) ∧
  length (DifferenceKernel.Kdiag add sub mul two dim k x) = length x.
Proof.
  rewrite K_self_entries, K_cross_entries, Kdiag_entries.
  rewrite !length_fmap. split_and!; try done.
  - apply Forall_fmap, Forall_true. intros a. simpl. by rewrite length_fmap.
  - apply Forall_fmap, Forall_true. intros a. simpl. by rewrite length_fmap.
Qed.

(** X16.  [Kdiag] against the diagonal of [K], with no law of arithmetic
    assumed.  For a symmetric base kernel and every array [x], with
    [u = k(a1, a1) + k(a2, a2)] and [v = k(a1, a2)] for the two halves
    [a1], [a2] of a row: the diagonal of [K(x)] holds [(u − v) − v] for
    that row, and [Kdiag(x)] holds [u − 2·v].  The two are the same
    number where subtracting [v] twice is subtracting its double, as in
    exact arithmetic; floating point rounds the two differently. *)
Theorem Kdiag_and_diagonal_of_K (x : list (list F)) :
  (∀ a b, k a b = k b a) →
  DifferenceKernel.np_diag (DifferenceKernel.K add sub dim k x None)
  = (λ a, let u := add (k (take dim a) (take dim a)) (k (drop dim a) (drop dim a)) in
          let v := k (take dim a) (drop dim a) in
          sub (sub u v) v) <$> x ∧
  DifferenceKernel.Kdiag add sub mul two dim k x
  = (λ a, let u := add (k (take dim a) (take dim a)) (k (drop dim a) (drop dim a)) in
          let v := k (take dim a) (drop dim a) in
          sub u (mul two v)) <$> x.
Proof.
  intros Hsym. split; [|apply Kdiag_entries].
  rewrite K_self_entries.
  rewrite (np_diag_square
             (λ a b, sub (sub (add (k (take dim a) (take dim b))
                                   (k (drop dim a) (drop dim b)))
                              (k (take dim a) (drop dim b)))
                         (k (drop dim a) (take dim b))) x).
  apply list_fmap_ext. intros _ a _. simpl.
  by rewrite (Hsym (drop dim a) (take dim a)).
Qed.

End DifferenceKernelShapes.

Lemma Kdiag_and_diagonal_of_K_witness :
  DifferenceKernel.np_diag
    (DifferenceKernel.K Nat.add Nat.sub 1
       (λ a b, foldr Nat.add 0 a * foldr Nat.add 0 b) [[3; 1]; [5; 2]] None)
  = [4; 9] ∧
  DifferenceKernel.Kdiag Nat.add Nat.sub Nat.mul 2 1
    (λ a b, foldr Nat.add 0 a * foldr Nat.add 0 b) [[3; 1]; [5; 2]]
  = [4; 9].
Proof.
  apply (Kdiag_and_diagonal_of_K Nat.add Nat.sub Nat.mul 2 1
           (λ a b, foldr Nat.add 0 a * foldr Nat.add 0 b) [[3; 1]; [5; 2]]).
  intros a b. apply Nat.mul_comm.
Defined.

(** ** The labels of the reverse graph are never read *)

Lemma predecessors_agree (l l' : list Edge) node :
  (λ e, (src e, dst e)) <$> l = (λ e, (src e, dst e)) <$> l' →
  dst <$> filter (λ e, src e = node) l = dst <$> filter (λ e, src e = node) l'.
Proof.
  revert l'. induction l as [|e l IH]; intros [|e' l']; simpl; try done.
  intros [= Hs Hd Hrest]. rewrite !filter_cons.
  destruct (decide (src e = node)), (decide (src e' = node)); simpl;
    try congruence; [f_equal; [done|]|]; by apply IH.
Qed.

Lemma returnable_step_reverse env graph rg rg' node s :
  number_of_nodes rg = number_of_nodes rg' →
  (λ e, (src e, dst e)) <$> edges rg = (λ e, (src e, dst e)) <$> edges rg' →
  returnable_step env graph rg node s = returnable_step env graph rg' node s.
Proof.
  intros HN Hes. unfold returnable_step, edges_from, lift, mbind, M_bind.
  rewrite HN. case_decide; [|done].
  by rewrite (predecessors_agree _ _ node Hes).
Qed.

(** X17.  [returnable_set] takes from the reverse graph the endpoints of
    its edges and nothing else: two reverse graphs with the same nodes
    and the same edges, whatever their labels and actions, give the same
    run.  In particular the labels [graph.reverse()] copied when the
    object was built, stale once the safe set changes, have no effect. *)
Theorem returnable_set_ignores_reverse_labels env graph rg rg' initial_nodes out :
  number_of_nodes rg = number_of_nodes rg' →
  (λ e, (src e, dst e)) <$> edges rg = (λ e, (src e, dst e)) <$> edges rg' →
  returnable_set env graph rg initial_nodes out
    = returnable_set env graph rg' initial_nodes out.
Proof.
  intros HN Hes. unfold returnable_set. destruct initial_nodes as [|x l]; [done|].
  unfold returnable_body, mbind, M_bind.
  destruct (mark_rows (x :: l) 0 _) as [s1 [[]| |]]; [|done..].
  destruct (init_stack (x :: l) s1) as [s2 [[]| |]]; [|done..].
  apply run_queue_ext. intros n s. by apply returnable_step_reverse.
Qed.

Lemma returnable_set_ignores_reverse_labels_witness :
  returnable_set no_env line_graph (DiGraph_reverse (Np.zeros 3 2) line_graph) [2]
    (Np.zeros 3 2)
  = returnable_set no_env line_graph
      (mkGraph 3 [mkEdge 1 0 7 (SafeBool false); mkEdge 2 1 0 (SafeView 5 5)]) [2]
      (Np.zeros 3 2).
Proof.
  apply (returnable_set_ignores_reverse_labels no_env line_graph
           (DiGraph_reverse (Np.zeros 3 2) line_graph)
           (mkGraph 3 [mkEdge 1 0 7 (SafeBool false); mkEdge 2 1 0 (SafeView 5 5)])
           [2] (Np.zeros 3 2)); reflexivity.
Defined.

(** ** The order of enumeration does not matter *)

Lemma ndarray_ext a b :
  Np.valid a → Np.valid b → Np.same_shape a b →
  (∀ i j, Np.getitem a i j = Some true ↔ Np.getitem b i j = Some true) →
  a = b.
Proof.
  destruct a as [R C da], b as [R' C' db]. unfold Np.valid, Np.same_shape, Np.getitem.
  simpl. intros Hva Hvb [-> ->] Hiff. f_equal. apply list_eq. intros k.
  destruct (decide (k < R' * C')) as [Hk|Hk].
  2:{ rewrite !(proj2 (lookup_ge_None _ _)) by lia. done. }
  assert (0 < C') as HC by (destruct C'; lia).
  assert (k / C' < R') as Hq by (apply Nat.Div0.div_lt_upper_bound; lia).
  assert (k mod C' < C') as Hm by (apply Nat.mod_upper_bound; lia).
  assert (k / C' * C' + k mod C' = k) as Hkk.
  { pose proof (Nat.div_mod_eq k C'). lia. }
  specialize (Hiff (k / C') (k mod C')). rewrite Hkk in Hiff.
  destruct (decide (k / C' < R' ∧ k mod C' < C')) as [_|?]; [|tauto].
  destruct (lookup_lt_is_Some_2 da k) as [x Hx]; [lia|].
  destruct (lookup_lt_is_Some_2 db k) as [y Hy]; [lia|].
  rewrite Hx, Hy in *. destruct x, y; try done.
  - by destruct (proj1 Hiff eq_refl).
  - by destruct (proj2 Hiff eq_refl).
Qed.

Lemma closure_equiv arcl arcl' seeds seeds' i j :
  (∀ n r c t, Arc r c true t ∈ arcl n → Arc r c true t ∈ arcl' n) →
  (∀ n, n ∈ seeds → n ∈ seeds') →
  closure arcl seeds i j → closure arcl' seeds' i j.
Proof.
  intros Harc Hseed. induction 1 as [n Hn|n r c t _ IH Hin|n r c t _ IH Hin].
  - by apply closure_seed, Hseed.
  - eapply closure_cell; [exact IH|]. by apply Harc.
  - eapply closure_target; [exact IH|]. by apply Harc.
Qed.

Lemma graph_ok_same_edges C graph graph' :
  number_of_nodes graph' = number_of_nodes graph →
  (∀ e, e ∈ edges graph' → e ∈ edges graph) →
  graph_ok C graph → graph_ok C graph'.
Proof.
  intros HN Hsub [He Ha Hs]. split.
  - intros e Hin. rewrite HN. by apply He, Hsub.
  - intros e Hin. by apply Ha, Hsub.
  - intros e1 e2 H1 H2. apply Hs; by apply Hsub.
Qed.

(** X18.  On a graph of the data model with one edge per (node, action)
    pair, what the traversals leave in a blank [out] does not depend on
    the order in which the edges and the seeds are enumerated: the same
    edges and the same seeds in another order give the same array. *)
Theorem traversals_ignore_enumeration_order C env graph graph'
    reverse_graph reverse_graph' seeds seeds' out :
  graph_ok C graph → one_edge_per_action graph → mirrors reverse_graph graph →
  number_of_nodes graph' = number_of_nodes graph →
  edges graph' ≡ₚ edges graph → mirrors reverse_graph' graph' →
  seeds' ≡ₚ seeds →
  0 < C → seeds ≠ [] → seeds_in (number_of_nodes graph) seeds →
  Np.valid out → Np.nrows out = number_of_nodes graph → Np.ncols out = C →
  blank out →
  (reachable_set env graph seeds out).2 = Ret tt ∧
  (reachable_set env graph' seeds' out).2 = Ret tt ∧
  visited (reachable_set env graph' seeds' out).1
    = visited (reachable_set env graph seeds out).1 ∧
  (returnable_set env graph reverse_graph seeds out).2 = Ret tt ∧
  (returnable_set env graph' reverse_graph' seeds' out).2 = Ret tt ∧
  visited (returnable_set env graph' reverse_graph' seeds' out).1
    = visited (returnable_set env graph reverse_graph seeds out).1.
Proof.
  intros Hok Huniq Hmir HN Hperm Hmir' Hpseeds HC Hne Hseeds Hv Hr Hc Hb.
  assert (∀ e, e ∈ edges graph' ↔ e ∈ edges graph) as Hmem
    by (intros e; by rewrite Hperm).
  assert (∀ n, n ∈ seeds' ↔ n ∈ seeds) as Hsmem
    by (intros n; by rewrite Hpseeds).
  assert (graph_ok C graph') as Hok'.
  { apply (graph_ok_same_edges C graph graph'); [done| |done].
    intros e. apply Hmem. }
  assert (one_edge_per_action graph') as Huniq'.
  { intros e1 e2 H1 H2. apply Huniq; by apply Hmem. }
  assert (seeds' ≠ []) as Hne'.
  { intros ->. apply Permutation_nil_l in Hpseeds. by subst. }
  assert (seeds_in (number_of_nodes graph') seeds') as Hseeds'.
  { unfold seeds_in. rewrite HN, Hpseeds. done. }
  destruct (reachable_set_spec C env graph seeds out)
    as (s1 & Hrun1 & Hv1 & Hs1 & Hsound1 & Hcompl1); [done..|].
  destruct (reachable_set_spec C env graph' seeds' out)
    as (s1' & Hrun1' & Hv1' & Hs1' & Hsound1' & Hcompl1');
    [done..|congruence|done|done|].
  destruct (returnable_set_spec C env graph reverse_graph seeds out)
    as (s2 & Hrun2 & Hv2 & Hs2 & Hiff2); [done..|].
  destruct (returnable_set_spec C env graph' reverse_graph' seeds' out)
    as (s2' & Hrun2' & Hv2' & Hs2' & Hiff2');
    [done..|congruence|done|done|].
  rewrite Hrun1, Hrun1', Hrun2, Hrun2'. simpl.
  split_and!; try done.
  - apply ndarray_ext; [done..| |].
    { destruct Hs1, Hs1'. split; congruence. }
    intros i j. split; intros Hij.
    + apply Hcompl1; [done|]. apply Hsound1' in Hij.
      eapply closure_equiv; [| |exact Hij].
      * intros n r c t (e & He & Hrest)%elem_of_succ_list.
        apply elem_of_succ_list. exists e. split; [by apply Hmem|done].
      * intros n. apply Hsmem.
    + apply Hcompl1'; [done|]. apply Hsound1 in Hij.
      eapply closure_equiv; [| |exact Hij].
      * intros n r c t (e & He & Hrest)%elem_of_succ_list.
        apply elem_of_succ_list. exists e. split; [by apply Hmem|done].
      * intros n. apply Hsmem.
  - apply ndarray_ext; [done..| |].
    { destruct Hs2, Hs2'. split; congruence. }
    intros i j. rewrite Hiff2, Hiff2'. split; intros Hij.
    + eapply closure_equiv; [| |exact Hij].
      * intros n r c t Hin.
        apply (elem_of_pred_list C) in Hin as (e & He & Hrest); [|done..].
        apply (elem_of_pred_list C); [done..|].
        exists e. split; [by apply Hmem|done].
      * intros n. apply Hsmem.
    + eapply closure_equiv; [| |exact Hij].
      * intros n r c t Hin.
        apply (elem_of_pred_list C) in Hin as (e & He & Hrest); [|done..].
        apply (elem_of_pred_list C); [done..|].
        exists e. split; [by apply Hmem|done].
      * intros n. apply Hsmem.
Qed.

Lemma traversals_ignore_enumeration_order_witness :
  let graph' := mkGraph 3 [mkEdge 1 2 1 (SafeBool true); mkEdge 0 1 1 (SafeBool true)] in
  (reachable_set no_env line_graph [0; 1] (Np.zeros 3 2)).2 = Ret tt ∧
  (reachable_set no_env graph' [1; 0] (Np.zeros 3 2)).2 = Ret tt ∧
  visited (reachable_set no_env graph' [1; 0] (Np.zeros 3 2)).1
    = visited (reachable_set no_env line_graph [0; 1] (Np.zeros 3 2)).1 ∧
  (returnable_set no_env line_graph (DiGraph_reverse no_env line_graph) [0; 1]
     (Np.zeros 3 2)).2 = Ret tt ∧
  (returnable_set no_env graph' (DiGraph_reverse no_env graph') [1; 0]
     (Np.zeros 3 2)).2 = Ret tt ∧
  visited (returnable_set no_env graph' (DiGraph_reverse no_env graph') [1; 0]
             (Np.zeros 3 2)).1
    = visited (returnable_set no_env line_graph (DiGraph_reverse no_env line_graph)
                 [0; 1] (Np.zeros 3 2)).1.
Proof.
  apply (traversals_ignore_enumeration_order 2 no_env line_graph
           (mkGraph 3 [mkEdge 1 2 1 (SafeBool true); mkEdge 0 1 1 (SafeBool true)])
           (DiGraph_reverse no_env line_graph)
           (DiGraph_reverse no_env
              (mkGraph 3 [mkEdge 1 2 1 (SafeBool true); mkEdge 0 1 1 (SafeBool true)]))
           [0; 1] [1; 0] (Np.zeros 3 2)).
  - apply line_graph_ok.
  - apply line_graph_one_edge.
  - apply mirrors_reverse.
  - reflexivity.
  - apply perm_swap.
  - apply mirrors_reverse.
  - apply perm_swap.
  - lia.
  - discriminate.
  - repeat constructor.
  - apply zeros_valid.
  - reflexivity.
  - reflexivity.
  - intros i j Hij. by apply getitem_zeros_inv in Hij.
Defined.

(** ** A fresh object, end to end *)

Lemma init_seeds {F} env mem_reach mem_G graph (gp : GPRegression F) S_hat0 h L beta s :
  SafeMDP.__init__ env mem_reach mem_G graph gp S_hat0 h L beta = Ret s →
  ∀ i, i ∈ SafeMDP.initial_nodes s ↔ Np.getitem S_hat0 i 0 = Some true.
Proof.
  unfold SafeMDP.__init__. destruct (max_out_degree graph) as [d| |]; [|done..].
  destruct (Np.column0_nonzero _) as [l|] eqn:El; [|done].
  intros [= <-]. simpl. by apply column0_nonzero_spec in El as [_ Hl].
Qed.

(** X19.  Build an object from a graph of the data model with one edge
    per (node, action) pair and actions up to its maximal out-degree [d],
    and from an initial matrix of shape [(num_nodes, d + 1)] with a true
    cell in column 0; then call [compute_S_hat] against the array [env].
    Both calls return, and column 0 of [S_hat] holds exactly the nodes
    that an initially safe node reaches, and that reach an initially safe
    node, along edges that are safe in [env] at the time of the call,
    whatever the labels were when the object was built. *)
Theorem fresh_object_safe_set {F} env0 env mem_reach mem_G graph (gp : GPRegression F)
    S_hat0 h L beta d i0 :
  max_out_degree graph = Ret d →
  graph_ok (d + 1) graph → one_edge_per_action graph →
  Np.valid S_hat0 →
  Np.nrows S_hat0 = number_of_nodes graph → Np.ncols S_hat0 = d + 1 →
  Np.getitem S_hat0 i0 0 = Some true →
  ∃ s s',
    SafeMDP.__init__ env0 mem_reach mem_G graph gp S_hat0 h L beta = Ret s ∧
    SafeMDP.compute_S_hat env s = (s', Ret tt) ∧
    ∀ n, Np.getitem (SafeMDP.S_hat s') n 0 = Some true ↔
      (∃ a, Np.getitem S_hat0 a 0 = Some true ∧ safe_path env graph a n) ∧
      (∃ b, Np.getitem S_hat0 b 0 = Some true ∧ safe_path env graph n b).
Proof.
  intros Hd Hok Huniq Hv Hr Hc Hi0.
  destruct (init_ok env0 mem_reach mem_G graph gp S_hat0 h L beta d i0)
    as (s & Hinit & Hmdp & Hgraph & _); [done..|].
  pose proof (init_seeds _ _ _ _ _ _ _ _ _ _ Hinit) as Hseeds.
  destruct (compute_S_hat_spec env s Hmdp)
    as (r & a & Hrun & _ & Hsound & Hcompl & Ha).
  rewrite Hgraph in Hsound, Hcompl, Ha. specialize (Hcompl Huniq).
  pose proof (mdp_graph s Hmdp) as Hg. pose proof (mdp_reverse s Hmdp) as Hmir.
  rewrite Hgraph in Hg, Hmir.
  destruct (reach_cells_paths _ env graph (SafeMDP.initial_nodes s) Hg) as [Hr0 _].
  destruct (return_cells_paths _ env graph (SafeMDP.graph_reverse s)
              (SafeMDP.initial_nodes s) Hg Hmir) as [Hb0 _].
  exists s. eexists. split; [done|]. split; [done|]. simpl.
  intros n. rewrite Ha, Hb0. unfold from_seed, to_seed in *. split.
  - intros [(b & Hb & Hpb) Hn]. apply Hsound, Hr0 in Hn as (a0 & Ha0 & Hpa).
    split; [exists a0|exists b]; split; try done; by apply Hseeds.
  - intros [(a0 & Ha0 & Hpa) (b & Hb & Hpb)]. split.
    + exists b. split; [by apply Hseeds|done].
    + apply Hcompl, Hr0. exists a0. split; [by apply Hseeds|done].
Qed.

Lemma fresh_object_safe_set_witness :
  ∃ s s',
    SafeMDP.__init__ (seed0 true true true) (λ _, true) (λ _, true) line_graph
      (mkGP (F:=nat) (mkMatrix 0 []) (mkMatrix 0 [])) (seed0 false false false) 0 0 2 = Ret s ∧
    SafeMDP.compute_S_hat no_env s = (s', Ret tt) ∧
    ∀ n, Np.getitem (SafeMDP.S_hat s') n 0 = Some true ↔
      (∃ a, Np.getitem (seed0 false false false) a 0 = Some true ∧
            safe_path no_env line_graph a n) ∧
      (∃ b, Np.getitem (seed0 false false false) b 0 = Some true ∧
            safe_path no_env line_graph n b).
Proof.
  apply (fresh_object_safe_set (F:=nat) (seed0 true true true) no_env
           (λ _, true) (λ _, true) line_graph (mkGP (mkMatrix 0 []) (mkMatrix 0 []))
           (seed0 false false false) 0 0 2 1 0).
  - reflexivity.
  - apply line_graph_ok.
  - apply line_graph_one_edge.
  - reflexivity.
  - reflexivity.
  - reflexivity.
  - reflexivity.
Defined.
